(** * Stack-trace model builder of hardhat-core: compiler-to-model.ts

    A shallow embedding of
    [packages/hardhat-core/src/internal/hardhat-network/stack-traces/compiler-to-model.ts]
    and the properties of the model it builds from the compiler's AST, ABI
    and bytecode output.  The resolved tasks of v-next core,
    [v-next/core/src/internal/tasks/resolved-task.ts], are embedded in the
    module [Tasks], with conventions of their own.

    Conventions.
    - A JavaScript object used as a dictionary ([compilerOutput.sources],
      [compilerOutput.contracts], ...) is the list of its entries in the order
      [Object.entries] enumerates them; property access is the first entry
      with that key.
    - A JavaScript [Map] that the code iterates is an insertion-ordered
      association list ([JsMap]): [set] on a present key replaces the value
      in place, on a fresh key it appends; iteration follows the list.  A
      [Map] that is only read and written by key is a [gmap].
    - A thrown exception is [None] in the option monad.
    - Objects that are mutated after their creation ([SourceFile], [Contract])
      live in a store and are passed around by reference.  A reference is the
      place where the object is created: a [SourceFile] is created once per
      key of [compilerOutput.sources], a [Contract] once per contract
      definition node of a source, so the key, and the key with the position
      of the node, name them. *)

From Stdlib Require Import ZArith String List FunctionalExtensionality.
From Stdlib.Strings Require Import Byte.
From stdpp Require Import base option list gmap strings fin_maps.

Open Scope string_scope.
Open Scope list_scope.
Open Scope Z_scope.

(** ** JavaScript containers *)

Module JsObject.
(** [obj[k]]: the value of the first entry with key [k]. *)
Fixpoint get {V} (o : list (string * V)) (k : string) : option V :=
  match o with
  | [] => None
  | (k', v) :: o' => if decide (k' = k) then Some v else get o' k
  end.

(** Every key of an object occurs once. *)
Definition wf {V} (o : list (string * V)) : Prop := NoDup (o.*1).

(** [obj[k] = v]: a present key keeps its place in the enumeration, a new
    key comes last. *)
Fixpoint set {V} (o : list (string * V)) (k : string) (v : V)
  : list (string * V) :=
  match o with
  | [] => [(k, v)]
  | (k', v') :: o' =>
      if decide (k' = k) then (k, v) :: o' else (k', v') :: set o' k v
  end.
End JsObject.

Module JsMap.
Definition t (V : Type) : Type := list (Z * V).

Fixpoint get {V} (m : t V) (k : Z) : option V :=
  match m with
  | [] => None
  | (k', v) :: m' => if decide (k' = k) then Some v else get m' k
  end.

(** [m.set(k, v)]: a present key keeps its position. *)
Fixpoint set {V} (m : t V) (k : Z) (v : V) : t V :=
  match m with
  | [] => [(k, v)]
  | (k', v') :: m' =>
      if decide (k' = k) then (k, v) :: m' else (k', v') :: set m' k v
  end.

Definition entries {V} (m : t V) : list (Z * V) := m.
Definition values {V} (m : t V) : list V := m.*2.
End JsMap.

(** ** Tasks of v-next core: resolved-task.ts

    A shallow embedding of [v-next/core/src/internal/tasks/resolved-task.ts].

    Conventions.
    - A value of type [unknown] or [any] is an [option]: [None] is
      [undefined].
    - A thrown exception, or a rejected promise, is [Throw]; [await] is the
      bind of the exception monad.
    - A function that mutates [taskArguments] or [this.actions] returns
      their new content with its result, also when it throws.
    - An action function is its result as a function of the arguments it
      is called with; what it does to the runtime environment is not part
      of the model. *)

Module Tasks.

Section Definitions.

Context {Value ParameterType HardhatRuntimeEnvironment Task : Type}.

(** [unknown], [any] *)
Definition unknown : Type := option Value.

(** [TaskArguments = Record<string, any>], in the order of
    [Object.entries]. *)
Definition TaskArguments : Type := list (string * unknown).

Inductive Exception : Type :=
  (** [new Error(message)] *)
  | Error (message : string)
  (** [new HardhatError(HardhatError.ERRORS.ARGUMENTS.UNRECOGNIZED_NAMED_PARAM,
      { parameter })] *)
  | UNRECOGNIZED_NAMED_PARAM (parameter : string)
  (** [new HardhatError(HardhatError.ERRORS.ARGUMENTS.MISSING_VALUE_FOR_PARAMETER,
      { paramName })] *)
  | MISSING_VALUE_FOR_PARAMETER (paramName : string)
  (** what [assertHardhatInvariant(false, message)] throws *)
  | HardhatInvariantError (message : string)
  (** the read of a property of [undefined], the call of [undefined] *)
  | TypeError
  (** what an action throws *)
  | Thrown (error : unknown).

Inductive Result (A : Type) : Type :=
  | Return (a : A)
  | Throw (e : Exception).

#[global] Arguments Return {A} a.
#[global] Arguments Throw {A} e.

#[global] Instance Result_ret : MRet Result := λ A a, Return a.

#[global] Instance Result_bind : MBind Result :=
  λ A B f r, match r with Return a => f a | Throw e => Throw e end.

(** A function in the place of an action: called with two arguments for
    the first action of a task, when [runSuper] is [undefined], and with
    three for an action that overrides another.  It returns or throws; it
    is taken not to write to [this.actions] nor to the object of the
    arguments it is given. *)
Definition ActionFunction : Type :=
  TaskArguments → HardhatRuntimeEnvironment →
  option (TaskArguments → Result unknown) → Result unknown.

(** [action.action]: a function, the path of a module, or [undefined]. *)
Inductive Action : Type :=
  | AFunction (actionFn : ActionFunction)
  | AFile (path : string)
  | AUndefined.

Record TaskAction : Type := mkTaskAction {
  ta_pluginId : option string;
  ta_action : Action
}.

Record NamedTaskParameter : Type := mkNamedTaskParameter {
  ntp_name : string;
  ntp_parameterType : ParameterType;
  ntp_defaultValue : unknown
}.

Record PositionalTaskParameter : Type := mkPositionalTaskParameter {
  ptp_name : string;
  ptp_parameterType : ParameterType;
  ptp_defaultValue : unknown;
  ptp_isVariadic : bool
}.

(** [NamedTaskParameter | PositionalTaskParameter] *)
Inductive TaskParameter : Type :=
  | Named (parameter : NamedTaskParameter)
  | Positional (parameter : PositionalTaskParameter).

Definition tp_name (parameter : TaskParameter) : string :=
  match parameter with
  | Named p => ntp_name p
  | Positional p => ptp_name p
  end.

Definition tp_parameterType (parameter : TaskParameter) : ParameterType :=
  match parameter with
  | Named p => ntp_parameterType p
  | Positional p => ptp_parameterType p
  end.

Definition tp_defaultValue (parameter : TaskParameter) : unknown :=
  match parameter with
  | Named p => ntp_defaultValue p
  | Positional p => ptp_defaultValue p
  end.

(** ["isVariadic" in parameter && parameter.isVariadic] *)
Definition tp_isVariadic (parameter : TaskParameter) : bool :=
  match parameter with
  | Named _ => false
  | Positional p => ptp_isVariadic p
  end.

(** The fields of a [ResolvedTask]; [Task] is the interface of
    types/tasks.ts. *)
Record ResolvedTask : Type := mkResolvedTask {
  rt_id : list string;
  rt_description : string;
  rt_actions : list TaskAction;
  rt_namedParameters : gmap string NamedTaskParameter;
  rt_positionalParameters : list PositionalTaskParameter;
  rt_pluginId : option string;
  rt_subtasks : gmap string Task;
  rt_hre : HardhatRuntimeEnvironment
}.

(** What the module imports: [isParameterValueValid] of types/common.ts,
    [formatTaskId] of utils.ts, and the dynamic [import] of a module: it
    throws, or gives a module with or without a function as its default
    export. *)
Class Imports : Type := {
  isParameterValueValid : ParameterType → unknown → bool → bool;
  formatTaskId : list string → string;
  import : string → option (option ActionFunction)
}.

Context `{Imports}.

Definition createEmptyTask (hre : HardhatRuntimeEnvironment)
  (id : list string) (description : string) (pluginId : option string)
  : ResolvedTask :=
  mkResolvedTask id description [mkTaskAction pluginId AUndefined] ∅ []
    pluginId ∅ hre.

(** [new Map(Object.entries(namedParameters))] *)
Definition mapOfObject {V} (o : list (string * V)) : gmap string V :=
  foldl (λ m e, <[e.1 := e.2]> m) ∅ o.

(** [action] is a [NewTaskActionFunction], which takes two arguments, or
    a string. *)
Definition createNewTask (hre : HardhatRuntimeEnvironment)
  (id : list string) (description : string)
  (action :
     (TaskArguments → HardhatRuntimeEnvironment → Result unknown) + string)
  (namedParameters : list (string * NamedTaskParameter))
  (positionalParameters : list PositionalTaskParameter)
  (pluginId : option string) : ResolvedTask :=
  mkResolvedTask id description
    [mkTaskAction pluginId
       match action with
       | inl actionFn =>
           AFunction (λ taskArguments hre _, actionFn taskArguments hre)
       | inr path => AFile path
       end]
    (mapOfObject namedParameters) positionalParameters pluginId ∅ hre.

Definition isEmpty (this : ResolvedTask) : bool :=
  match rt_actions this with
  | [action] =>
      match ta_action action with
      | AUndefined => true
      | _ => false
      end
  | _ => false
  end.

Definition getParameter (this : ResolvedTask) (name : string)
  : Result TaskParameter :=
  match rt_namedParameters this !! name with
  | Some parameter => Return (Named parameter)
  | None =>
      match
        List.find (λ p, bool_decide (ptp_name p = name))
          (rt_positionalParameters this)
      with
      | Some parameter => Return (Positional parameter)
      | None => Throw (UNRECOGNIZED_NAMED_PARAM name)
      end
  end.

Definition validateRequiredParameter (parameter : TaskParameter)
  (value : unknown) : Result unit :=
  match tp_defaultValue parameter, value with
  | None, None => Throw (MISSING_VALUE_FOR_PARAMETER (tp_name parameter))
  | _, _ => Return ()
  end.

Definition invalidTypeMessage (this : ResolvedTask)
  (parameter : TaskParameter) : string :=
  String.append "Invalid type for parameter "
    (String.append (tp_name parameter)
       (String.append " in task " (formatTaskId (rt_id this)))).

Definition validateParameterType (this : ResolvedTask)
  (parameter : TaskParameter) (value : unknown) : Result unit :=
  match value, tp_defaultValue parameter with
  | None, Some _ => Return ()
  | _, _ =>
      let isVariadic := tp_isVariadic parameter in
      if isParameterValueValid (tp_parameterType parameter) value isVariadic
      then Return ()
      else Throw (Error (invalidTypeMessage this parameter))
  end.

(** One turn of the loop of [run] over [Object.entries(taskArguments)]:
    the checks, then the new content of [taskArguments]. *)
Definition resolveArgument (this : ResolvedTask)
  (taskArguments : TaskArguments) (name : string) (value : unknown)
  : Result TaskArguments :=
  parameter ← getParameter this name;
  _ ← validateRequiredParameter parameter value;
  _ ← validateParameterType this parameter value;
  match value, tp_defaultValue parameter with
  | None, Some defaultValue =>
      Return (JsObject.set taskArguments name (Some defaultValue))
  | _, _ => Return taskArguments
  end.

(** The loop, over the entries that [Object.entries] gave when it
    started. *)
Fixpoint resolveArguments (this : ResolvedTask)
  (entries : list (string * unknown)) (taskArguments : TaskArguments)
  : TaskArguments * Result unit :=
  match entries with
  | [] => (taskArguments, Return ())
  | (name, value) :: entries =>
      match resolveArgument this taskArguments name value with
      | Return taskArguments => resolveArguments this entries taskArguments
      | Throw e => (taskArguments, Throw e)
      end
  end.

Definition noDefaultExportMessage (path : string) : string :=
  String.append "The module "
    (String.append path
       " should export a default function to be used as a task action").

(** [#resolveFileActions], on the content of [this.actions]. *)
Fixpoint resolveFileActions (actions : list TaskAction)
  : list TaskAction * Result unit :=
  match actions with
  | [] => ([], Return ())
  | action :: actions =>
      match ta_action action with
      | AFile path =>
          match import path with
          | None =>
              (action :: actions, Throw (Error "Error importing the module"))
          | Some None =>
              (action :: actions, Throw (Error (noDefaultExportMessage path)))
          | Some (Some default) =>
              let '(actions, r) := resolveFileActions actions in
              (mkTaskAction (ta_pluginId action) (AFunction default)
                 :: actions, r)
          end
      | _ =>
          let '(actions, r) := resolveFileActions actions in
          (action :: actions, r)
      end
  end.

(** [next] of [run].  The index is a natural number: on an empty array
    [this.actions.length - 1] is -1 in the source and 0 here, and at both
    there is no action to read [action] of. *)
Fixpoint next (hre : HardhatRuntimeEnvironment) (actions : list TaskAction)
  (currentIndex : nat) (nextTaskArguments : TaskArguments)
  : Result unknown :=
  match actions !! currentIndex with
  | None => Throw TypeError
  | Some action =>
      match ta_action action with
      | AFunction actionFn =>
          match currentIndex with
          | O => actionFn nextTaskArguments hre None
          | S index =>
              actionFn nextTaskArguments hre
                (Some
                   (λ newTaskArguments,
                      next hre actions index newTaskArguments))
          end
      | _ => Throw (HardhatInvariantError "The action should be a function")
      end
  end.

(** [run]: the content of [this.actions] and of [taskArguments] when it
    returns or throws, and its result. *)
Definition run (this : ResolvedTask) (taskArguments : TaskArguments)
  : list TaskAction * TaskArguments * Result unknown :=
  if isEmpty this
  then (rt_actions this, taskArguments,
        Throw (Error "Cannot run an empty task"))
  else
    match resolveArguments this taskArguments taskArguments with
    | (taskArguments, Throw e) => (rt_actions this, taskArguments, Throw e)
    | (taskArguments, Return _) =>
        match resolveFileActions (rt_actions this) with
        | (actions, Throw e) => (actions, taskArguments, Throw e)
        | (actions, Return _) =>
            (actions, taskArguments,
             next (rt_hre this) actions (length actions - 1) taskArguments)
        end
    end.

(** What the arguments and the actions of [run] go through. *)

(** An argument that the loop of [run] lets through: its name is the name
    of a parameter, and its value is valid for the type of the parameter
    or, when it is [undefined], the parameter has a default value. *)
Definition accepted (this : ResolvedTask) (entry : string * unknown)
  : Prop :=
  ∃ parameter,
    getParameter this entry.1 = Return parameter
    ∧ match entry.2 with
      | Some value =>
          isParameterValueValid (tp_parameterType parameter) (Some value)
            (tp_isVariadic parameter) = true
      | None => is_Some (tp_defaultValue parameter)
      end.

(** An argument that stops the loop, with what is thrown: no parameter
    has its name; or it is [undefined] and its parameter has no default
    value; or it has a value that is not valid for the type of its
    parameter. *)
Inductive rejected (this : ResolvedTask)
  : string * unknown → Exception → Prop :=
  | rejected_unrecognized name value :
      rt_namedParameters this !! name = None →
      Forall (λ p, ptp_name p ≠ name) (rt_positionalParameters this) →
      rejected this (name, value) (UNRECOGNIZED_NAMED_PARAM name)
  | rejected_missing name parameter :
      getParameter this name = Return parameter →
      tp_defaultValue parameter = None →
      rejected this (name, None)
        (MISSING_VALUE_FOR_PARAMETER (tp_name parameter))
  | rejected_invalid name parameter value :
      getParameter this name = Return parameter →
      isParameterValueValid (tp_parameterType parameter) (Some value)
        (tp_isVariadic parameter) = false →
      rejected this (name, Some value)
        (Error (invalidTypeMessage this parameter)).

(** An argument with its value or, when it is [undefined], the default
    value of its parameter. *)
Definition resolvedArgument (this : ResolvedTask)
  (entry : string * unknown) : string * unknown :=
  (entry.1,
   match entry.2 with
   | Some value => Some value
   | None =>
       match getParameter this entry.1 with
       | Return parameter => tp_defaultValue parameter
       | Throw _ => None
       end
   end).

(** An action whose module, if it is a file action, can be imported and
    exports a function by default. *)
Definition importable (action : TaskAction) : Prop :=
  ∀ path, ta_action action = AFile path → ∃ default,
    import path = Some (Some default).

(** A file action with the function of its module in the place of the
    path. *)
Definition resolvedAction (action : TaskAction) : TaskAction :=
  match ta_action action with
  | AFile path =>
      match import path with
      | Some (Some default) =>
          mkTaskAction (ta_pluginId action) (AFunction default)
      | _ => action
      end
  | _ => action
  end.

(** What is thrown for a module that cannot be imported or has no
    function as its default export. *)
Definition importError (path : string) : Exception :=
  match import path with
  | None => Error "Error importing the module"
  | _ => Error (noDefaultExportMessage path)
  end.

End Definitions.

#[global] Arguments Exception : clear implicits.
#[global] Arguments Result : clear implicits.
#[global] Arguments Imports : clear implicits.
#[global] Arguments rejected {Value ParameterType HardhatRuntimeEnvironment Task _} this _ _.

End Tasks.

(** Sample tasks. *)

Module TaskSample.
Import Tasks.

Inductive ParameterType : Type := STRING | INT.

Inductive Value : Type := VString (s : string) | VInt (n : Z).

Definition isParameterValueValid (type : ParameterType)
  (value : option Value) (isVariadic : bool) : bool :=
  match type, value with
  | STRING, Some (VString _) => true
  | INT, Some (VInt _) => true
  | _, _ => false
  end.

Definition formatTaskId (id : list string) : string := String.concat " " id.

(** An action that returns its argument [jobs]. *)
Definition compile : @ActionFunction Value unit :=
  λ taskArguments hre runSuper,
    Return (default None (JsObject.get taskArguments "jobs")).

(** An override that runs the overridden task on one job. *)
Definition sequential : @ActionFunction Value unit :=
  λ taskArguments hre runSuper,
    match runSuper with
    | Some runSuper =>
        runSuper (JsObject.set taskArguments "jobs" (Some (VInt 1)))
    | None => Throw TypeError
    end.

Definition import (path : string)
  : option (option (@ActionFunction Value unit)) :=
  if decide (path = "./compile.js") then Some (Some compile)
  else if decide (path = "./empty.js") then Some None
  else None.

#[global] Instance imports : Imports Value ParameterType unit :=
  @Build_Imports Value ParameterType unit isParameterValueValid formatTaskId
    import.

Definition profile : @NamedTaskParameter Value ParameterType :=
  mkNamedTaskParameter "profile" STRING (Some (VString "default")).

Definition jobs : @NamedTaskParameter Value ParameterType :=
  mkNamedTaskParameter "jobs" INT None.

Definition paths : @PositionalTaskParameter Value ParameterType :=
  mkPositionalTaskParameter "paths" STRING None true.

Definition namedParameters
  : list (string * @NamedTaskParameter Value ParameterType) :=
  [("profile", profile); ("jobs", jobs)].

(** A task whose action is in a file. *)
Definition compileTask : @ResolvedTask Value ParameterType unit unit :=
  createNewTask tt ["compile"] "Compiles the project" (inr "./compile.js")
    namedParameters [paths] None.

(** The task with an override of a plugin whose module is missing. *)
Definition overriddenTask : @ResolvedTask Value ParameterType unit unit :=
  mkResolvedTask (rt_id compileTask) (rt_description compileTask)
    (rt_actions compileTask
       ++ [mkTaskAction (Some "plugin") (AFile "./missing.js")])
    (rt_namedParameters compileTask) (rt_positionalParameters compileTask)
    None ∅ tt.

End TaskSample.

(** ** The compiler's output: AST, ABI, bytecode *)

Definition Buffer : Type := list byte.

#[global] Instance byte_eq_dec : EqDecision byte := Byte.byte_eq_dec.

(** The [src] attribute of an AST node, [start:length:fileIndex]. *)
Record Src : Type := mkSrc {
  src_start : Z;
  src_length : Z;
  src_fileIndex : Z
}.

Record TypeName : Type := mkTypeName {
  tn_nodeType : string;
  (** [typeName.typeDescriptions.typeString] *)
  tn_typeString : string;
  tn_name : string
}.

(** A [VariableDeclaration] node of a parameter list. *)
Record Param : Type := mkParam {
  (** [undefined] when the node has no [typeName] *)
  p_typeName : option TypeName;
  (** [param.typeDescriptions.typeString] *)
  p_typeString : option string
}.

Record FunctionDefinition : Type := mkFunctionDefinition {
  fd_name : string;
  fd_kind : option string;
  fd_implemented : option bool;
  fd_src : Src;
  fd_visibility : string;
  fd_stateMutability : string;
  fd_functionSelector : option string;
  (** [parameters.parameters] *)
  fd_parameters : list Param
}.

(** Modifier definitions and state variable declarations are handed to
    the library unchanged. *)
Record MemberNode : Type := mkMemberNode {
  mn_name : string;
  mn_src : Src;
  mn_visibility : string;
  mn_functionSelector : option string
}.

Inductive ContractMember : Type :=
  | MFunctionDefinition (f : FunctionDefinition)
  | MModifierDefinition (m : MemberNode)
  | MVariableDeclaration (v : MemberNode)
  | MOther (nodeType : string).

Record ContractDefinition : Type := mkContractDefinition {
  cd_name : string;
  cd_id : Z;
  cd_contractKind : option string;
  cd_src : Src;
  cd_linearizedBaseContracts : list Z;
  cd_nodes : list ContractMember
}.

(** The nodes of a source unit, by [nodeType]. *)
Inductive SourceNode : Type :=
  | NContractDefinition (c : ContractDefinition)
  | NFunctionDefinition (f : FunctionDefinition)
  | NOther (nodeType : string).

Record AbiInput : Type := mkAbiInput { in_type : string }.

(** An ABI entry; [ContractAbiEntry] reads its [name] and [inputs]. *)
Record AbiItem : Type := mkAbiItem {
  abi_type : string;
  abi_name : option string;
  abi_inputs : option (list AbiInput)
}.

Definition ContractAbi : Type := list AbiItem.

Record CompilerOutputBytecode : Type := mkCompilerOutputBytecode {
  bc_object : string;
  bc_sourceMap : string;
  bc_linkReferences : list (string * list (string * list (Z * Z)));
  bc_immutableReferences : option (list (string * list (Z * Z)))
}.

Record CompilerOutputContract : Type := mkCompilerOutputContract {
  co_abi : ContractAbi;
  (** [evm.bytecode] *)
  co_bytecode : CompilerOutputBytecode;
  (** [evm.deployedBytecode] *)
  co_deployedBytecode : CompilerOutputBytecode
}.

Record CompilerOutputSource : Type := mkCompilerOutputSource {
  so_id : Z;
  (** [ast.nodes] *)
  so_nodes : list SourceNode
}.

Record CompilerOutput : Type := mkCompilerOutput {
  out_sources : list (string * CompilerOutputSource);
  out_contracts : list (string * list (string * CompilerOutputContract))
}.

(** [compilerInput.sources]: source name to [content]. *)
Definition CompilerInput : Type := list (string * string).

(** ** The model (model.ts) *)

Inductive ContractType : Type := CONTRACT | LIBRARY.

Inductive ContractFunctionType : Type :=
  | CONSTRUCTOR | FUNCTION | FALLBACK | RECEIVE | FREE_FUNCTION.

Inductive ContractFunctionVisibility : Type :=
  | PRIVATE | INTERNAL | PUBLIC | EXTERNAL.

#[global] Instance ContractType_eq_dec : EqDecision ContractType.
Proof. solve_decision. Defined.
#[global] Instance ContractFunctionType_eq_dec :
  EqDecision ContractFunctionType.
Proof. solve_decision. Defined.
#[global] Instance ContractFunctionVisibility_eq_dec :
  EqDecision ContractFunctionVisibility.
Proof. solve_decision. Defined.

Abbreviation fileRef := string (only parsing).
Abbreviation contractRef := (string * nat)%type (only parsing).

Record SourceLocation : Type := mkSourceLocation {
  loc_file : fileRef;
  loc_offset : Z;
  loc_length : Z
}.

Record ContractFunction : Type := mkContractFunction {
  cf_name : string;
  cf_type : ContractFunctionType;
  cf_location : option SourceLocation;
  cf_contract : option contractRef;
  cf_visibility : ContractFunctionVisibility;
  cf_isPayable : bool;
  cf_selector : option Buffer;
  cf_paramTypes : option (list string)
}.

Record CustomError : Type := mkCustomError {
  ce_selector : Buffer;
  ce_name : string;
  ce_paramTypes : list string
}.

Record SourceFile : Type := mkSourceFile {
  sf_sourceName : string;
  sf_content : string;
  sf_functions : list ContractFunction
}.

Record Contract : Type := mkContract {
  c_name : string;
  c_type : ContractType;
  c_location : option SourceLocation;
  c_localFunctions : list ContractFunction;
  c_linearizedBaseContracts : list contractRef;
  c_customErrors : list CustomError
}.

(** Modelled from the spec: [Instruction] of model.ts; program byte offset,
    opcode, optional immediate data, optional SourceLocation and jump
    classification. *)
Inductive JumpType : Type := INTO | OUT_OF | REGULAR | NONE.

Record Instruction : Type := mkInstruction {
  i_pc : Z;
  i_opcode : Z;
  i_pushData : option Buffer;
  i_location : option SourceLocation;
  i_jumpType : JumpType
}.

(** The arguments of [new Bytecode(...)]. *)
Record Bytecode : Type := mkBytecode {
  b_contract : contractRef;
  b_isDeployment : bool;
  b_normalizedCode : Buffer;
  b_instructions : list Instruction;
  b_libraryAddressPositions : list Z;
  b_immutableReferences : list (Z * Z);
  b_compilerVersion : string
}.

(** The store and the maps the build threads through its functions;
    [diagnostics] collects what the code writes with [log]. *)
Record State : Type := mkState {
  files : gmap string SourceFile;
  contracts : gmap (string * nat) Contract;
  fileIdToSourceFile : gmap Z fileRef;
  contractIdToContract : JsMap.t contractRef;
  contractIdToLinearizedBaseContractIds : gmap Z (list Z);
  diagnostics : list string
}.

Definition emptyState : State := mkState ∅ ∅ ∅ [] ∅ [].

Definition set_files (f : gmap string SourceFile) (st : State) : State :=
  mkState f (contracts st) (fileIdToSourceFile st) (contractIdToContract st)
    (contractIdToLinearizedBaseContractIds st) (diagnostics st).

Definition set_contracts (c : gmap (string * nat) Contract) (st : State)
  : State :=
  mkState (files st) c (fileIdToSourceFile st) (contractIdToContract st)
    (contractIdToLinearizedBaseContractIds st) (diagnostics st).

(** Modelled from the spec: [SourceFile.addFunction] of model.ts; a
    SourceFile owns a list of functions, which grows at its end. *)
Definition SourceFile_addFunction (func : ContractFunction) (f : SourceFile)
  : SourceFile :=
  mkSourceFile (sf_sourceName f) (sf_content f) (sf_functions f ++ [func]).

(** Modelled from the spec: [Contract.addLocalFunction] of model.ts; a
    Contract has an ordered list of local functions. *)
Definition Contract_addLocalFunction (func : ContractFunction) (c : Contract)
  : Contract :=
  mkContract (c_name c) (c_type c) (c_location c)
    (c_localFunctions c ++ [func]) (c_linearizedBaseContracts c)
    (c_customErrors c).

(** Modelled from the spec: [Contract.addNextLinearizedBaseContract] of
    model.ts; a Contract has an ordered list of linearized ancestor
    contracts, to which the resolved ancestors are appended in order. *)
Definition Contract_addNextLinearizedBaseContract (base : contractRef)
  (c : Contract) : Contract :=
  mkContract (c_name c) (c_type c) (c_location c) (c_localFunctions c)
    (c_linearizedBaseContracts c ++ [base]) (c_customErrors c).

(** Modelled from the spec: [Contract.addCustomError] of model.ts; a
    Contract has the custom errors added to it. *)
Definition Contract_addCustomError (e : CustomError) (c : Contract)
  : Contract :=
  mkContract (c_name c) (c_type c) (c_location c) (c_localFunctions c)
    (c_linearizedBaseContracts c) (c_customErrors c ++ [e]).

(** [file.addFunction(func)] on the object [file] refers to. *)
Definition addFunction (file : fileRef) (func : ContractFunction)
  (st : State) : State :=
  set_files (alter (SourceFile_addFunction func) file (files st)) st.

Definition addLocalFunction (contract : contractRef) (func : ContractFunction)
  (st : State) : State :=
  set_contracts
    (alter (Contract_addLocalFunction func) contract (contracts st)) st.

Definition addNextLinearizedBaseContract (contract base : contractRef)
  (st : State) : State :=
  set_contracts
    (alter (Contract_addNextLinearizedBaseContract base) contract
       (contracts st)) st.

Definition addCustomError (contract : contractRef) (e : CustomError)
  (st : State) : State :=
  set_contracts
    (alter (Contract_addCustomError e) contract (contracts st)) st.

Definition log (msg : string) (st : State) : State :=
  mkState (files st) (contracts st) (fileIdToSourceFile st)
    (contractIdToContract st) (contractIdToLinearizedBaseContractIds st)
    (diagnostics st ++ [msg]).

(** Modelled from the spec: [astSrcToSourceLocation]; a SourceLocation is
    derived from the [start:length:fileIndex] triple, its file resolved in
    the file map, and there is none when the file index does not resolve. *)
Definition astSrcToSourceLocation (src : Src)
  (fileIdToSourceFile : gmap Z fileRef) : option SourceLocation :=
  match fileIdToSourceFile !! src_fileIndex src with
  | Some file => Some (mkSourceLocation file (src_start src) (src_length src))
  | None => None
  end.

Definition contractKindToContractType (contractKind : option string)
  : option ContractType :=
  if decide (contractKind = Some "library") then Some LIBRARY
  else if decide (contractKind = Some "contract") then Some CONTRACT
  else None.

Definition functionDefinitionKindToFunctionType (kind : option string)
  : ContractFunctionType :=
  if decide (kind = Some "constructor") then CONSTRUCTOR
  else if decide (kind = Some "fallback") then FALLBACK
  else if decide (kind = Some "receive") then RECEIVE
  else if decide (kind = Some "freeFunction") then FREE_FUNCTION
  else FUNCTION.

(** A [for] loop whose body can throw. *)
Fixpoint forM {S A} (body : S → A → option S) (s : S) (l : list A)
  : option S :=
  match l with
  | [] => Some s
  | x :: l' =>
      match body s x with
      | Some s' => forM body s' l'
      | None => None
      end
  end.

(** ** Sample primitives and compiler outputs *)

Module Sample.

Definition astVisibilityToVisibility (visibility : string)
  : ContractFunctionVisibility :=
  if decide (visibility = "private") then PRIVATE
  else if decide (visibility = "internal") then INTERNAL
  else if decide (visibility = "public") then PUBLIC
  else EXTERNAL.

Definition isContractType (param : Param) : bool :=
  match p_typeString param with
  | Some typeString => String.prefix "contract " typeString
  | None => false
  end.

Definition isEnumType (param : Param) : bool :=
  match p_typeString param with
  | Some typeString => String.prefix "enum " typeString
  | None => false
  end.

Definition toCanonicalAbiType (type : string) : string :=
  if decide (type = "uint") then "uint256"
  else if decide (type = "int") then "int256"
  else type.

Definition byteOfNat (n : nat) : byte :=
  default x00 (Byte.of_nat (n mod 256)).

(** A stand-in for the signature hash: four bytes that tell apart the
    signatures of the samples. *)
Definition methodID (name : string) (types : list string) : Buffer :=
  [byteOfNat (String.length name); byteOfNat (length types);
   byteOfNat (foldr (λ type n, String.length type + n)%nat 0%nat types);
   x2a].

Definition hexDigit (c : Ascii.ascii) : option nat :=
  let n := Ascii.nat_of_ascii c in
  if (48 <=? n)%nat && (n <=? 57)%nat then Some (n - 48)%nat
  else if (97 <=? n)%nat && (n <=? 102)%nat then Some (n - 87)%nat
  else if (65 <=? n)%nat && (n <=? 70)%nat then Some (n - 55)%nat
  else None.

Fixpoint hexBytes (s : string) : Buffer :=
  match s with
  | String a (String b s') =>
      match hexDigit a, hexDigit b with
      | Some x, Some y => byteOfNat (16 * x + y) :: hexBytes s'
      | _, _ => []
      end
  | _ => []
  end.

Definition Buffer_from_hex (s : string) : Buffer := hexBytes s.

Definition modifierFunction (node : MemberNode)
  (location : option SourceLocation) (contract : contractRef)
  : option ContractFunction := None.

Definition getterFunction (node : MemberNode)
  (location : option SourceLocation) (contract : contractRef)
  (getterAbi : option AbiItem) : option ContractFunction :=
  if decide (mn_visibility node = "public") then
    Some
      (mkContractFunction (mn_name node) FUNCTION location (Some contract)
         PUBLIC false (Buffer_from_hex <$> mn_functionSelector node)
         (fmap (M:=list) in_type <$> (getterAbi ≫= abi_inputs)))
  else None.

(** Fails on an entry without name or inputs, and on a tuple. *)
Definition CustomError_fromABI (name : option string)
  (inputs : option (list AbiInput)) : option CustomError :=
  match name, inputs with
  | Some name, Some inputs =>
      let types := in_type <$> inputs in
      if bool_decide ("tuple" ∈ types) then None
      else Some (mkCustomError (methodID name types) name types)
  | _, _ => None
  end.

Definition getLibraryAddressPositions (bytecode : CompilerOutputBytecode)
  : list Z := [].

Definition normalizeCompilerOutputBytecode (object : string)
  (positions : list Z) : Buffer := hexBytes object.

Definition decodeInstructions (code : Buffer) (sourceMap : string)
  (fileIdToSourceFile : gmap Z fileRef) (isDeployment : bool)
  : list Instruction :=
  [].

Definition correctSelectors (bytecodes : list Bytecode)
  (compilerOutput : CompilerOutput) (cs : gmap (string * nat) Contract)
  : gmap (string * nat) Contract := cs.

Definition elementary (type : string) : Param :=
  mkParam (Some (mkTypeName "ElementaryTypeName" type type)) (Some type).

(** [function deposit(address, IERC20, Kind, uint256[]) external payable] *)
Definition deposit : FunctionDefinition :=
  mkFunctionDefinition "deposit" (Some "function") (Some true)
    (mkSrc 40 90 0) "external" "payable" None
    [elementary "address";
     mkParam (Some (mkTypeName "UserDefinedTypeName" "contract IERC20" ""))
       (Some "contract IERC20");
     mkParam (Some (mkTypeName "UserDefinedTypeName" "enum Kind" ""))
       (Some "enum Kind");
     mkParam (Some (mkTypeName "ArrayTypeName" "uint256[]" ""))
       (Some "uint256[]")].

(** [function withdraw(uint) public], with the compiler's selector *)
Definition withdraw : FunctionDefinition :=
  mkFunctionDefinition "withdraw" (Some "function") (Some true)
    (mkSrc 140 60 0) "public" "nonpayable" (Some "0801072a")
    [elementary "uint"].

(** [function withdraw(uint, address) public], an overload *)
Definition withdrawTo : FunctionDefinition :=
  mkFunctionDefinition "withdraw" (Some "function") (Some true)
    (mkSrc 210 70 0) "public" "nonpayable" None
    [elementary "uint"; elementary "address"].

Definition audit : FunctionDefinition :=
  mkFunctionDefinition "audit" (Some "function") (Some false)
    (mkSrc 290 30 0) "external" "view" None [].

Definition helper : FunctionDefinition :=
  mkFunctionDefinition "helper" (Some "freeFunction") (Some true)
    (mkSrc 0 30 0) "internal" "pure" None [].

Definition vaultAbi : ContractAbi :=
  [mkAbiItem "function" (Some "withdraw") (Some [mkAbiInput "uint256"]);
   mkAbiItem "function" (Some "withdraw")
     (Some [mkAbiInput "uint256"; mkAbiInput "address"]);
   mkAbiItem "error" (Some "Locked") (Some [mkAbiInput "uint256"]);
   mkAbiItem "error" (Some "Broken") (Some [mkAbiInput "tuple"]);
   mkAbiItem "error" (Some "Empty") (Some [])].

(** [contract Vault is Base, IERC20Receiver], after [helper] in its file *)
Definition vault : ContractDefinition :=
  mkContractDefinition "Vault" 7 (Some "contract") (mkSrc 35 300 0)
    [7; 3; 99]
    [MFunctionDefinition deposit; MFunctionDefinition withdraw;
     MFunctionDefinition withdrawTo; MFunctionDefinition audit].

Definition base : ContractDefinition :=
  mkContractDefinition "Base" 3 (Some "contract") (mkSrc 0 50 1) [3] [].

(** [abstract contract Guard], which has no bytecode *)
Definition guard : ContractDefinition :=
  mkContractDefinition "Guard" 5 (Some "contract") (mkSrc 120 40 1) [5] [].

Definition guardAbi : ContractAbi :=
  [mkAbiItem "error" (Some "Denied") (Some [mkAbiInput "address"])].

Definition receiver : ContractDefinition :=
  mkContractDefinition "IERC20Receiver" 99 (Some "interface") (mkSrc 60 50 1)
    [99] [].

Definition code (object : string) : CompilerOutputBytecode :=
  mkCompilerOutputBytecode object "" [] None.

Definition compilerOutput : CompilerOutput :=
  mkCompilerOutput
    [("Vault.sol",
      mkCompilerOutputSource 0
        [NFunctionDefinition helper; NContractDefinition vault]);
     ("Base.sol",
      mkCompilerOutputSource 1
        [NContractDefinition base; NContractDefinition receiver;
         NContractDefinition guard])]
    [("Vault.sol",
      [("Vault",
        mkCompilerOutputContract vaultAbi (code "6001") (code "6002"))]);
     ("Base.sol",
      [("Base", mkCompilerOutputContract [] (code "6003") (code "6004"));
       ("IERC20Receiver", mkCompilerOutputContract [] (code "") (code ""));
       ("Guard", mkCompilerOutputContract guardAbi (code "") (code ""))])].

Definition compilerInput : CompilerInput :=
  [("Vault.sol", "function helper() {} contract Vault is Base {}");
   ("Base.sol", "contract Base {} interface IERC20Receiver {} ...")].


(** A contract whose list of base contract ids repeats its own id. *)
Definition repeatingOutput : CompilerOutput :=
  mkCompilerOutput
    [("A.sol",
      mkCompilerOutputSource 0
        [NContractDefinition
           (mkContractDefinition "A" 1 (Some "contract") (mkSrc 0 10 0)
              [1; 1] [])])]
    [("A.sol", [("A", mkCompilerOutputContract [] (code "") (code ""))])].

Definition repeatingInput : CompilerInput := [("A.sol", "contract A {}")].

(** The output without the contracts of Base.sol. *)
Definition incompleteOutput : CompilerOutput :=
  mkCompilerOutput (out_sources compilerOutput)
    (take 1 (out_contracts compilerOutput)).

(** The store when the nodes of Vault.sol are processed. *)
Definition vaultFileState : State :=
  mkState {["Vault.sol" := mkSourceFile "Vault.sol" "" []]}
    {[("Vault.sol", 1%nat) :=
        mkContract "Vault" CONTRACT
          (Some (mkSourceLocation "Vault.sol" 35 300)) [] [] []]}
    {[0 := "Vault.sol"]} [(7, ("Vault.sol", 1%nat))] {[7 := [7; 3; 99]]} [].

End Sample.

(** ** The build *)

Section Build.

(** What the module imports from outside the repository:
    [@nomicfoundation/edr], [ethereumjs-abi], Node's [Buffer]. *)
Variable astVisibilityToVisibility : string → ContractFunctionVisibility.
Variable isContractType : Param → bool.
Variable isEnumType : Param → bool.
Variable toCanonicalAbiType : string → string.
(** [abi.methodID(name, types)] *)
Variable methodID : string → list string → Buffer.
(** [Buffer.from(s, "hex")] *)
Variable Buffer_from_hex : string → Buffer.

(** One turn of the loop over [functionDefinition.parameters.parameters]:
    what it pushes on [paramTypes]; reading [nodeType] of a missing
    [typeName] throws. *)
Definition paramTypes_push (paramTypes : list string) (param : Param)
  : option (list string) :=
  if isContractType param then Some (paramTypes ++ ["address"])
  else if isEnumType param then Some (paramTypes ++ ["uint8"])
  else
    typename ← p_typeName param;
    if bool_decide (tn_nodeType typename = "ArrayTypeName")
       || bool_decide (tn_nodeType typename = "FunctionTypeName")
       || bool_decide (tn_nodeType typename = "Mapping")
    then Some (paramTypes ++ [tn_typeString typename])
    else Some (paramTypes ++ [toCanonicalAbiType (tn_name typename)]).

Definition astFunctionDefinitionToSelector
  (functionDefinition : FunctionDefinition) : option Buffer :=
  match fd_functionSelector functionDefinition with
  | Some functionSelector => Some (Buffer_from_hex functionSelector)
  | None =>
      paramTypes ← forM paramTypes_push [] (fd_parameters functionDefinition);
      Some (methodID (fd_name functionDefinition) paramTypes)
  end.

(** The callback of [functionAbis?.find(...)]. *)
Definition matchesSelector (selector : option Buffer) (functionAbi : AbiItem)
  : bool :=
  match abi_name functionAbi with
  | None => false
  | Some name =>
      let functionAbiSelector :=
        methodID name
          (default [] (fmap (M:=list) in_type <$> abi_inputs functionAbi)) in
      match selector with
      | None => false
      | Some selector => bool_decide (selector = functionAbiSelector)
      end
  end.

(** Lines 364-413 of [processFunctionDefinitionAstNode]: the
    ContractFunction it constructs for an implemented function. *)
Definition newContractFunction (functionDefinitionNode : FunctionDefinition)
  (fileIdToSourceFile : gmap Z fileRef) (contract : option contractRef)
  (functionAbis : option (list AbiItem)) : option ContractFunction :=
  let functionType :=
    functionDefinitionKindToFunctionType (fd_kind functionDefinitionNode) in
  let functionLocation :=
    astSrcToSourceLocation (fd_src functionDefinitionNode)
      fileIdToSourceFile in
  let visibility :=
    astVisibilityToVisibility (fd_visibility functionDefinitionNode) in
  selector ←
    (if bool_decide (functionType = FUNCTION)
        && (bool_decide (visibility = EXTERNAL)
            || bool_decide (visibility = PUBLIC))
     then Some <$> astFunctionDefinitionToSelector functionDefinitionNode
     else Some None);
  let matchingFunctionAbi :=
    functionAbis ≫= List.find (matchesSelector selector) in
  let paramTypes :=
    fmap (M:=list) in_type <$> (matchingFunctionAbi ≫= abi_inputs) in
  Some
    (mkContractFunction (fd_name functionDefinitionNode) functionType
       functionLocation contract visibility
       (bool_decide (fd_stateMutability functionDefinitionNode = "payable"))
       selector paramTypes).

Definition processFunctionDefinitionAstNode
  (functionDefinitionNode : FunctionDefinition)
  (contract : option contractRef) (file : fileRef)
  (functionAbis : option (list AbiItem)) (st : State) : option State :=
  if decide (fd_implemented functionDefinitionNode = Some false) then Some st
  else
    contractFunc ←
      newContractFunction functionDefinitionNode (fileIdToSourceFile st)
        contract functionAbis;
    let st :=
      match contract with
      | Some contract => addLocalFunction contract contractFunc st
      | None => st
      end in
    Some (addFunction file contractFunc st).

(** Modelled from the spec: [processModifierDefinitionAstNode] and
    [processVariableDeclarationAstNode] come from the library; nested
    modifier and public state variable getter nodes are modeled analogously
    to function definitions.  The library decides whether a node yields an
    entity and which one; the entity joins the contract's local functions
    and the file's functions. *)
Variable modifierFunction :
  MemberNode → option SourceLocation → contractRef → option ContractFunction.
Variable getterFunction :
  MemberNode → option SourceLocation → contractRef → option AbiItem →
  option ContractFunction.

Definition addMemberFunction (contract : contractRef) (file : fileRef)
  (func : option ContractFunction) (st : State) : State :=
  match func with
  | Some func => addFunction file func (addLocalFunction contract func st)
  | None => st
  end.

Definition processModifierDefinitionAstNode (node : MemberNode)
  (contract : contractRef) (file : fileRef) (st : State) : State :=
  addMemberFunction contract file
    (modifierFunction node
       (astSrcToSourceLocation (mn_src node) (fileIdToSourceFile st))
       contract) st.

Definition processVariableDeclarationAstNode (node : MemberNode)
  (contract : contractRef) (file : fileRef) (getterAbi : option AbiItem)
  (st : State) : State :=
  addMemberFunction contract file
    (getterFunction node
       (astSrcToSourceLocation (mn_src node) (fileIdToSourceFile st))
       contract getterAbi) st.

(** The body of the loop over [contractNode.nodes]. *)
Definition processContractMember (file : fileRef) (contract : contractRef)
  (contractAbi : option ContractAbi) (st : State) (node : ContractMember)
  : option State :=
  match node with
  | MFunctionDefinition node =>
      let functionAbis :=
        List.filter
          (λ abiEntry, bool_decide (abi_name abiEntry = Some (fd_name node)))
          <$> contractAbi in
      processFunctionDefinitionAstNode node (Some contract) file functionAbis
        st
  | MModifierDefinition node =>
      Some (processModifierDefinitionAstNode node contract file st)
  | MVariableDeclaration node =>
      let getterAbi :=
        contractAbi ≫=
          List.find
            (λ abiEntry,
               bool_decide (abi_name abiEntry = Some (mn_name node))) in
      Some (processVariableDeclarationAstNode node contract file getterAbi st)
  | MOther _ => Some st
  end.

(** [new Contract(name, type, location)] at the place [contract], then the
    two [set]s of [processContractAstNode]. *)
Definition registerContract (contract : contractRef)
  (contractNode : ContractDefinition) (contractType : ContractType)
  (st : State) : State :=
  let contractLocation :=
    astSrcToSourceLocation (cd_src contractNode) (fileIdToSourceFile st) in
  mkState (files st)
    (<[contract :=
         mkContract (cd_name contractNode) contractType contractLocation
           [] [] []]> (contracts st))
    (fileIdToSourceFile st)
    (JsMap.set (contractIdToContract st) (cd_id contractNode) contract)
    (<[cd_id contractNode := cd_linearizedBaseContracts contractNode]>
       (contractIdToLinearizedBaseContractIds st))
    (diagnostics st).

(** [contract] names the object that [new Contract] creates here. *)
Definition processContractAstNode (file : fileRef) (contract : contractRef)
  (contractNode : ContractDefinition) (contractType : ContractType)
  (contractAbi : option ContractAbi) (st : State) : option State :=
  forM (processContractMember file contract contractAbi)
    (registerContract contract contractNode contractType st)
    (cd_nodes contractNode).

(** The body of the loop over [source.ast.nodes]; [i] is the position of
    [node] in the list. *)
Definition processSourceNode (file : fileRef)
  (contractToAbi : option (gmap string ContractAbi)) (i : nat)
  (node : SourceNode) (st : State) : option State :=
  match node with
  | NContractDefinition node =>
      match contractKindToContractType (cd_contractKind node) with
      | None => Some st
      | Some contractType =>
          let contractAbi := contractToAbi ≫= (.!! cd_name node) in
          processContractAstNode file (file, i) node contractType contractAbi
            st
      end
  | NFunctionDefinition node =>
      processFunctionDefinitionAstNode node None file None st
  | NOther _ => Some st
  end.

Fixpoint processSourceNodes (file : fileRef)
  (contractToAbi : option (gmap string ContractAbi)) (i : nat)
  (nodes : list SourceNode) (st : State) : option State :=
  match nodes with
  | [] => Some st
  | node :: nodes =>
      st ← processSourceNode file contractToAbi i node st;
      processSourceNodes file contractToAbi (S i) nodes st
  end.

(** A [Map] filled by [set] over the entries of an object. *)
Definition mapOfEntries {V W} (f : V → W) (entries : list (string * V))
  : gmap string W :=
  foldl (λ m e, <[e.1 := f e.2]> m) ∅ entries.

(** [new SourceFile(sourceName, content)], then
    [fileIdToSourceFile.set(source.id, file)]. *)
Definition registerSourceFile (sourceName content : string) (id : Z)
  (st : State) : State :=
  mkState (<[sourceName := mkSourceFile sourceName content []]> (files st))
    (contracts st)
    (<[id := sourceName]> (fileIdToSourceFile st))
    (contractIdToContract st) (contractIdToLinearizedBaseContractIds st)
    (diagnostics st).

(** The body of the loop over [Object.entries(compilerOutput.sources)]. *)
Definition processSource
  (sourceNameToContractToAbi : gmap string (gmap string ContractAbi))
  (compilerInput : CompilerInput) (st : State)
  (entry : string * CompilerOutputSource) : option State :=
  let '(sourceName, source) := entry in
  let contractToAbi := sourceNameToContractToAbi !! sourceName in
  content ← JsObject.get compilerInput sourceName;
  processSourceNodes sourceName contractToAbi 0%nat (so_nodes source)
    (registerSourceFile sourceName content (so_id source) st).

(** The inner loop of [applyContractsInheritance]. *)
Definition applyInheritanceIds (contract : contractRef) (st : State)
  (inheritanceIds : list Z) : State :=
  foldl
    (λ st baseId,
       match JsMap.get (contractIdToContract st) baseId with
       | None => st
       | Some baseContract =>
           addNextLinearizedBaseContract contract baseContract st
       end)
    st inheritanceIds.

(** The body of the outer loop; the entry is [[cid, contract]]. *)
Definition applyInheritanceOf (st : State) (entry : Z * contractRef)
  : option State :=
  inheritanceIds ← contractIdToLinearizedBaseContractIds st !! entry.1;
  Some (applyInheritanceIds entry.2 st inheritanceIds).

Definition applyContractsInheritance (st : State) : option State :=
  forM applyInheritanceOf st (JsMap.entries (contractIdToContract st)).

Definition createSourcesModelFromAst (compilerOutput : CompilerOutput)
  (compilerInput : CompilerInput) (st : State) : option State :=
  let sourceNameToContractToAbi :=
    mapOfEntries (mapOfEntries co_abi) (out_contracts compilerOutput) in
  st ←
    forM (processSource sourceNameToContractToAbi compilerInput) st
      (out_sources compilerOutput);
  applyContractsInheritance st.

(** [CustomError.fromABI] of model.ts, [getLibraryAddressPositions] and
    [normalizeCompilerOutputBytecode] of library-utils.ts and
    [decodeInstructions] of source-maps.ts are outside this module. *)
Variable CustomError_fromABI :
  option string → option (list AbiInput) → option CustomError.
Variable getLibraryAddressPositions : CompilerOutputBytecode → list Z.
Variable normalizeCompilerOutputBytecode : string → list Z → Buffer.
Variable decodeInstructions :
  Buffer → string → gmap Z fileRef → bool → list Instruction.
(** [correctSelectors(bytecodes, compilerOutput)] of the library works on
    the contracts the bytecodes refer to. *)
Variable correctSelectors :
  list Bytecode → CompilerOutput → gmap (string * nat) Contract →
  gmap (string * nat) Contract.

Definition decodeEvmBytecode (contract : contractRef) (solcVersion : string)
  (isDeployment : bool) (compilerBytecode : CompilerOutputBytecode)
  (fileIdToSourceFile : gmap Z fileRef) : Bytecode :=
  let libraryAddressPositions :=
    getLibraryAddressPositions compilerBytecode in
  let immutableReferences :=
    match bc_immutableReferences compilerBytecode with
    | Some refs =>
        foldl (λ previousValue currentValue, previousValue ++ currentValue)
          [] (refs.*2)
    | None => []
    end in
  let normalizedCode :=
    normalizeCompilerOutputBytecode (bc_object compilerBytecode)
      libraryAddressPositions in
  let instructions :=
    decodeInstructions normalizedCode (bc_sourceMap compilerBytecode)
      fileIdToSourceFile isDeployment in
  mkBytecode contract isDeployment normalizedCode instructions
    libraryAddressPositions immutableReferences solcVersion.

(** The string a template literal gives for [abiItem.name]. *)
Definition nameText (name : option string) : string :=
  default "undefined" name.

(** The message of [log] for an error entry that cannot be built. *)
Definition customErrorDiagnostic (abiItem : AbiItem) : string :=
  String.append "Couldn't build CustomError for error '"
    (String.append (nameText (abi_name abiItem)) "'").

(** The body of the loop over [contractAbiOutput]. *)
Definition processAbiItem (contract : contractRef) (st : State)
  (abiItem : AbiItem) : State :=
  if decide (abi_type abiItem = "error") then
    match CustomError_fromABI (abi_name abiItem) (abi_inputs abiItem) with
    | Some customError => addCustomError contract customError st
    | None => log (customErrorDiagnostic abiItem) st
    end
  else st.

(** [compilerOutput.contracts[contractFile][contract.name]] for the
    contract [contract] refers to; reading through a missing location or a
    missing entry throws. *)
Definition contractOutput (compilerOutput : CompilerOutput)
  (contract : contractRef) (st : State) : option CompilerOutputContract :=
  c ← contracts st !! contract;
  location ← c_location c;
  file ← files st !! loc_file location;
  let contractFile := sf_sourceName file in
  fileContracts ← JsObject.get (out_contracts compilerOutput) contractFile;
  JsObject.get fileContracts (c_name c).

(** The body of the loop over [contractIdToContract.values()]; the state
    of the loop is the array [bytecodes] and the store. *)
Definition decodeContract (solcVersion : string)
  (compilerOutput : CompilerOutput) (acc : list Bytecode * State)
  (contract : contractRef) : option (list Bytecode * State) :=
  let '(bytecodes, st) := acc in
  output ← contractOutput compilerOutput contract st;
  let st := foldl (processAbiItem contract) st (co_abi output) in
  if decide (bc_object (co_bytecode output) = "") then Some (bytecodes, st)
  else
    let deploymentBytecode :=
      decodeEvmBytecode contract solcVersion true (co_bytecode output)
        (fileIdToSourceFile st) in
    let runtimeBytecode :=
      decodeEvmBytecode contract solcVersion false
        (co_deployedBytecode output) (fileIdToSourceFile st) in
    Some ((bytecodes ++ [deploymentBytecode]) ++ [runtimeBytecode], st).

Definition decodeBytecodes (solcVersion : string)
  (compilerOutput : CompilerOutput) (st : State)
  : option (list Bytecode * State) :=
  forM (decodeContract solcVersion compilerOutput) ([], st)
    (JsMap.values (contractIdToContract st)).

Definition createModelsAndDecodeBytecodes (solcVersion : string)
  (compilerInput : CompilerInput) (compilerOutput : CompilerOutput)
  : option (list Bytecode * State) :=
  st ← createSourcesModelFromAst compilerOutput compilerInput emptyState;
  '(bytecodes, st) ← decodeBytecodes solcVersion compilerOutput st;
  Some
    (bytecodes,
     set_contracts (correctSelectors bytecodes compilerOutput (contracts st))
       st).

(** ** The first pass in closed form *)

Definition SourceFile_addFunctions (funcs : list ContractFunction)
  (f : SourceFile) : SourceFile :=
  mkSourceFile (sf_sourceName f) (sf_content f) (sf_functions f ++ funcs).

Definition Contract_addLocalFunctions (funcs : list ContractFunction)
  (c : Contract) : Contract :=
  mkContract (c_name c) (c_type c) (c_location c)
    (c_localFunctions c ++ funcs) (c_linearizedBaseContracts c)
    (c_customErrors c).

Definition Contract_addLinearizedBaseContracts (bases : list contractRef)
  (c : Contract) : Contract :=
  mkContract (c_name c) (c_type c) (c_location c) (c_localFunctions c)
    (c_linearizedBaseContracts c ++ bases) (c_customErrors c).

(** The functions that one member of a contract definition yields. *)
Definition memberFunction (fileIdToSourceFile : gmap Z fileRef)
  (contract : contractRef) (contractAbi : option ContractAbi)
  (node : ContractMember) : option (list ContractFunction) :=
  match node with
  | MFunctionDefinition node =>
      if decide (fd_implemented node = Some false) then Some []
      else
        func ←
          newContractFunction node fileIdToSourceFile (Some contract)
            (List.filter
               (λ abiEntry,
                  bool_decide (abi_name abiEntry = Some (fd_name node)))
               <$> contractAbi);
        Some [func]
  | MModifierDefinition node =>
      Some
        (option_list
           (modifierFunction node
              (astSrcToSourceLocation (mn_src node) fileIdToSourceFile)
              contract))
  | MVariableDeclaration node =>
      Some
        (option_list
           (getterFunction node
              (astSrcToSourceLocation (mn_src node) fileIdToSourceFile)
              contract
              (contractAbi ≫=
                 List.find
                   (λ abiEntry,
                      bool_decide (abi_name abiEntry = Some (mn_name node))))))
  | MOther _ => Some []
  end.

Definition memberFunctions (fileIdToSourceFile : gmap Z fileRef)
  (contract : contractRef) (contractAbi : option ContractAbi)
  (members : list ContractMember) : option (list ContractFunction) :=
  @concat _ <$> mapM (memberFunction fileIdToSourceFile contract contractAbi)
                  members.

(** What a node of a source unit adds: functions to the file and, for a
    modeled contract definition, a contract with its id and the ids of its
    linearized base contracts. *)
Record NodeEffect : Type := mkNodeEffect {
  ne_functions : list ContractFunction;
  ne_contract : option (Z * list Z * Contract)
}.

Definition nodeEffect (fileIdToSourceFile : gmap Z fileRef)
  (contractToAbi : option (gmap string ContractAbi)) (file : fileRef)
  (i : nat) (node : SourceNode) : option NodeEffect :=
  match node with
  | NContractDefinition node =>
      match contractKindToContractType (cd_contractKind node) with
      | None => Some (mkNodeEffect [] None)
      | Some contractType =>
          funcs ←
            memberFunctions fileIdToSourceFile (file, i)
              (contractToAbi ≫= (.!! cd_name node)) (cd_nodes node);
          Some
            (mkNodeEffect funcs
               (Some
                  (cd_id node, cd_linearizedBaseContracts node,
                   mkContract (cd_name node) contractType
                     (astSrcToSourceLocation (cd_src node)
                        fileIdToSourceFile)
                     funcs [] [])))
      end
  | NFunctionDefinition node =>
      if decide (fd_implemented node = Some false)
      then Some (mkNodeEffect [] None)
      else
        func ← newContractFunction node fileIdToSourceFile None None;
        Some (mkNodeEffect [func] None)
  | NOther _ => Some (mkNodeEffect [] None)
  end.

Definition applyNodeEffect (file : fileRef) (i : nat) (effect : NodeEffect)
  (st : State) : State :=
  mkState
    (alter (SourceFile_addFunctions (ne_functions effect)) file (files st))
    match ne_contract effect with
    | Some (_, _, c) => <[(file, i) := c]> (contracts st)
    | None => contracts st
    end
    (fileIdToSourceFile st)
    match ne_contract effect with
    | Some (id, _, _) => JsMap.set (contractIdToContract st) id (file, i)
    | None => contractIdToContract st
    end
    match ne_contract effect with
    | Some (id, ids, _) =>
        <[id := ids]> (contractIdToLinearizedBaseContractIds st)
    | None => contractIdToLinearizedBaseContractIds st
    end
    (diagnostics st).

Fixpoint nodeEffects (fileIdToSourceFile : gmap Z fileRef)
  (contractToAbi : option (gmap string ContractAbi)) (file : fileRef)
  (i : nat) (nodes : list SourceNode) : option (list NodeEffect) :=
  match nodes with
  | [] => Some []
  | node :: nodes =>
      effect ← nodeEffect fileIdToSourceFile contractToAbi file i node;
      effects ← nodeEffects fileIdToSourceFile contractToAbi file (S i) nodes;
      Some (effect :: effects)
  end.

Fixpoint applyNodeEffects (file : fileRef) (i : nat)
  (effects : list NodeEffect) (st : State) : State :=
  match effects with
  | [] => st
  | effect :: effects =>
      applyNodeEffects file (S i) effects (applyNodeEffect file i effect st)
  end.

(** [funcs] added to a file and to a contract. *)
Definition addMemberFunctions (file : fileRef) (contract : contractRef)
  (funcs : list ContractFunction) (st : State) : State :=
  mkState (alter (SourceFile_addFunctions funcs) file (files st))
    (alter (Contract_addLocalFunctions funcs) contract (contracts st))
    (fileIdToSourceFile st) (contractIdToContract st)
    (contractIdToLinearizedBaseContractIds st) (diagnostics st).

Definition addFileFunctions (file : fileRef) (funcs : list ContractFunction)
  (st : State) : State :=
  set_files (alter (SourceFile_addFunctions funcs) file (files st)) st.

(** The contracts of a list of node effects, each with the position of
    its node. *)
Fixpoint registrations (i : nat) (effects : list NodeEffect)
  : list (nat * (Z * list Z * Contract)) :=
  match effects with
  | [] => []
  | effect :: effects =>
      match ne_contract effect with
      | Some c => [(i, c)]
      | None => []
      end ++ registrations (S i) effects
  end.

(** A contract enters the store and the two maps. *)
Definition register (file : fileRef) (st : State)
  (registration : nat * (Z * list Z * Contract)) : State :=
  mkState (files st)
    (<[(file, registration.1) := registration.2.2]> (contracts st))
    (fileIdToSourceFile st)
    (JsMap.set (contractIdToContract st) registration.2.1.1
       (file, registration.1))
    (<[registration.2.1.1 := registration.2.1.2]>
       (contractIdToLinearizedBaseContractIds st))
    (diagnostics st).

(** All the functions of a list of node effects. *)
Definition effectFunctions (effects : list NodeEffect)
  : list ContractFunction :=
  concat (ne_functions <$> effects).

(** A source file enters the store with all its functions, then its
    contracts are registered. *)
Definition applySourceEffects (sourceName content : string) (id : Z)
  (effects : list NodeEffect) (st : State) : State :=
  foldl (register sourceName)
    (mkState
       (<[sourceName :=
            mkSourceFile sourceName content (effectFunctions effects)]>
          (files st))
       (contracts st) (<[id := sourceName]> (fileIdToSourceFile st))
       (contractIdToContract st) (contractIdToLinearizedBaseContractIds st)
       (diagnostics st))
    (registrations 0 effects).

(** The modeled contract definition at a place of the sources. *)
Definition siteNode (sources : list (string * CompilerOutputSource))
  (contract : contractRef) : option ContractDefinition :=
  source ← JsObject.get sources contract.1;
  node ← so_nodes source !! contract.2;
  match node with
  | NContractDefinition node =>
      match contractKindToContractType (cd_contractKind node) with
      | Some _ => Some node
      | None => None
      end
  | _ => None
  end.

(** The contract map after the first pass: ids and contracts occur once,
    and an id leads to the contract created for a definition with this id,
    which has its base contract ids recorded and no ancestor yet. *)
Definition registryInv (sources : list (string * CompilerOutputSource))
  (st : State) : Prop :=
  NoDup (contractIdToContract st).*1
  ∧ NoDup (contractIdToContract st).*2
  ∧ ∀ id contract,
      (id, contract) ∈ contractIdToContract st →
      ∃ node c,
        siteNode sources contract = Some node
        ∧ cd_id node = id
        ∧ contractIdToLinearizedBaseContractIds st !! id
          = Some (cd_linearizedBaseContracts node)
        ∧ contracts st !! contract = Some c
        ∧ c_linearizedBaseContracts c = [].

(** The contracts in the store were created for the sources [done]. *)
Definition storeOf (done : list string) (st : State) : Prop :=
  ∀ contract, is_Some (contracts st !! contract) → contract.1 ∈ done.

(** A source has been through the first pass: its file is in the store
    with the functions of its nodes, and so are the contracts of its
    contract definitions. *)
Definition sourceModeled
  (sourceNameToContractToAbi : gmap string (gmap string ContractAbi))
  (compilerInput : CompilerInput) (st : State)
  (entry : string * CompilerOutputSource) : Prop :=
  ∃ content fm effects,
    JsObject.get compilerInput entry.1 = Some content
    ∧ fm !! so_id entry.2 = Some entry.1
    ∧ nodeEffects fm (sourceNameToContractToAbi !! entry.1) entry.1 0
        (so_nodes entry.2) = Some effects
    ∧ files st !! entry.1
      = Some (mkSourceFile entry.1 content (effectFunctions effects))
    ∧ ∀ j registration,
        (j, registration) ∈ registrations 0 effects →
        contracts st !! (entry.1, j) = Some registration.2.

(** No contract of the store has an ancestor yet. *)
Definition noAncestors (st : State) : Prop :=
  ∀ contract c,
    contracts st !! contract = Some c → c_linearizedBaseContracts c = [].

(** The functions that the node at position [i] of a source contributes
    to the function list of its file: the function of an implemented
    function definition at file scope, which has no owning contract, and
    the local functions of a modeled contract definition, among them a
    function owned by the contract for each implemented function
    definition nested in it. *)
Definition fileChunk (st : State) (file : fileRef) (i : nat)
  (node : SourceNode) (chunk : list ContractFunction) : Prop :=
  match node with
  | NFunctionDefinition node =>
      if decide (fd_implemented node = Some false) then chunk = []
      else
        ∃ func,
          chunk = [func] ∧ cf_name func = fd_name node
          ∧ cf_contract func = None
  | NContractDefinition node =>
      match contractKindToContractType (cd_contractKind node) with
      | None => chunk = []
      | Some _ =>
          ∃ c,
            contracts st !! (file, i) = Some c
            ∧ chunk = c_localFunctions c
            ∧ ∀ member,
                MFunctionDefinition member ∈ cd_nodes node →
                fd_implemented member ≠ Some false →
                ∃ func,
                  func ∈ chunk ∧ cf_name func = fd_name member
                  ∧ cf_contract func = Some (file, i)
      end
  | NOther _ => chunk = []
  end.

(** ** What the specification says, in its own words *)

(** The canonical type of a parameter: "address" for a contract-typed
    parameter, "uint8" for an enum-typed one, the full declared type
    string for an array, function type or mapping, and the canonical ABI
    form of the type name for the rest; the cases are tried in this
    order. *)
Inductive canonicalParamType : Param → string → Prop :=
  | canonical_contract param :
      isContractType param = true →
      canonicalParamType param "address"
  | canonical_enum param :
      isContractType param = false →
      isEnumType param = true →
      canonicalParamType param "uint8"
  | canonical_structured param typename :
      isContractType param = false →
      isEnumType param = false →
      p_typeName param = Some typename →
      tn_nodeType typename = "ArrayTypeName"
      ∨ tn_nodeType typename = "FunctionTypeName"
      ∨ tn_nodeType typename = "Mapping" →
      canonicalParamType param (tn_typeString typename)
  | canonical_other param typename :
      isContractType param = false →
      isEnumType param = false →
      p_typeName param = Some typename →
      tn_nodeType typename ≠ "ArrayTypeName" →
      tn_nodeType typename ≠ "FunctionTypeName" →
      tn_nodeType typename ≠ "Mapping" →
      canonicalParamType param (toCanonicalAbiType (tn_name typename)).

(** The declared input types of an ABI entry. *)
Definition declaredTypes (entry : AbiItem) : option (list string) :=
  fmap (M:=list) in_type <$> abi_inputs entry.

(** An ABI entry of the function's name whose selector, recomputed from
    its name and declared input types, is [selector]. *)
Definition abiEntryMatches (name : string) (selector : Buffer)
  (entry : AbiItem) : Prop :=
  abi_name entry = Some name
  ∧ methodID name (default [] (declaredTypes entry)) = selector.

(** [entry] is the first entry of [contractAbi] that matches. *)
Definition selectedAbiEntry (contractAbi : ContractAbi) (name : string)
  (selector : Buffer) (entry : AbiItem) : Prop :=
  ∃ before after,
    contractAbi = before ++ entry :: after
    ∧ abiEntryMatches name selector entry
    ∧ Forall (λ e, ¬ abiEntryMatches name selector e) before.

(** The custom errors that the "error" entries of an ABI build, in the
    order of the ABI. *)
Definition abiCustomErrors (contractAbi : ContractAbi) : list CustomError :=
  omap
    (λ entry,
       if decide (abi_type entry = "error")
       then CustomError_fromABI (abi_name entry) (abi_inputs entry)
       else None)
    contractAbi.

Definition Contract_addCustomErrors (errors : list CustomError)
  (c : Contract) : Contract :=
  mkContract (c_name c) (c_type c) (c_location c) (c_localFunctions c)
    (c_linearizedBaseContracts c) (c_customErrors c ++ errors).

(** The same files, contracts and maps; the diagnostics may differ. *)
Definition sameModel (st st' : State) : Prop :=
  files st = files st' ∧ contracts st = contracts st'
  ∧ fileIdToSourceFile st = fileIdToSourceFile st'
  ∧ contractIdToContract st = contractIdToContract st'
  ∧ contractIdToLinearizedBaseContractIds st
    = contractIdToLinearizedBaseContractIds st'.

(** The files and maps are those of [st], and every contract has kept its
    name and location. *)
Definition keepsIdentity (st st' : State) : Prop :=
  files st' = files st
  ∧ fileIdToSourceFile st' = fileIdToSourceFile st
  ∧ contractIdToContract st' = contractIdToContract st
  ∧ ∀ r, (λ c, (c_name c, c_location c)) <$> contracts st' !! r
         = (λ c, (c_name c, c_location c)) <$> contracts st !! r.

(** An object with the value at key [k] replaced by its image. *)
Definition mapEntry {V} (k : string) (f : V → V) (o : list (string * V))
  : list (string * V) :=
  (λ e, (e.1, if decide (e.1 = k) then f e.2 else e.2)) <$> o.

Definition dropAbiEntry (i : nat) (c : CompilerOutputContract)
  : CompilerOutputContract :=
  mkCompilerOutputContract (delete i (co_abi c)) (co_bytecode c)
    (co_deployedBytecode c).

(** The compiler output without the [i]-th ABI entry of the contract
    [name] of [file]. *)
Definition withoutAbiEntry (compilerOutput : CompilerOutput)
  (file name : string) (i : nat) : CompilerOutput :=
  mkCompilerOutput (out_sources compilerOutput)
    (mapEntry file (mapEntry name (dropAbiEntry i))
       (out_contracts compilerOutput)).

(** The Bytecode entities of one contract: none when the bytecode object
    is the empty string, else the deployment one, decoded from [bytecode],
    followed by the runtime one, decoded from [deployedBytecode]. *)
Definition modelsContractBytecode (solcVersion : string)
  (fileIdToSourceFile : gmap Z fileRef) (contract : contractRef)
  (output : CompilerOutputContract) (chunk : list Bytecode) : Prop :=
  if decide (bc_object (co_bytecode output) = "") then chunk = []
  else
    ∃ deployment runtime,
      chunk = [deployment; runtime]
      ∧ deployment
        = decodeEvmBytecode contract solcVersion true (co_bytecode output)
            fileIdToSourceFile
      ∧ runtime
        = decodeEvmBytecode contract solcVersion false
            (co_deployedBytecode output) fileIdToSourceFile
      ∧ b_isDeployment deployment = true ∧ b_isDeployment runtime = false
      ∧ b_contract deployment = contract ∧ b_contract runtime = contract.

(** The same model, and the diagnostics of [st'] are among those of
    [st], in order. *)
Definition sameModelFewerDiagnostics (st st' : State) : Prop :=
  sameModel st st' ∧ sublist (diagnostics st') (diagnostics st).

(** ** Compiler outputs that differ by the enumeration order *)







(** The ids of the modeled contract definitions of the sources. *)
Definition modeledContractId (node : SourceNode) : option Z :=
  match node with
  | NContractDefinition node =>
      match contractKindToContractType (cd_contractKind node) with
      | Some _ => Some (cd_id node)
      | None => None
      end
  | _ => None
  end.

Definition contractIds (sources : list (string * CompilerOutputSource))
  : list Z :=
  concat ((λ entry, omap modeledContractId (so_nodes entry.2)) <$> sources).





Definition insertAll `{Countable K} {V} (m : gmap K V) (l : list (K * V))
  : gmap K V :=
  foldl (λ m e, <[e.1 := e.2]> m) m l.

Definition setAll {V} (m : JsMap.t V) (l : list (Z * V)) : JsMap.t V :=
  foldl (λ m e, JsMap.set m e.1 e.2) m l.





(** The Bytecode entities of a contract, as the pass computes them. *)
Definition contractChunk (solcVersion : string)
  (compilerOutput : CompilerOutput) (st : State) (contract : contractRef)
  : list Bytecode :=
  match contractOutput compilerOutput contract st with
  | Some output =>
      if decide (bc_object (co_bytecode output) = "") then []
      else
        [decodeEvmBytecode contract solcVersion true (co_bytecode output)
           (fileIdToSourceFile st);
         decodeEvmBytecode contract solcVersion false
           (co_deployedBytecode output) (fileIdToSourceFile st)]
  | None => []
  end.



(** ** What the passes change and log *)

(** [st'] is [st] but for custom errors added at the end of the lists of
    contracts and messages added to the log. *)
Definition addsCustomErrors (st st' : State) : Prop :=
  files st' = files st
  ∧ fileIdToSourceFile st' = fileIdToSourceFile st
  ∧ contractIdToContract st' = contractIdToContract st
  ∧ contractIdToLinearizedBaseContractIds st'
    = contractIdToLinearizedBaseContractIds st
  ∧ diagnostics st `prefix_of` diagnostics st'
  ∧ ∀ contract,
      option_Forall2
        (λ c c', ∃ errors, c' = Contract_addCustomErrors errors c)
        (contracts st !! contract) (contracts st' !! contract).

(** The messages that the "error" entries of an ABI leave in the log: one
    for each entry from which no custom error can be built, in the order
    of the ABI. *)
Definition abiDiagnostics (contractAbi : ContractAbi) : list string :=
  omap
    (λ entry,
       if decide (abi_type entry = "error") then
         match CustomError_fromABI (abi_name entry) (abi_inputs entry) with
         | Some _ => None
         | None => Some (customErrorDiagnostic entry)
         end
       else None)
    contractAbi.

(** ** What the first pass goes through *)





(** The entries of the contract map that the nodes of a source give, from
    position [i] on: one for each contract definition of kind contract or
    library, with the place of the definition. *)
Fixpoint nodeEntries (file : fileRef) (i : nat) (nodes : list SourceNode)
  : list (Z * contractRef) :=
  match nodes with
  | [] => []
  | node :: nodes =>
      match modeledContractId node with
      | Some id => [(id, (file, i))]
      | None => []
      end ++ nodeEntries file (S i) nodes
  end.

(** Source after source in the order of [compilerOutput.sources], and node
    after node. *)
Definition modeledEntries (sources : list (string * CompilerOutputSource))
  : list (Z * contractRef) :=
  concat ((λ entry, nodeEntries entry.1 0 (so_nodes entry.2)) <$> sources).

(** The contracts of the store stand for contract definitions of the
    sources, of which they have the name and the kind. *)
Definition storeModels (sources : list (string * CompilerOutputSource))
  (st : State) : Prop :=
  ∀ contract c,
    contracts st !! contract = Some c →
    ∃ node,
      siteNode sources contract = Some node
      ∧ c_name c = cd_name node
      ∧ contractKindToContractType (cd_contractKind node) = Some (c_type c)
      ∧ c_customErrors c = [].

(** ** Properties *)

(** *** Loops *)

Lemma forM_cons {S A} (body : S → A → option S) s x l :
  forM body s (x :: l)
  = match body s x with Some s' => forM body s' l | None => None end.
Proof. done. Qed.

Lemma forM_cons_inv {S A} (body : S → A → option S) s x l r :
  forM body s (x :: l) = Some r →
  ∃ s', body s x = Some s' ∧ forM body s' l = Some r.
Proof. simpl. destruct (body s x) as [s'|]; [eauto|done]. Qed.

Lemma forM_cons_Some {S A} (body : S → A → option S) s x l s' :
  body s x = Some s' → forM body s (x :: l) = forM body s' l.
Proof. simpl. by intros ->. Qed.

(** *** Function definitions *)


(** The selector that [newContractFunction] hands to the constructor. *)
Lemma newContractFunction_inv node fm contract abis func :
  newContractFunction node fm contract abis = Some func →
  cf_name func = fd_name node
  ∧ cf_type func = functionDefinitionKindToFunctionType (fd_kind node)
  ∧ cf_location func = astSrcToSourceLocation (fd_src node) fm
  ∧ cf_contract func = contract
  ∧ cf_visibility func = astVisibilityToVisibility (fd_visibility node)
  ∧ (if bool_decide (cf_type func = FUNCTION)
        && (bool_decide (cf_visibility func = EXTERNAL)
            || bool_decide (cf_visibility func = PUBLIC))
     then astFunctionDefinitionToSelector node = cf_selector func
          ∧ is_Some (cf_selector func)
     else cf_selector func = None)
  ∧ cf_paramTypes func
    = (abis ≫= List.find (matchesSelector (cf_selector func))) ≫= declaredTypes.
Proof.
  unfold newContractFunction. intros H.
  destruct (if bool_decide _ && _ then _ else _) as [selector|] eqn:E;
    [|done].
  simpl in H. injection H as <-. simpl.
  repeat split; [|by destruct (abis ≫= _)].
  destruct (bool_decide _ && _).
  - destruct (astFunctionDefinitionToSelector node); simplify_eq/=. eauto.
  - by simplify_eq.
Qed.

(** Processing an implemented node adds exactly the function of
    [newContractFunction]. *)
Lemma processFunctionDefinitionAstNode_inv node contract file abis st st' :
  processFunctionDefinitionAstNode node contract file abis st = Some st' →
  fd_implemented node ≠ Some false →
  ∃ func,
    newContractFunction node (fileIdToSourceFile st) contract abis
    = Some func
    ∧ st' = addFunction file func
              match contract with
              | Some contract => addLocalFunction contract func st
              | None => st
              end.
Proof.
  unfold processFunctionDefinitionAstNode. intros H Himpl.
  case_decide; [done|]. simplify_option_eq. eauto.
Qed.

(** C7: a function definition whose [implemented] flag is [false] is
    skipped: processing it returns at once, without an exception, and
    leaves the files, the contracts and the maps as they were, so no
    ContractFunction is produced for it. *)
Theorem unimplemented_function_skipped node contract file abis st :
  fd_implemented node = Some false →
  processFunctionDefinitionAstNode node contract file abis st = Some st.
Proof.
  intros H. unfold processFunctionDefinitionAstNode. by rewrite decide_True.
Qed.


Lemma paramTypes_push_spec paramTypes param paramTypes' :
  paramTypes_push paramTypes param = Some paramTypes' →
  ∃ type, paramTypes' = paramTypes ++ [type] ∧ canonicalParamType param type.
Proof.
  unfold paramTypes_push. intros H.
  destruct (isContractType param) eqn:Ec.
  { injection H as <-. eexists; split; [done|]. by constructor. }
  destruct (isEnumType param) eqn:Ee.
  { injection H as <-. eexists; split; [done|]. by constructor. }
  destruct (p_typeName param) as [typename|] eqn:Et; [|done]. simpl in H.
  destruct (_ || _) eqn:En; injection H as <-;
    (eexists; split; [done|]).
  - eapply canonical_structured; [done..|].
    apply orb_prop in En as [En|En]; [apply orb_prop in En as [En|En]|];
      apply bool_decide_eq_true in En; auto.
  - apply orb_false_iff in En as [En En3].
    apply orb_false_iff in En as [En1 En2].
    apply bool_decide_eq_false in En1, En2, En3.
    by eapply canonical_other.
Qed.

Lemma paramTypes_loop_spec params : ∀ paramTypes paramTypes',
  forM paramTypes_push paramTypes params = Some paramTypes' →
  ∃ types,
    paramTypes' = paramTypes ++ types
    ∧ Forall2 canonicalParamType params types.
Proof.
  induction params as [|param params IH]; intros paramTypes paramTypes' H.
  - injection H as <-. exists []. by rewrite app_nil_r.
  - simpl in H.
    destruct (paramTypes_push paramTypes param) as [acc|] eqn:E; [|done].
    apply paramTypes_push_spec in E as (type & -> & Hc).
    apply IH in H as (types & -> & Hall).
    exists (type :: types). split; [by rewrite <- app_assoc|].
    by constructor.
Qed.

(** The loop does not throw when every parameter that is neither
    contract-typed nor enum-typed has its [typeName]. *)
Lemma paramTypes_loop_total params : ∀ paramTypes,
  Forall (λ param, isContractType param = true ∨ isEnumType param = true
                   ∨ is_Some (p_typeName param)) params →
  is_Some (forM paramTypes_push paramTypes params).
Proof.
  induction params as [|param params IH]; intros paramTypes Hall; [by eexists|].
  apply Forall_cons in Hall as [Hp Hall]. simpl.
  assert (is_Some (paramTypes_push paramTypes param)) as [acc ->].
  { unfold paramTypes_push.
    destruct (isContractType param); [by eexists|].
    destruct (isEnumType param); [by eexists|].
    destruct Hp as [?|[?|[typename ->]]]; [done..|]. simpl.
    destruct (_ || _); by eexists. }
  by apply IH.
Qed.

Lemma astFunctionDefinitionToSelector_total node :
  is_Some (fd_functionSelector node)
  ∨ Forall (λ param, isContractType param = true ∨ isEnumType param = true
                     ∨ is_Some (p_typeName param)) (fd_parameters node) →
  is_Some (astFunctionDefinitionToSelector node).
Proof.
  unfold astFunctionDefinitionToSelector. intros [[hex ->]|Hall]; [by eexists|].
  destruct (fd_functionSelector node); [by eexists|].
  destruct (paramTypes_loop_total _ [] Hall) as [types ->]. by eexists.
Qed.

(** The canonical type of a parameter is unique. *)
Lemma canonicalParamType_functional param type1 type2 :
  canonicalParamType param type1 → canonicalParamType param type2 →
  type1 = type2.
Proof.
  intros H1 H2.
  destruct H1, H2; try congruence; simplify_eq; try done; intuition.
Qed.

(** C2: the selector of a function that receives one is the node's
    explicit [functionSelector], hex-decoded, when the node has it;
    otherwise it is the signature hash of the function's name and the
    canonical types of its parameters, in order: "address" for a
    contract-typed parameter, "uint8" for an enum-typed one, the full
    declared type string for an array, function type or mapping, and the
    canonical ABI form of the type name for the rest. *)
Theorem selector_explicit_or_canonical_hash node contract file abis st st' :
  processFunctionDefinitionAstNode node contract file abis st = Some st' →
  fd_implemented node ≠ Some false →
  ∃ func,
    newContractFunction node (fileIdToSourceFile st) contract abis
    = Some func
    ∧ st' = addFunction file func
              match contract with
              | Some contract => addLocalFunction contract func st
              | None => st
              end
    ∧ ∀ selector,
        cf_selector func = Some selector →
        match fd_functionSelector node with
        | Some hex => selector = Buffer_from_hex hex
        | None =>
            ∃ paramTypes,
              Forall2 canonicalParamType (fd_parameters node) paramTypes
              ∧ selector = methodID (fd_name node) paramTypes
        end.
Proof.
  intros H Himpl.
  destruct (processFunctionDefinitionAstNode_inv _ _ _ _ _ _ H Himpl)
    as (func & Hnew & ->).
  exists func. split; [done|]. split; [done|]. intros selector Hs.
  destruct (newContractFunction_inv _ _ _ _ _ Hnew)
    as (_ & _ & _ & _ & _ & Hsel & _).
  destruct (bool_decide _ && _); [|congruence].
  destruct Hsel as [Hsel _]. rewrite Hs in Hsel.
  unfold astFunctionDefinitionToSelector in Hsel.
  destruct (fd_functionSelector node) as [hex|]; [congruence|].
  destruct (forM paramTypes_push [] (fd_parameters node)) as [types|] eqn:E;
    [|done].
  apply paramTypes_loop_spec in E as (types' & -> & Hall).
  exists types'. split; [done|]. simpl in Hsel. congruence.
Qed.

(** *** Matching the ABI *)

Lemma matchesSelector_spec name selector entry :
  abi_name entry = Some name →
  matchesSelector (Some selector) entry = true
  ↔ abiEntryMatches name selector entry.
Proof.
  intros Hn. unfold matchesSelector, abiEntryMatches, declaredTypes.
  rewrite Hn, bool_decide_eq_true. split; [by intros ->|by intros [_ ->]].
Qed.

Lemma matchesSelector_None entry : matchesSelector None entry = false.
Proof. unfold matchesSelector. by destruct (abi_name entry). Qed.

(** [find] after [filter] by name picks the first matching entry. *)
Lemma find_filter_selected name selector (contractAbi : ContractAbi) :
  match
    List.find (matchesSelector (Some selector))
      (List.filter
         (λ abiEntry, bool_decide (abi_name abiEntry = Some name))
         contractAbi)
  with
  | Some entry => selectedAbiEntry contractAbi name selector entry
  | None => Forall (λ e, ¬ abiEntryMatches name selector e) contractAbi
  end.
Proof.
  induction contractAbi as [|e abi IH]; simpl; [constructor|].
  destruct (bool_decide (abi_name e = Some name)) eqn:En; simpl.
  - apply bool_decide_eq_true in En.
    destruct (matchesSelector (Some selector) e) eqn:Em.
    + exists [], abi. split; [done|]. split; [|constructor].
      by apply (matchesSelector_spec name).
    + assert (¬ abiEntryMatches name selector e) as Hne.
      { rewrite <- (matchesSelector_spec name) by done. by rewrite Em. }
      destruct (List.find _ _) as [entry|].
      * destruct IH as (before & after & -> & Hm & Hb).
        exists (e :: before), after. split; [done|]. split; [done|].
        by constructor.
      * by constructor.
  - apply bool_decide_eq_false in En.
    assert (¬ abiEntryMatches name selector e) as Hne by (by intros [? _]).
    destruct (List.find _ _) as [entry|].
    + destruct IH as (before & after & -> & Hm & Hb).
      exists (e :: before), after. split; [done|]. split; [done|].
      by constructor.
    + by constructor.
Qed.

(** C6: for a function definition of a contract, the ABI entry selected is
    the first entry of the contract's ABI that has the function's name and
    whose selector, recomputed from its name and declared input types,
    equals the function's selector; the function's parameter types are the
    declared types of that entry.  A function without selector, or without
    such an entry, has no parameter type list. *)
Theorem overload_matched_by_selector file contract contractAbi node st st' :
  processContractMember file contract contractAbi st
    (MFunctionDefinition node) = Some st' →
  fd_implemented node ≠ Some false →
  ∃ func,
    st' = addFunction file func (addLocalFunction contract func st)
    ∧ cf_name func = fd_name node
    ∧ match cf_selector func with
      | Some selector =>
          (∃ entry,
             selectedAbiEntry (default [] contractAbi) (fd_name node)
               selector entry
             ∧ cf_paramTypes func = declaredTypes entry)
          ∨ (Forall (λ e, ¬ abiEntryMatches (fd_name node) selector e)
               (default [] contractAbi)
             ∧ cf_paramTypes func = None)
      | None => cf_paramTypes func = None
      end.
Proof.
  simpl. intros H Himpl.
  destruct (processFunctionDefinitionAstNode_inv _ _ _ _ _ _ H Himpl)
    as (func & Hnew & ->).
  exists func. split; [done|].
  destruct (newContractFunction_inv _ _ _ _ _ Hnew)
    as (Hname & _ & _ & _ & _ & _ & Hp).
  split; [done|]. rewrite Hp. clear Hp Hnew H.
  destruct (cf_selector func) as [selector|].
  - destruct contractAbi as [abi|]; simpl.
    + pose proof (find_filter_selected (fd_name node) selector abi) as Hf.
      destruct (List.find _ _) as [entry|]; simpl; [left|right]; eauto.
    + right. split; [constructor|done].
  - destruct contractAbi as [abi|]; simpl; [|done].
    destruct (List.find _ _) as [entry|] eqn:E; [|done].
    apply List.find_some in E as [_ E]. by rewrite matchesSelector_None in E.
Qed.

(** *** The bytecode-decoding pass *)

Lemma keepsIdentity_refl st : keepsIdentity st st.
Proof. by repeat split. Qed.

Lemma keepsIdentity_trans st1 st2 st3 :
  keepsIdentity st1 st2 → keepsIdentity st2 st3 → keepsIdentity st1 st3.
Proof.
  intros (Ha1 & Hb1 & Hc1 & H1) (Ha2 & Hb2 & Hc2 & H2).
  split; [congruence|]. split; [congruence|]. split; [congruence|].
  intros r. by rewrite H2, H1.
Qed.

Lemma processAbiItem_keepsIdentity contract st abiItem :
  keepsIdentity st (processAbiItem contract st abiItem).
Proof.
  unfold processAbiItem. case_decide; [|apply keepsIdentity_refl].
  destruct (CustomError_fromABI _ _); [|repeat split].
  do 3 (split; [done|]). intros r. simpl. rewrite lookup_alter.
  case_decide; [subst r|done]. by destruct (contracts st !! contract).
Qed.

Lemma foldl_processAbiItem_keepsIdentity contract contractAbi : ∀ st,
  keepsIdentity st (foldl (processAbiItem contract) st contractAbi).
Proof.
  induction contractAbi as [|e abi IH]; intros st; simpl.
  - apply keepsIdentity_refl.
  - eapply keepsIdentity_trans; [apply processAbiItem_keepsIdentity|apply IH].
Qed.

Lemma contractOutput_keepsIdentity compilerOutput contract st st' :
  keepsIdentity st st' →
  contractOutput compilerOutput contract st'
  = contractOutput compilerOutput contract st.
Proof.
  intros (Hf & _ & _ & Hc). unfold contractOutput. specialize (Hc contract).
  rewrite Hf.
  destruct (contracts st' !! contract) as [c'|],
    (contracts st !! contract) as [c|]; simpl in Hc; try done.
  injection Hc as Hn Hl. simpl. by rewrite Hn, Hl.
Qed.

Lemma Contract_addCustomErrors_nil c : Contract_addCustomErrors [] c = c.
Proof. destruct c. unfold Contract_addCustomErrors. simpl. by rewrite app_nil_r. Qed.

Lemma Contract_addCustomErrors_cons e errors c :
  Contract_addCustomErrors errors (Contract_addCustomError e c)
  = Contract_addCustomErrors (e :: errors) c.
Proof.
  unfold Contract_addCustomErrors, Contract_addCustomError. simpl.
  by rewrite <- app_assoc.
Qed.

(** The loop over the ABI adds the buildable errors to [contract] and
    leaves the other contracts alone. *)
Lemma foldl_processAbiItem_contracts contract contractAbi : ∀ st r,
  contracts (foldl (processAbiItem contract) st contractAbi) !! r
  = if decide (r = contract)
    then Contract_addCustomErrors (abiCustomErrors contractAbi)
           <$> contracts st !! r
    else contracts st !! r.
Proof.
  induction contractAbi as [|e abi IH]; intros st r; simpl.
  - case_decide; [|done].
    destruct (contracts st !! r); simpl; [|done].
    by rewrite Contract_addCustomErrors_nil.
  - rewrite IH. unfold processAbiItem, abiCustomErrors. simpl.
    fold (abiCustomErrors abi).
    destruct (decide (abi_type e = "error")); [|done].
    destruct (CustomError_fromABI _ _) as [err|]; [|done]. simpl.
    rewrite lookup_alter. case_decide; [subst r|by rewrite decide_False].
    rewrite decide_True by done.
    destruct (contracts st !! contract); simpl; [|done].
    by rewrite Contract_addCustomErrors_cons.
Qed.

Lemma decodeContract_inv solcVersion compilerOutput bytecodes st contract
  bytecodes' st' :
  decodeContract solcVersion compilerOutput (bytecodes, st) contract
  = Some (bytecodes', st') →
  ∃ output chunk,
    contractOutput compilerOutput contract st = Some output
    ∧ st' = foldl (processAbiItem contract) st (co_abi output)
    ∧ bytecodes' = bytecodes ++ chunk
    ∧ modelsContractBytecode solcVersion (fileIdToSourceFile st) contract
        output chunk.
Proof.
  unfold decodeContract, modelsContractBytecode. intros H.
  destruct (contractOutput _ _ _) as [output|]; [|done]. simpl in H.
  pose proof (foldl_processAbiItem_keepsIdentity contract (co_abi output) st)
    as (_ & Hfm & _).
  rewrite Hfm in H. exists output.
  destruct (decide (bc_object (co_bytecode output) = "")); simplify_eq.
  - exists []. by rewrite app_nil_r.
  - eexists [_; _]. rewrite <- app_assoc. repeat split; eauto 10.
Qed.

Lemma decodeContract_total solcVersion compilerOutput bytecodes st contract :
  is_Some (contractOutput compilerOutput contract st) →
  is_Some
    (decodeContract solcVersion compilerOutput (bytecodes, st) contract).
Proof.
  intros [output H]. unfold decodeContract. rewrite H. simpl.
  case_decide; by eexists.
Qed.

Lemma decodeBytecodes_loop solcVersion compilerOutput contractList :
  ∀ bytecodes0 st0 bytecodes st',
    forM (decodeContract solcVersion compilerOutput) (bytecodes0, st0)
      contractList = Some (bytecodes, st') →
    keepsIdentity st0 st'
    ∧ ∃ chunks,
        bytecodes = bytecodes0 ++ concat chunks
        ∧ Forall2
            (λ contract chunk,
               ∃ output,
                 contractOutput compilerOutput contract st0 = Some output
                 ∧ modelsContractBytecode solcVersion
                     (fileIdToSourceFile st0) contract output chunk)
            contractList chunks.
Proof.
  induction contractList as [|c l IH]; intros bs0 st0 bs st' H.
  - injection H as <- <-. split; [apply keepsIdentity_refl|].
    exists []. split; [by rewrite app_nil_r|constructor].
  - apply forM_cons_inv in H as ([bs1 st1] & E & H).
    apply decodeContract_inv in E as (output & chunk & Ho & -> & -> & Hc).
    pose proof (foldl_processAbiItem_keepsIdentity c (co_abi output) st0)
      as Hk.
    apply IH in H as (Hk' & chunks & -> & Hall).
    split; [by eapply keepsIdentity_trans|].
    exists (chunk :: chunks). split; [by rewrite <- app_assoc|].
    constructor; [eauto|].
    eapply Forall2_impl; [done|]. intros c' chunk' (output' & Ho' & Hc').
    exists output'.
    rewrite (contractOutput_keepsIdentity _ _ st0) in Ho' by done.
    split; [done|]. by destruct Hk as (_ & <- & _).
Qed.

Lemma decodeBytecodes_loop_total solcVersion compilerOutput contractList :
  ∀ bytecodes0 st0,
    Forall (λ contract, is_Some (contractOutput compilerOutput contract st0))
      contractList →
    is_Some
      (forM (decodeContract solcVersion compilerOutput) (bytecodes0, st0)
         contractList).
Proof.
  induction contractList as [|c l IH]; intros bs0 st0 Hall; [by eexists|].
  apply Forall_cons in Hall as [Hc Hall].
  destruct (decodeContract_total solcVersion compilerOutput bs0 st0 c Hc)
    as [[bs1 st1] E].
  rewrite (forM_cons_Some _ _ _ _ _ E). apply IH.
  apply decodeContract_inv in E as (output & chunk & _ & -> & _).
  eapply Forall_impl; [done|]. intros c' Hc'. simpl in Hc'.
  rewrite (contractOutput_keepsIdentity _ _ st0);
    [done|apply foldl_processAbiItem_keepsIdentity].
Qed.

(** C4: the bytecode-decoding pass goes through the contracts of the
    contract map in order; a contract adds nothing to the result when its
    bytecode object is the empty string, which does not abort the pass,
    and otherwise adds exactly two entities, the deployment one decoded
    from [bytecode] followed by the runtime one decoded from
    [deployedBytecode].  The pass succeeds as soon as every contract has
    its entry in the compiler output. *)
Theorem abstract_contract_or_two_bytecodes solcVersion compilerOutput st :
  (Forall (λ contract, is_Some (contractOutput compilerOutput contract st))
     (JsMap.values (contractIdToContract st)) →
   is_Some (decodeBytecodes solcVersion compilerOutput st))
  ∧ ∀ bytecodes st',
      decodeBytecodes solcVersion compilerOutput st = Some (bytecodes, st') →
      ∃ chunks,
        bytecodes = concat chunks
        ∧ Forall2
            (λ contract chunk,
               ∃ output,
                 contractOutput compilerOutput contract st = Some output
                 ∧ modelsContractBytecode solcVersion
                     (fileIdToSourceFile st) contract output chunk
                 ∧ if decide (bc_object (co_bytecode output) = "")
                   then length chunk = 0%nat else length chunk = 2%nat)
            (JsMap.values (contractIdToContract st)) chunks.
Proof.
  split; [apply decodeBytecodes_loop_total|].
  intros bs st' H. unfold decodeBytecodes in H.
  apply decodeBytecodes_loop in H as (_ & chunks & -> & Hall).
  exists chunks. split; [done|].
  eapply Forall2_impl; [done|]. intros c chunk (output & Ho & Hc).
  exists output. split; [done|]. split; [done|].
  unfold modelsContractBytecode in Hc. case_decide; [by subst|].
  by destruct Hc as (d & r & -> & _).
Qed.

(** *** Custom errors *)

Lemma abiCustomErrors_elem contractAbi entry customError :
  entry ∈ contractAbi → abi_type entry = "error" →
  CustomError_fromABI (abi_name entry) (abi_inputs entry) = Some customError →
  customError ∈ abiCustomErrors contractAbi.
Proof.
  intros Hin Hty Hb. unfold abiCustomErrors. apply list_elem_of_omap.
  exists entry. split; [done|]. by rewrite decide_True.
Qed.

(** What the pass does to the contracts: a contract of the list gets the
    custom errors of its ABI, the others are left alone. *)
Lemma decodeBytecodes_loop_contracts solcVersion compilerOutput contractList :
  ∀ bytecodes0 st0 bytecodes st',
    forM (decodeContract solcVersion compilerOutput) (bytecodes0, st0)
      contractList = Some (bytecodes, st') →
    NoDup contractList →
    ∀ r,
      (r ∉ contractList → contracts st' !! r = contracts st0 !! r)
      ∧ (r ∈ contractList →
         ∃ output,
           contractOutput compilerOutput r st0 = Some output
           ∧ contracts st' !! r
             = Contract_addCustomErrors (abiCustomErrors (co_abi output))
                 <$> contracts st0 !! r).
Proof.
  induction contractList as [|c l IH]; intros bs0 st0 bs st' H Hnd r.
  - injection H as <- <-. split; [done|]. by intros ?%elem_of_nil.
  - apply forM_cons_inv in H as ([bs1 st1] & E & H).
    apply decodeContract_inv in E as (output & chunk & Ho & -> & -> & Hc).
    apply NoDup_cons in Hnd as [Hc_notin Hnd].
    destruct (IH _ _ _ _ H Hnd r) as [IHout IHin].
    pose proof (foldl_processAbiItem_contracts c (co_abi output) st0 r)
      as Hr.
    split.
    + intros Hr_notin. apply not_elem_of_cons in Hr_notin as [Hne Hr_notin].
      rewrite IHout by done. by rewrite Hr, decide_False.
    + intros [->|Hr_in]%elem_of_cons.
      * exists output. split; [done|].
        rewrite IHout by done. by rewrite Hr, decide_True.
      * destruct (IHin Hr_in) as (output' & Ho' & ->).
        exists output'.
        rewrite (contractOutput_keepsIdentity _ _ st0) in Ho'
          by apply foldl_processAbiItem_keepsIdentity.
        split; [done|]. rewrite Hr, decide_False; [done|].
        by intros ->.
Qed.

(** After the pass every contract of the contract map has, in addition to
    what it had, the custom errors built from the "error" entries of its
    ABI, whatever its bytecode; when its bytecode object is the empty
    string no Bytecode entity of the result refers to it. *)
Lemma decodeBytecodes_custom_errors solcVersion compilerOutput st
  bytecodes st' :
  decodeBytecodes solcVersion compilerOutput st = Some (bytecodes, st') →
  NoDup (JsMap.values (contractIdToContract st)) →
  ∀ contract,
    contract ∈ JsMap.values (contractIdToContract st) →
    ∃ output c,
      contractOutput compilerOutput contract st = Some output
      ∧ contracts st !! contract = Some c
      ∧ contracts st' !! contract
        = Some
            (Contract_addCustomErrors (abiCustomErrors (co_abi output)) c)
      ∧ (∀ entry customError,
           entry ∈ co_abi output → abi_type entry = "error" →
           CustomError_fromABI (abi_name entry) (abi_inputs entry)
           = Some customError →
           ∃ c', contracts st' !! contract = Some c'
                 ∧ customError ∈ c_customErrors c')
      ∧ (bc_object (co_bytecode output) = "" →
         ∀ bytecode, bytecode ∈ bytecodes → b_contract bytecode ≠ contract).
Proof.
  unfold decodeBytecodes. intros H Hnd contract Hin.
  destruct (decodeBytecodes_loop_contracts _ _ _ _ _ _ _ H Hnd contract)
    as [_ Hc].
  destruct (Hc Hin) as (output & Ho & Hc').
  assert (is_Some (contracts st !! contract)) as [c Hcs].
  { unfold contractOutput in Ho.
    destruct (contracts st !! contract); [by eexists|done]. }
  rewrite Hcs in Hc'. simpl in Hc'.
  exists output, c. do 3 (split; [done|]). split.
  - intros entry customError Hentry Hty Hb. eexists. split; [done|]. simpl.
    apply elem_of_app. right. by eapply abiCustomErrors_elem.
  - intros Hempty bytecode Hb.
    apply decodeBytecodes_loop in H as (_ & chunks & -> & Hall).
    simpl in Hb. apply list_elem_of_In, in_concat in Hb as (chunk & Hchunk & Hb).
    apply list_elem_of_In in Hb.
    apply list_elem_of_In, list_elem_of_lookup in Hchunk as [i Hi].
    destruct (Forall2_lookup_r _ _ _ _ _ Hall Hi)
      as (contract' & Hi' & output' & Ho' & Hm).
    unfold modelsContractBytecode in Hm.
    destruct (decide (bc_object (co_bytecode output') = "")).
    { subst chunk. by apply elem_of_nil in Hb. }
    destruct Hm as (d & r & -> & _ & _ & _ & _ & Hd & Hr).
    intros Heq.
    assert (contract' = contract) as ->.
    { apply elem_of_cons in Hb as [->|Hb]; [congruence|].
      apply list_elem_of_singleton in Hb as ->. congruence. }
    congruence.
Qed.

Lemma get_mapEntry {V} k (f : V → V) o k' :
  JsObject.get (mapEntry k f o) k'
  = (λ v, if decide (k' = k) then f v else v) <$> JsObject.get o k'.
Proof.
  induction o as [|[k0 v0] o IH]; simpl; [done|].
  destruct (decide (k0 = k')) as [->|Hne]; [done|]. apply IH.
Qed.

Lemma contractOutput_sameModel compilerOutput contract st st' :
  sameModel st st' →
  contractOutput compilerOutput contract st
  = contractOutput compilerOutput contract st'.
Proof. intros (Hf & Hc & _). unfold contractOutput. by rewrite Hf, Hc. Qed.

(** Without the entry, a contract finds the same output, less the entry
    when it is the contract [name] of [file]. *)
Lemma contractOutput_withoutAbiEntry compilerOutput file name i output
  contract st :
  JsObject.get (out_contracts compilerOutput) file
    ≫= (λ fileContracts, JsObject.get fileContracts name) = Some output →
  contractOutput (withoutAbiEntry compilerOutput file name i) contract st
  = contractOutput compilerOutput contract st
  ∨ contractOutput compilerOutput contract st = Some output
    ∧ contractOutput (withoutAbiEntry compilerOutput file name i) contract st
      = Some (dropAbiEntry i output).
Proof.
  intros Ht. unfold contractOutput.
  destruct (contracts st !! contract) as [c|]; simpl; [|by left].
  destruct (c_location c) as [location|]; simpl; [|by left].
  destruct (files st !! loc_file location) as [f|]; simpl; [|by left].
  rewrite get_mapEntry.
  destruct (JsObject.get (out_contracts compilerOutput) (sf_sourceName f))
    as [fileContracts|] eqn:Ef; simpl; [|by left].
  destruct (decide (sf_sourceName f = file)) as [Heq|]; [|by left].
  rewrite get_mapEntry. rewrite Heq in Ef. rewrite Ef in Ht. simpl in Ht.
  destruct (JsObject.get fileContracts (c_name c)) as [o|] eqn:Eo; simpl;
    [|by left].
  destruct (decide (c_name c = name)) as [Hn|]; [|by left].
  right. rewrite Hn in Eo. by simplify_eq.
Qed.

Lemma processAbiItem_simulation contract st1 st2 abiItem :
  sameModelFewerDiagnostics st1 st2 →
  sameModelFewerDiagnostics (processAbiItem contract st1 abiItem)
    (processAbiItem contract st2 abiItem).
Proof.
  intros [(Hf & Hc & Hm1 & Hm2 & Hm3) Hd]. unfold processAbiItem.
  case_decide; [|by repeat split].
  destruct (CustomError_fromABI _ _).
  - split; [|done]. repeat split; simpl; congruence.
  - split; [by repeat split|]. simpl. by apply sublist_app.
Qed.

Lemma foldl_processAbiItem_simulation contract contractAbi : ∀ st1 st2,
  sameModelFewerDiagnostics st1 st2 →
  sameModelFewerDiagnostics (foldl (processAbiItem contract) st1 contractAbi)
    (foldl (processAbiItem contract) st2 contractAbi).
Proof.
  induction contractAbi as [|e abi IH]; intros st1 st2 H; simpl; [done|].
  by apply IH, processAbiItem_simulation.
Qed.

Lemma processAbiItem_failing contract st entry :
  abi_type entry = "error" →
  CustomError_fromABI (abi_name entry) (abi_inputs entry) = None →
  processAbiItem contract st entry = log (customErrorDiagnostic entry) st.
Proof. intros Hty Hb. unfold processAbiItem. by rewrite decide_True, Hb. Qed.

(** The loop over an ABI with a failing error entry and the loop over the
    ABI without it end in the same model. *)
Lemma foldl_processAbiItem_skip contract contractAbi i entry st1 st2 :
  contractAbi !! i = Some entry →
  abi_type entry = "error" →
  CustomError_fromABI (abi_name entry) (abi_inputs entry) = None →
  sameModelFewerDiagnostics st1 st2 →
  sameModelFewerDiagnostics (foldl (processAbiItem contract) st1 contractAbi)
    (foldl (processAbiItem contract) st2 (delete i contractAbi)).
Proof.
  intros Hi Hty Hb H.
  rewrite <- (take_drop_middle _ _ _ Hi) at 1. rewrite delete_take_drop.
  rewrite !foldl_app. simpl. rewrite processAbiItem_failing by done.
  apply foldl_processAbiItem_simulation.
  pose proof (foldl_processAbiItem_simulation contract (take i contractAbi)
                _ _ H) as [Hs Hd].
  split; [by destruct Hs as (? & ? & ? & ? & ?); repeat split|].
  simpl. by apply sublist_inserts_r.
Qed.

Lemma decodeContract_skip solcVersion compilerOutput file name i output
  entry bytecodes st1 st2 contract :
  JsObject.get (out_contracts compilerOutput) file
    ≫= (λ fileContracts, JsObject.get fileContracts name) = Some output →
  co_abi output !! i = Some entry →
  abi_type entry = "error" →
  CustomError_fromABI (abi_name entry) (abi_inputs entry) = None →
  sameModelFewerDiagnostics st1 st2 →
  match
    decodeContract solcVersion compilerOutput (bytecodes, st1) contract,
    decodeContract solcVersion (withoutAbiEntry compilerOutput file name i)
      (bytecodes, st2) contract
  with
  | Some (bytecodes1, st1'), Some (bytecodes2, st2') =>
      bytecodes1 = bytecodes2 ∧ sameModelFewerDiagnostics st1' st2'
  | None, None => True
  | _, _ => False
  end.
Proof.
  intros Ht Hi Hty Hb H. unfold decodeContract.
  rewrite (contractOutput_sameModel compilerOutput contract st1 st2)
    by apply H.
  destruct (contractOutput_withoutAbiEntry compilerOutput file name i output
              contract st2 Ht) as [->|[-> ->]].
  - destruct (contractOutput compilerOutput contract st2) as [o|]; [|done].
    simpl.
    pose proof (foldl_processAbiItem_simulation contract (co_abi o) _ _ H)
      as H'.
    destruct H' as [Hs Hd]. pose proof Hs as (_ & _ & Hfm & _).
    rewrite Hfm. by case_decide.
  - simpl.
    pose proof (foldl_processAbiItem_skip contract _ _ _ _ _ Hi Hty Hb H)
      as H'.
    destruct H' as [Hs Hd]. pose proof Hs as (_ & _ & Hfm & _).
    rewrite Hfm. by case_decide.
Qed.

Lemma decodeBytecodes_loop_skip solcVersion compilerOutput file name i output
  entry contractList :
  JsObject.get (out_contracts compilerOutput) file
    ≫= (λ fileContracts, JsObject.get fileContracts name) = Some output →
  co_abi output !! i = Some entry →
  abi_type entry = "error" →
  CustomError_fromABI (abi_name entry) (abi_inputs entry) = None →
  ∀ bytecodes st1 st2,
    sameModelFewerDiagnostics st1 st2 →
    match
      forM (decodeContract solcVersion compilerOutput) (bytecodes, st1)
        contractList,
      forM
        (decodeContract solcVersion
           (withoutAbiEntry compilerOutput file name i))
        (bytecodes, st2) contractList
    with
    | Some (bytecodes1, st1'), Some (bytecodes2, st2') =>
        bytecodes1 = bytecodes2 ∧ sameModelFewerDiagnostics st1' st2'
    | None, None => True
    | _, _ => False
    end.
Proof.
  intros Ht Hi Hty Hb.
  induction contractList as [|c l IH]; intros bs st1 st2 H; [done|].
  pose proof (decodeContract_skip solcVersion _ _ _ _ _ _ bs _ _ c
                Ht Hi Hty Hb H) as Hstep.
  rewrite !forM_cons.
  destruct (decodeContract solcVersion compilerOutput _ c) as [[bs1 st1']|],
    (decodeContract solcVersion (withoutAbiEntry _ _ _ _) _ c)
      as [[bs2 st2']|]; try done.
  destruct Hstep as [-> Hstep]. by apply IH.
Qed.

(** C5: an ABI entry of type "error" whose CustomError cannot be built
    only writes a diagnostic.  The pass over a compiler output with such an
    entry fails or succeeds as the pass over the output without the entry
    does, returns the same Bytecode entities and ends with the same files,
    contracts and custom errors; only the diagnostics have more lines. *)
Theorem failing_custom_error_skipped solcVersion compilerOutput file name i
  output entry :
  JsObject.get (out_contracts compilerOutput) file
    ≫= (λ fileContracts, JsObject.get fileContracts name) = Some output →
  co_abi output !! i = Some entry →
  abi_type entry = "error" →
  CustomError_fromABI (abi_name entry) (abi_inputs entry) = None →
  (∀ contract st,
     processAbiItem contract st entry
     = log (customErrorDiagnostic entry) st)
  ∧ ∀ st,
      match
        decodeBytecodes solcVersion compilerOutput st,
        decodeBytecodes solcVersion
          (withoutAbiEntry compilerOutput file name i) st
      with
      | Some (bytecodes1, st1), Some (bytecodes2, st2) =>
          bytecodes1 = bytecodes2
          ∧ sameModel st1 st2
          ∧ sublist (diagnostics st2) (diagnostics st1)
      | None, None => True
      | _, _ => False
      end.
Proof.
  intros Ht Hi Hty Hb. split.
  { intros contract st. by apply processAbiItem_failing. }
  intros st. unfold decodeBytecodes.
  assert (sameModelFewerDiagnostics st st) as H by (by repeat split).
  pose proof (decodeBytecodes_loop_skip solcVersion _ _ _ _ _ _
                (JsMap.values (contractIdToContract st)) Ht Hi Hty Hb
                [] st st H) as Hloop.
  destruct (forM (decodeContract solcVersion compilerOutput) _ _)
    as [[bs1 st1]|],
    (forM (decodeContract solcVersion (withoutAbiEntry _ _ _ _)) _ _)
      as [[bs2 st2]|]; try done.
  all: by destruct Hloop as (-> & Hs & Hd).
Qed.

(** *** The first pass, node by node *)

Lemma SourceFile_addFunctions_nil f : SourceFile_addFunctions [] f = f.
Proof. destruct f. unfold SourceFile_addFunctions. simpl. by rewrite app_nil_r. Qed.

Lemma Contract_addLocalFunctions_nil c : Contract_addLocalFunctions [] c = c.
Proof.
  destruct c. unfold Contract_addLocalFunctions. simpl. by rewrite app_nil_r.
Qed.

Lemma SourceFile_addFunctions_app funcs1 funcs2 f :
  SourceFile_addFunctions funcs2 (SourceFile_addFunctions funcs1 f)
  = SourceFile_addFunctions (funcs1 ++ funcs2) f.
Proof. unfold SourceFile_addFunctions. simpl. by rewrite app_assoc. Qed.

Lemma Contract_addLocalFunctions_app funcs1 funcs2 c :
  Contract_addLocalFunctions funcs2 (Contract_addLocalFunctions funcs1 c)
  = Contract_addLocalFunctions (funcs1 ++ funcs2) c.
Proof. unfold Contract_addLocalFunctions. simpl. by rewrite app_assoc. Qed.

Lemma alter_SourceFile_addFunctions_nil file (m : gmap string SourceFile) :
  alter (SourceFile_addFunctions []) file m = m.
Proof. apply alter_id. intros. apply SourceFile_addFunctions_nil. Qed.

Lemma alter_SourceFile_addFunctions_app funcs1 funcs2 file
  (m : gmap string SourceFile) :
  alter (SourceFile_addFunctions funcs2) file
    (alter (SourceFile_addFunctions funcs1) file m)
  = alter (SourceFile_addFunctions (funcs1 ++ funcs2)) file m.
Proof.
  rewrite alter_alter_eq. apply alter_ext. intros. simpl.
  apply SourceFile_addFunctions_app.
Qed.

Lemma alter_Contract_addLocalFunctions_app
  (funcs1 funcs2 : list ContractFunction) (contract : string * nat)
  (m : gmap (string * nat) Contract) :
  alter (Contract_addLocalFunctions funcs2) contract
    (alter (Contract_addLocalFunctions funcs1) contract m)
  = alter (Contract_addLocalFunctions (funcs1 ++ funcs2)) contract m.
Proof.
  rewrite alter_alter_eq. apply alter_ext. intros. simpl.
  apply Contract_addLocalFunctions_app.
Qed.

Lemma addMemberFunctions_nil file contract st :
  addMemberFunctions file contract [] st = st.
Proof.
  unfold addMemberFunctions. rewrite alter_SourceFile_addFunctions_nil.
  rewrite alter_id by (intros; apply Contract_addLocalFunctions_nil).
  by destruct st.
Qed.

Lemma addMemberFunctions_app file contract funcs1 funcs2 st :
  addMemberFunctions file contract funcs2
    (addMemberFunctions file contract funcs1 st)
  = addMemberFunctions file contract (funcs1 ++ funcs2) st.
Proof.
  unfold addMemberFunctions. simpl.
  by rewrite alter_SourceFile_addFunctions_app,
    alter_Contract_addLocalFunctions_app.
Qed.

Lemma addMemberFunction_option_list file contract func st :
  addMemberFunction contract file func st
  = addMemberFunctions file contract (option_list func) st.
Proof. destruct func; simpl; [done|]. by rewrite addMemberFunctions_nil. Qed.

Lemma processContractMember_closed file contract contractAbi st node :
  processContractMember file contract contractAbi st node
  = funcs ← memberFunction (fileIdToSourceFile st) contract contractAbi node;
    Some (addMemberFunctions file contract funcs st).
Proof.
  destruct node as [node|node|node|?]; simpl.
  - unfold processFunctionDefinitionAstNode.
    case_decide; simpl; [by rewrite addMemberFunctions_nil|].
    by destruct (newContractFunction _ _ _ _).
  - unfold processModifierDefinitionAstNode.
    by rewrite addMemberFunction_option_list.
  - unfold processVariableDeclarationAstNode.
    by rewrite addMemberFunction_option_list.
  - by rewrite addMemberFunctions_nil.
Qed.

Lemma processContractMembers_closed file contract contractAbi members :
  ∀ st,
    forM (processContractMember file contract contractAbi) st members
    = funcs ←
        memberFunctions (fileIdToSourceFile st) contract contractAbi members;
      Some (addMemberFunctions file contract funcs st).
Proof.
  unfold memberFunctions.
  induction members as [|node members IH]; intros st.
  - simpl. by rewrite addMemberFunctions_nil.
  - rewrite forM_cons, processContractMember_closed.
    change (mapM ?f (node :: members))
      with (y ← f node; k ← mapM f members; Some (y :: k)).
    destruct (memberFunction _ _ _ node) as [funcs1|]; simpl; [|done].
    rewrite IH. simpl.
    destruct (mapM _ members) as [chunks|]; simpl; [|done].
    by rewrite addMemberFunctions_app.
Qed.

Lemma processSourceNode_closed file contractToAbi i node st :
  processSourceNode file contractToAbi i node st
  = effect ← nodeEffect (fileIdToSourceFile st) contractToAbi file i node;
    Some (applyNodeEffect file i effect st).
Proof.
  destruct node as [node|node|?]; simpl.
  - destruct (contractKindToContractType _) as [contractType|]; simpl.
    + unfold processContractAstNode.
      rewrite processContractMembers_closed. simpl.
      destruct (memberFunctions _ _ _ _) as [funcs|]; simpl; [|done].
      unfold addMemberFunctions, applyNodeEffect, registerContract. simpl.
      by rewrite alter_insert_eq.
    + unfold applyNodeEffect. simpl.
      rewrite alter_SourceFile_addFunctions_nil. by destruct st.
  - unfold processFunctionDefinitionAstNode. case_decide; simpl.
    + unfold applyNodeEffect. simpl.
      rewrite alter_SourceFile_addFunctions_nil. by destruct st.
    + by destruct (newContractFunction _ _ _ _).
  - unfold applyNodeEffect. simpl.
    rewrite alter_SourceFile_addFunctions_nil. by destruct st.
Qed.

Lemma fileIdToSourceFile_applyNodeEffect file i effect st :
  fileIdToSourceFile (applyNodeEffect file i effect st)
  = fileIdToSourceFile st.
Proof. done. Qed.

Lemma processSourceNodes_closed file contractToAbi nodes : ∀ i st,
  processSourceNodes file contractToAbi i nodes st
  = effects ←
      nodeEffects (fileIdToSourceFile st) contractToAbi file i nodes;
    Some (applyNodeEffects file i effects st).
Proof.
  induction nodes as [|node nodes IH]; intros i st; simpl; [done|].
  rewrite processSourceNode_closed.
  destruct (nodeEffect _ _ _ _ node) as [effect|]; simpl; [|done].
  rewrite IH, fileIdToSourceFile_applyNodeEffect.
  by destruct (nodeEffects _ _ _ _ nodes).
Qed.

Lemma register_addFileFunctions file funcs st registration :
  register file (addFileFunctions file funcs st) registration
  = addFileFunctions file funcs (register file st registration).
Proof. done. Qed.

Lemma foldl_register_addFileFunctions file funcs registrationList : ∀ st,
  foldl (register file) (addFileFunctions file funcs st) registrationList
  = addFileFunctions file funcs (foldl (register file) st registrationList).
Proof.
  induction registrationList as [|r l IH]; intros st; simpl; [done|].
  by rewrite register_addFileFunctions, IH.
Qed.

Lemma addFileFunctions_app file funcs1 funcs2 st :
  addFileFunctions file funcs2 (addFileFunctions file funcs1 st)
  = addFileFunctions file (funcs1 ++ funcs2) st.
Proof.
  unfold addFileFunctions, set_files. simpl.
  by rewrite alter_SourceFile_addFunctions_app.
Qed.

Lemma applyNodeEffect_closed file i effect st :
  applyNodeEffect file i effect st
  = foldl (register file) (addFileFunctions file (ne_functions effect) st)
      match ne_contract effect with
      | Some c => [(i, c)]
      | None => []
      end.
Proof.
  unfold applyNodeEffect.
  by destruct (ne_contract effect) as [[[id ids] c]|].
Qed.

Lemma applyNodeEffects_closed file effects : ∀ i st,
  applyNodeEffects file i effects st
  = foldl (register file)
      (addFileFunctions file (effectFunctions effects) st)
      (registrations i effects).
Proof.
  unfold effectFunctions.
  induction effects as [|effect effects IH]; intros i st; simpl.
  - unfold addFileFunctions.
    rewrite alter_SourceFile_addFunctions_nil. by destruct st.
  - rewrite IH, applyNodeEffect_closed, foldl_app.
    rewrite <- foldl_register_addFileFunctions.
    by rewrite addFileFunctions_app.
Qed.

Lemma processSource_closed sourceNameToContractToAbi compilerInput st
  sourceName source :
  processSource sourceNameToContractToAbi compilerInput st
    (sourceName, source)
  = content ← JsObject.get compilerInput sourceName;
    effects ←
      nodeEffects (<[so_id source := sourceName]> (fileIdToSourceFile st))
        (sourceNameToContractToAbi !! sourceName) sourceName 0%nat
        (so_nodes source);
    Some (applySourceEffects sourceName content (so_id source) effects st).
Proof.
  unfold processSource.
  destruct (JsObject.get compilerInput sourceName) as [content|]; simpl;
    [|done].
  rewrite processSourceNodes_closed. simpl.
  destruct (nodeEffects _ _ _ _ _) as [effects|]; simpl; [|done].
  rewrite applyNodeEffects_closed. unfold applySourceEffects. do 2 f_equal.
  unfold addFileFunctions, registerSourceFile, set_files. simpl.
  by rewrite alter_insert_eq.
Qed.

(** *** The contract map *)

Lemma JsMap_get_set {V} (m : JsMap.t V) k v k' :
  JsMap.get (JsMap.set m k v) k'
  = if decide (k = k') then Some v else JsMap.get m k'.
Proof.
  induction m as [|[k0 v0] m IH]; simpl.
  - by destruct (decide (k = k')).
  - destruct (decide (k0 = k)) as [->|Hne]; simpl.
    + by destruct (decide (k = k')).
    + destruct (decide (k0 = k')) as [->|Hne'].
      * by rewrite decide_False by done.
      * apply IH.
Qed.

Lemma JsMap_get_Some {V} (m : JsMap.t V) k v :
  JsMap.get m k = Some v → (k, v) ∈ m.
Proof.
  induction m as [|[k0 v0] m IH]; simpl; [done|].
  destruct (decide (k0 = k)) as [->|Hne].
  - intros [= ->]. left.
  - intros H. right. by apply IH.
Qed.

Lemma JsMap_get_None {V} (m : JsMap.t V) k :
  JsMap.get m k = None ↔ k ∉ m.*1.
Proof.
  induction m as [|[k0 v0] m IH]; simpl.
  - split; [intros _; apply not_elem_of_nil|done].
  - rewrite not_elem_of_cons.
    destruct (decide (k0 = k)) as [->|Hne].
    + split; [done|]. by intros [? _].
    + rewrite IH. split; [intros ?; split; [congruence|done]|by intros [_ ?]].
Qed.

Lemma JsMap_elem_get {V} (m : JsMap.t V) k v :
  NoDup m.*1 → (k, v) ∈ m → JsMap.get m k = Some v.
Proof.
  induction m as [|[k0 v0] m IH]; simpl; intros Hnd Hin.
  - by apply elem_of_nil in Hin.
  - apply NoDup_cons in Hnd as [Hk0 Hnd].
    apply elem_of_cons in Hin as [[= -> ->]|Hin].
    + by rewrite decide_True.
    + destruct (decide (k0 = k)) as [->|Hne]; [|by apply IH].
      exfalso. apply Hk0. apply list_elem_of_fmap. by exists (k, v).
Qed.

Lemma JsMap_set_keys {V} (m : JsMap.t V) k v :
  (JsMap.set m k v).*1 = if decide (k ∈ m.*1) then m.*1 else m.*1 ++ [k].
Proof.
  induction m as [|[k0 v0] m IH].
  - rewrite decide_False; [done|apply not_elem_of_nil].
  - change (((k0, v0) :: m).*1) with (k0 :: m.*1).
    change (JsMap.set ((k0, v0) :: m) k v)
      with (if decide (k0 = k) then (k, v) :: m
            else (k0, v0) :: JsMap.set m k v).
    destruct (decide (k0 = k)) as [->|Hne].
    + rewrite decide_True; [done|left].
    + change (((k0, v0) :: JsMap.set m k v).*1)
        with (k0 :: (JsMap.set m k v).*1).
      rewrite IH. destruct (decide (k ∈ m.*1)) as [Hin|Hnin].
      * rewrite decide_True; [done|by right].
      * rewrite decide_False; [done|].
        apply not_elem_of_cons. split; [done|done].
Qed.

Lemma JsMap_set_NoDup_keys {V} (m : JsMap.t V) k v :
  NoDup m.*1 → NoDup (JsMap.set m k v).*1.
Proof.
  intros Hnd. rewrite JsMap_set_keys. case_decide; [done|].
  apply NoDup_app. split; [done|]. split; [|apply NoDup_singleton].
  intros x Hx ->%list_elem_of_singleton. done.
Qed.

Lemma JsMap_elem_of_set {V} (m : JsMap.t V) k v k' v' :
  (k', v') ∈ JsMap.set m k v →
  (k' = k ∧ v' = v) ∨ (k' ≠ k ∧ (k', v') ∈ m) ∨ (k' = k ∧ (k', v') ∈ m).
Proof.
  induction m as [|[k0 v0] m IH]; simpl.
  - intros [= -> ->]%list_elem_of_singleton. by left.
  - destruct (decide (k0 = k)) as [->|Hne].
    + intros [[= -> ->]|Hin]%elem_of_cons; [by left|].
      destruct (decide (k' = k)) as [->|Hne'].
      * right. right. split; [done|]. by right.
      * right. left. split; [done|]. by right.
    + intros [[= -> ->]|Hin]%elem_of_cons.
      * right. left. split; [done|]. left.
      * destruct (IH Hin) as [?|[[? ?]|[? ?]]]; [by left|..].
        -- right. left. split; [done|]. by right.
        -- right. right. split; [done|]. by right.
Qed.

(** With each key once, [set] drops the old entry of the key. *)
Lemma JsMap_elem_of_set_NoDup {V} (m : JsMap.t V) k v k' v' :
  NoDup m.*1 →
  (k', v') ∈ JsMap.set m k v →
  (k' = k ∧ v' = v) ∨ (k' ≠ k ∧ (k', v') ∈ m).
Proof.
  intros Hnd Hin.
  assert (JsMap.get (JsMap.set m k v) k' = Some v') as Hget.
  { apply JsMap_elem_get; [by apply JsMap_set_NoDup_keys|done]. }
  rewrite JsMap_get_set in Hget.
  destruct (decide (k = k')) as [->|Hne].
  - left. by simplify_eq.
  - right. split; [done|]. by apply JsMap_get_Some.
Qed.

Lemma JsMap_set_values {V} (m : JsMap.t V) k v v' :
  v' ∈ (JsMap.set m k v).*2 → v' = v ∨ v' ∈ m.*2.
Proof.
  intros ([k' v''] & -> & Hin)%list_elem_of_fmap. simpl.
  destruct (JsMap_elem_of_set _ _ _ _ _ Hin) as [[_ ->]|[[_ H]|[_ H]]];
    [by left|right..]; apply list_elem_of_fmap; by exists (k', v'').
Qed.

Lemma JsMap_set_NoDup_values {V} (m : JsMap.t V) k v :
  NoDup m.*2 → v ∉ m.*2 → NoDup (JsMap.set m k v).*2.
Proof.
  induction m as [|[k0 v0] m IH]; simpl; intros Hnd Hv.
  - apply NoDup_singleton.
  - apply NoDup_cons in Hnd as [Hv0 Hnd].
    apply not_elem_of_cons in Hv as [Hne Hv].
    destruct (decide (k0 = k)) as [->|Hk]; simpl.
    + apply NoDup_cons. by split.
    + apply NoDup_cons. split; [|by apply IH].
      intros [->|Hin]%JsMap_set_values; done.
Qed.

(** *** The effects of the nodes of a source *)

Lemma nodeEffects_lookup fm contractToAbi file nodes : ∀ i effects,
  nodeEffects fm contractToAbi file i nodes = Some effects →
  length effects = length nodes
  ∧ ∀ k node,
      nodes !! k = Some node →
      ∃ effect,
        effects !! k = Some effect
        ∧ nodeEffect fm contractToAbi file (i + k) node = Some effect.
Proof.
  induction nodes as [|node nodes IH]; intros i effects H; simpl in H.
  - injection H as <-. split; [done|]. by intros k node ?.
  - destruct (nodeEffect _ _ _ i node) as [effect|] eqn:E; [|done].
    simpl in H.
    destruct (nodeEffects _ _ _ (S i) nodes) as [effects'|] eqn:E'; [|done].
    injection H as <-. destruct (IH _ _ E') as [Hlen Hk].
    split; [simpl; by rewrite Hlen|].
    intros [|k] node' Hnode; simpl in Hnode.
    + injection Hnode as <-. exists effect.
      by rewrite Nat.add_0_r.
    + destruct (Hk k node' Hnode) as (effect' & He & Hn).
      exists effect'. split; [done|].
      by rewrite Nat.add_succ_r.
Qed.

Lemma elem_of_registrations effects : ∀ i j registration,
  (j, registration) ∈ registrations i effects
  ↔ ∃ k effect,
      j = (i + k)%nat ∧ effects !! k = Some effect
      ∧ ne_contract effect = Some registration.
Proof.
  induction effects as [|effect effects IH]; intros i j registration; simpl.
  - split; [by intros ?%elem_of_nil|by intros (k & e & _ & ? & _)].
  - rewrite elem_of_app, IH. split.
    + intros [Hin|(k & e & -> & He & Hc)].
      * destruct (ne_contract effect) as [c|] eqn:E;
          [|by apply elem_of_nil in Hin].
        apply list_elem_of_singleton in Hin as [= -> ->].
        exists 0%nat, effect. by rewrite Nat.add_0_r.
      * exists (S k), e. by rewrite Nat.add_succ_r.
    + intros ([|k] & e & -> & He & Hc); simpl in He.
      * injection He as <-. left. rewrite Hc, Nat.add_0_r.
        by apply list_elem_of_singleton.
      * right. exists k, e. by rewrite Nat.add_succ_r.
Qed.

Lemma registrations_ge effects : ∀ i j,
  j ∈ (registrations i effects).*1 → (i ≤ j)%nat.
Proof.
  intros i j ([j' registration] & -> & Hin)%list_elem_of_fmap.
  apply elem_of_registrations in Hin as (k & e & -> & _). simpl. lia.
Qed.

Lemma registrations_NoDup effects : ∀ i,
  NoDup (registrations i effects).*1.
Proof.
  induction effects as [|effect effects IH]; intros i; simpl;
    [apply NoDup_nil_2|].
  rewrite fmap_app. apply NoDup_app. split; [|split; [|apply IH]].
  - destruct (ne_contract effect); [apply NoDup_singleton|apply NoDup_nil_2].
  - intros j Hj Hj'. apply registrations_ge in Hj'.
    destruct (ne_contract effect); [|by apply elem_of_nil in Hj].
    apply list_elem_of_singleton in Hj. simpl in Hj. lia.
Qed.

(** A registration is the contract of a modeled contract definition, at
    the position of its node. *)
Lemma registrations_node fm contractToAbi file nodes effects j registration :
  nodeEffects fm contractToAbi file 0 nodes = Some effects →
  (j, registration) ∈ registrations 0 effects →
  ∃ node contractType funcs,
    nodes !! j = Some (NContractDefinition node)
    ∧ contractKindToContractType (cd_contractKind node) = Some contractType
    ∧ memberFunctions fm (file, j) (contractToAbi ≫= (.!! cd_name node))
        (cd_nodes node) = Some funcs
    ∧ registration
      = (cd_id node, cd_linearizedBaseContracts node,
         mkContract (cd_name node) contractType
           (astSrcToSourceLocation (cd_src node) fm) funcs [] []).
Proof.
  intros Heff (k & effect & -> & He & Hc)%elem_of_registrations.
  simpl. destruct (nodeEffects_lookup _ _ _ _ _ _ Heff) as [Hlen Hk].
  assert (is_Some (nodes !! k)) as [node Hnode].
  { apply lookup_lt_is_Some. rewrite <- Hlen. by eapply lookup_lt_Some. }
  destruct (Hk k node Hnode) as (effect' & He' & Hn). simpl in Hn.
  rewrite He in He'. injection He' as <-.
  destruct node as [node|node|?]; simpl in Hn.
  - destruct (contractKindToContractType _) as [contractType|] eqn:Ek.
    + destruct (memberFunctions _ _ _ _) as [funcs|] eqn:Em; [|done].
      simpl in Hn. injection Hn as <-. simpl in Hc. injection Hc as <-.
      by exists node, contractType, funcs.
    + injection Hn as <-. done.
  - case_decide; [injection Hn as <-; done|].
    destruct (newContractFunction _ _ _ _); [|done].
    injection Hn as <-. done.
  - injection Hn as <-. done.
Qed.

(** *** Registering contracts *)

Lemma foldl_register_frame file registrationList : ∀ st,
  files (foldl (register file) st registrationList) = files st
  ∧ fileIdToSourceFile (foldl (register file) st registrationList)
    = fileIdToSourceFile st
  ∧ diagnostics (foldl (register file) st registrationList)
    = diagnostics st.
Proof.
  induction registrationList as [|r l IH]; intros st; simpl; [done|].
  by destruct (IH (register file st r)) as (-> & -> & ->).
Qed.

Lemma foldl_register_contracts_other file registrationList : ∀ st r,
  r.1 ≠ file ∨ r.2 ∉ registrationList.*1 →
  contracts (foldl (register file) st registrationList) !! r
  = contracts st !! r.
Proof.
  induction registrationList as [|reg l IH]; intros st r Hr; simpl; [done|].
  rewrite IH.
  - simpl. apply lookup_insert_ne. destruct r as [f j]. simpl in Hr.
    intros [= <- <-]. destruct Hr as [Hr|Hr]; [congruence|]. apply Hr. left.
  - destruct Hr as [Hr|Hr]; [by left|right].
    simpl in Hr. by apply not_elem_of_cons in Hr as [_ Hr].
Qed.

Lemma foldl_register_contracts file registrationList : ∀ st j registration,
  NoDup registrationList.*1 →
  (j, registration) ∈ registrationList →
  contracts (foldl (register file) st registrationList) !! (file, j)
  = Some registration.2.
Proof.
  induction registrationList as [|reg l IH];
    intros st j registration Hnd Hin; simpl.
  - by apply elem_of_nil in Hin.
  - simpl in Hnd. apply NoDup_cons in Hnd as [Hreg Hnd].
    apply elem_of_cons in Hin as [<-|Hin].
    + rewrite foldl_register_contracts_other by (by right).
      simpl. apply lookup_insert_eq.
    + by apply IH.
Qed.

Lemma register_registryInv sources file st j node c :
  registryInv sources st →
  contracts st !! (file, j) = None →
  siteNode sources (file, j) = Some node →
  c_linearizedBaseContracts c = [] →
  registryInv sources
    (register file st
       (j, (cd_id node, cd_linearizedBaseContracts node, c))).
Proof.
  intros (Hk & Hv & Hreg) Hfresh Hsite Hc.
  assert ((file, j) ∉ (contractIdToContract st).*2) as Hnew.
  { intros ([id r] & Heq & Hin)%list_elem_of_fmap. simpl in Heq. subst r.
    destruct (Hreg _ _ Hin) as (? & ? & _ & _ & _ & Hsome & _).
    congruence. }
  split; [by apply JsMap_set_NoDup_keys|].
  split; [by apply JsMap_set_NoDup_values|].
  intros id contract Hin. simpl in Hin.
  apply JsMap_elem_of_set_NoDup in Hin as [[-> ->]|[Hne Hin]]; [| |done].
  - exists node, c. simpl. by rewrite !lookup_insert_eq.
  - destruct (Hreg _ _ Hin) as (node' & c' & Hs' & Hid' & Hids' & Hc' & Hl').
    exists node', c'. simpl. split; [done|]. split; [done|].
    rewrite !lookup_insert_ne; [done| |done].
    intros <-. congruence.
Qed.

Lemma foldl_register_registryInv sources file registrationList : ∀ st,
  NoDup registrationList.*1 →
  Forall
    (λ registration,
       ∃ node,
         siteNode sources (file, registration.1) = Some node
         ∧ registration.2.1
           = (cd_id node, cd_linearizedBaseContracts node)
         ∧ c_linearizedBaseContracts registration.2.2 = [])
    registrationList →
  registryInv sources st →
  (∀ j, j ∈ registrationList.*1 → contracts st !! (file, j) = None) →
  registryInv sources (foldl (register file) st registrationList).
Proof.
  induction registrationList as [|[j [[id ids] c]] l IH];
    intros st Hnd Hall Hinv Hfresh; simpl; [done|].
  simpl in Hnd. apply NoDup_cons in Hnd as [Hj Hnd].
  apply Forall_cons in Hall as [(node & Hsite & [= -> ->] & Hc) Hall].
  simpl in *. apply IH; [done..| |].
  - apply register_registryInv; [done| |done..]. apply Hfresh. left.
  - intros j' Hj'. simpl. rewrite lookup_insert_ne.
    + apply Hfresh. by right.
    + intros [= <-]. done.
Qed.

Lemma foldl_register_storeOf done file registrationList : ∀ st,
  file ∈ done →
  storeOf done st →
  storeOf done (foldl (register file) st registrationList).
Proof.
  induction registrationList as [|reg l IH]; intros st Hfile H; simpl;
    [done|].
  apply IH; [done|]. intros r Hr. simpl in Hr.
  destruct (decide (r = (file, reg.1))) as [->|Hne]; [done|].
  rewrite lookup_insert_ne in Hr by done. by apply H.
Qed.

Lemma JsObject_elem_get {V} (o : list (string * V)) k v :
  JsObject.wf o → (k, v) ∈ o → JsObject.get o k = Some v.
Proof.
  unfold JsObject.wf.
  induction o as [|[k0 v0] o IH]; simpl; intros Hnd Hin.
  - by apply elem_of_nil in Hin.
  - apply NoDup_cons in Hnd as [Hk0 Hnd].
    apply elem_of_cons in Hin as [[= -> ->]|Hin].
    + by rewrite decide_True.
    + destruct (decide (k0 = k)) as [->|Hne]; [|by apply IH].
      exfalso. apply Hk0. apply list_elem_of_fmap. by exists (k, v).
Qed.

Lemma JsObject_get_Some {V} (o : list (string * V)) k v :
  JsObject.get o k = Some v → (k, v) ∈ o.
Proof.
  induction o as [|[k0 v0] o IH]; simpl; [done|].
  destruct (decide (k0 = k)) as [->|Hne].
  - intros [= ->]. left.
  - intros H. right. by apply IH.
Qed.

(** *** The first pass over the sources *)

Lemma registryInv_ext sources st st' :
  contracts st' = contracts st →
  contractIdToContract st' = contractIdToContract st →
  contractIdToLinearizedBaseContractIds st'
  = contractIdToLinearizedBaseContractIds st →
  registryInv sources st → registryInv sources st'.
Proof. unfold registryInv. by intros -> -> ->. Qed.

(** One source keeps the invariants of the first pass. *)
Lemma applySourceEffects_inv sourceNameToContractToAbi compilerInput sources
  done sourceName source content effects st :
  JsObject.wf sources →
  (sourceName, source) ∈ sources →
  sourceName ∉ done.*1 →
  JsObject.get compilerInput sourceName = Some content →
  nodeEffects (<[so_id source := sourceName]> (fileIdToSourceFile st))
    (sourceNameToContractToAbi !! sourceName) sourceName 0
    (so_nodes source) = Some effects →
  registryInv sources st →
  storeOf done.*1 st →
  Forall (sourceModeled sourceNameToContractToAbi compilerInput st) done →
  let st' :=
    applySourceEffects sourceName content (so_id source) effects st in
  registryInv sources st'
  ∧ storeOf (done ++ [(sourceName, source)]).*1 st'
  ∧ Forall (sourceModeled sourceNameToContractToAbi compilerInput st')
      (done ++ [(sourceName, source)]).
Proof.
  intros Hwf Hin Hnew Hcontent Heff Hinv Hstore Hdone st'.
  subst st'. unfold applySourceEffects.
  set (st0 := mkState _ _ _ _ _ _).
  pose proof (registrations_NoDup effects 0) as Hnd.
  assert (∀ j, contracts st0 !! (sourceName, j) = None) as Hfresh.
  { intros j. simpl.
    destruct (contracts st !! (sourceName, j)) eqn:E; [|done].
    exfalso. apply Hnew. apply (Hstore (sourceName, j)). by eexists. }
  split; [|split].
  - apply foldl_register_registryInv; [done| |by eapply registryInv_ext|done].
    apply Forall_forall. intros [j registration] Hreg.
    destruct (registrations_node _ _ _ _ _ _ _ Heff Hreg)
      as (node & contractType & funcs & Hnode & Hkind & _ & ->).
    exists node. simpl. split; [|done].
    unfold siteNode. simpl.
    rewrite (JsObject_elem_get _ _ _ Hwf Hin). simpl.
    rewrite Hnode. simpl. by rewrite Hkind.
  - rewrite fmap_app. apply foldl_register_storeOf.
    + apply elem_of_app. right. simpl. left.
    + intros r Hr. apply elem_of_app. left. by apply Hstore.
  - destruct (foldl_register_frame sourceName (registrations 0 effects) st0)
      as (Hfiles & _ & _).
    apply Forall_app. split.
    + apply Forall_forall. intros [name src] Hmem.
      assert (name ≠ sourceName) as Hne.
      { intros ->. apply Hnew. apply list_elem_of_fmap.
        by exists (sourceName, src). }
      destruct (proj1 (Forall_forall _ _) Hdone _ Hmem)
        as (content' & fm & effects' & H1 & H2 & H3 & H4 & H5).
      simpl in *.
      exists content', fm, effects'. simpl. do 3 (split; [done|]). split.
      * rewrite Hfiles. simpl. by rewrite lookup_insert_ne.
      * intros j registration Hreg.
        rewrite foldl_register_contracts_other by (left; done).
        simpl. by apply H5.
    + apply Forall_singleton.
      exists content, (<[so_id source := sourceName]> (fileIdToSourceFile st)),
        effects. simpl.
      split; [done|]. split; [apply lookup_insert_eq|]. split; [done|].
      split; [rewrite Hfiles; simpl; apply lookup_insert_eq|].
      intros j registration Hreg.
      by apply foldl_register_contracts.
Qed.

Lemma foldl_register_noAncestors file registrationList : ∀ st,
  Forall (λ registration, c_linearizedBaseContracts registration.2.2 = [])
    registrationList →
  noAncestors st →
  noAncestors (foldl (register file) st registrationList).
Proof.
  induction registrationList as [|reg l IH]; intros st Hall H; simpl; [done|].
  apply Forall_cons in Hall as [Hreg Hall]. apply IH; [done|].
  intros r c. simpl. rewrite lookup_insert. case_decide; [|apply H].
  by intros [= <-].
Qed.

Lemma firstPass_inv sourceNameToContractToAbi compilerInput sources :
  JsObject.wf sources →
  ∀ todo done st st',
    sources = done ++ todo →
    forM (processSource sourceNameToContractToAbi compilerInput) st todo
    = Some st' →
    registryInv sources st →
    storeOf done.*1 st →
    noAncestors st →
    Forall (sourceModeled sourceNameToContractToAbi compilerInput st) done →
    registryInv sources st'
    ∧ storeOf sources.*1 st'
    ∧ noAncestors st'
    ∧ Forall (sourceModeled sourceNameToContractToAbi compilerInput st')
        sources
    ∧ diagnostics st' = diagnostics st.
Proof.
  intros Hwf todo.
  induction todo as [|[sourceName source] todo IH];
    intros done st st' Hs H Hinv Hstore Hno Hdone.
  - injection H as <-. rewrite app_nil_r in Hs. by subst.
  - apply forM_cons_inv in H as (st1 & Hstep & H).
    rewrite processSource_closed in Hstep.
    destruct (JsObject.get compilerInput sourceName) as [content|] eqn:Ec;
      [|done].
    simpl in Hstep.
    destruct (nodeEffects _ _ _ _ _) as [effects|] eqn:Ee; [|done].
    injection Hstep as <-.
    assert (sourceName ∉ done.*1) as Hnew.
    { unfold JsObject.wf in Hwf. rewrite Hs, fmap_app in Hwf.
      apply NoDup_app in Hwf as (_ & Hwf & _).
      intros Hin. apply (Hwf _ Hin). left. }
    assert ((sourceName, source) ∈ sources) as Hin.
    { rewrite Hs. apply elem_of_app. right. left. }
    destruct (applySourceEffects_inv _ _ _ _ _ _ _ _ _ Hwf Hin Hnew Ec Ee
                Hinv Hstore Hdone) as (Hinv' & Hstore' & Hdone').
    assert (sources = (done ++ [(sourceName, source)]) ++ todo) as Heq
      by (by rewrite <- app_assoc).
    set (st1 :=
           applySourceEffects sourceName content (so_id source) effects st)
      in *.
    assert (noAncestors st1) as Hno'.
    { apply foldl_register_noAncestors; [|done].
      apply Forall_forall. intros [j registration] Hreg.
      by destruct (registrations_node _ _ _ _ _ _ _ Ee Hreg)
        as (node & contractType & funcs & _ & _ & _ & ->). }
    destruct (IH _ _ _ Heq H Hinv' Hstore' Hno' Hdone')
      as (? & ? & ? & ? & Hd).
    do 4 (split; [done|]). rewrite Hd. unfold st1, applySourceEffects.
    by rewrite (proj2 (proj2 (foldl_register_frame _ _ _))).
Qed.

Lemma emptyState_inv sourceNameToContractToAbi compilerInput sources :
  registryInv sources emptyState
  ∧ storeOf [] emptyState
  ∧ noAncestors emptyState
  ∧ Forall (sourceModeled sourceNameToContractToAbi compilerInput emptyState)
      [].
Proof.
  split; [|split; [|split]].
  - split; [apply NoDup_nil_2|]. split; [apply NoDup_nil_2|].
    by intros id contract ?%elem_of_nil.
  - intros r [c Hc]. simpl in Hc. by rewrite lookup_empty in Hc.
  - intros r c Hc. simpl in Hc. by rewrite lookup_empty in Hc.
  - constructor.
Qed.

(** *** The second pass *)

Lemma Contract_addLinearizedBaseContracts_nil c :
  Contract_addLinearizedBaseContracts [] c = c.
Proof.
  destruct c. unfold Contract_addLinearizedBaseContracts. simpl.
  by rewrite app_nil_r.
Qed.

Lemma applyInheritanceIds_closed contract inheritanceIds : ∀ st,
  applyInheritanceIds contract st inheritanceIds
  = set_contracts
      (alter
         (Contract_addLinearizedBaseContracts
            (omap (JsMap.get (contractIdToContract st)) inheritanceIds))
         contract (contracts st))
      st.
Proof.
  unfold applyInheritanceIds.
  induction inheritanceIds as [|baseId ids IH]; intros st; simpl.
  - rewrite alter_id by (intros; apply Contract_addLinearizedBaseContracts_nil).
    by destruct st.
  - rewrite IH.
    destruct (JsMap.get (contractIdToContract st) baseId) as [base|];
      [|done].
    unfold set_contracts, addNextLinearizedBaseContract. simpl. f_equal.
    rewrite alter_alter_eq. apply alter_ext. intros c _. simpl.
    unfold Contract_addLinearizedBaseContracts,
      Contract_addNextLinearizedBaseContract. simpl.
    by rewrite <- app_assoc.
Qed.

Lemma applyInheritance_loop entries : ∀ st st',
  forM applyInheritanceOf st entries = Some st' →
  NoDup entries.*2 →
  files st' = files st
  ∧ fileIdToSourceFile st' = fileIdToSourceFile st
  ∧ contractIdToContract st' = contractIdToContract st
  ∧ contractIdToLinearizedBaseContractIds st'
    = contractIdToLinearizedBaseContractIds st
  ∧ diagnostics st' = diagnostics st
  ∧ ∀ contract,
      (contract ∉ entries.*2 →
       contracts st' !! contract = contracts st !! contract)
      ∧ ∀ id,
          (id, contract) ∈ entries →
          ∃ inheritanceIds,
            contractIdToLinearizedBaseContractIds st !! id
            = Some inheritanceIds
            ∧ contracts st' !! contract
              = Contract_addLinearizedBaseContracts
                  (omap (JsMap.get (contractIdToContract st))
                     inheritanceIds)
                  <$> contracts st !! contract.
Proof.
  induction entries as [|[id0 r0] entries IH]; intros st st' H Hnd.
  - injection H as <-. do 5 (split; [done|]). intros r. split; [done|].
    by intros id ?%elem_of_nil.
  - apply forM_cons_inv in H as (st1 & Hstep & H).
    unfold applyInheritanceOf in Hstep. simpl in Hstep.
    destruct (contractIdToLinearizedBaseContractIds st !! id0)
      as [ids0|] eqn:Eids; [|done].
    injection Hstep as <-. rewrite applyInheritanceIds_closed in H.
    simpl in Hnd. apply NoDup_cons in Hnd as [Hr0 Hnd].
    destruct (IH _ _ H Hnd) as (-> & -> & -> & -> & -> & Hc).
    do 5 (split; [done|]). intros r. destruct (Hc r) as [Hout Hin]. split.
    + intros [Hne Hnotin]%not_elem_of_cons. rewrite Hout by done.
      simpl. by rewrite lookup_alter_ne.
    + intros id [[= -> ->]|Hmem]%elem_of_cons.
      * exists ids0. split; [done|]. rewrite Hout by done. simpl.
        by rewrite lookup_alter_eq.
      * destruct (Hin id Hmem) as (ids & Hids & ->).
        exists ids. split; [done|]. simpl.
        rewrite lookup_alter_ne; [done|].
        intros <-. apply Hr0. apply list_elem_of_fmap. by exists (id, r0).
Qed.


Lemma NoDup_values_inj {V} (m : JsMap.t V) k1 k2 v :
  NoDup m.*2 → (k1, v) ∈ m → (k2, v) ∈ m → k1 = k2.
Proof.
  induction m as [|[k0 v0] m IH]; simpl; intros Hnd H1 H2.
  - by apply elem_of_nil in H1.
  - apply NoDup_cons in Hnd as [Hv0 Hnd].
    apply elem_of_cons in H1 as [E1|H1]; apply elem_of_cons in H2 as [E2|H2].
    + congruence.
    + injection E1 as -> ->. exfalso. apply Hv0.
      apply list_elem_of_fmap. by exists (k2, v0).
    + injection E2 as -> ->. exfalso. apply Hv0.
      apply list_elem_of_fmap. by exists (k1, v0).
    + by apply IH.
Qed.

Lemma NoDup_omap_inj {A B} (f : A → option B) l :
  (∀ x y z, f x = Some z → f y = Some z → x = y) →
  NoDup l → NoDup (omap f l).
Proof.
  intros Hinj. induction l as [|x l IH]; simpl; intros Hnd;
    [apply NoDup_nil_2|].
  apply NoDup_cons in Hnd as [Hx Hnd].
  destruct (f x) as [z|] eqn:E; [|by apply IH].
  apply NoDup_cons. split; [|by apply IH].
  intros (y & Hy & Hfy)%list_elem_of_omap.
  by rewrite (Hinj _ _ _ E Hfy) in Hx.
Qed.

(** After the second pass a contract differs from what the first pass
    made of it by its ancestors only. *)
Lemma secondPass_contract st1 st' contract c :
  applyContractsInheritance st1 = Some st' →
  NoDup (contractIdToContract st1).*2 →
  contracts st1 !! contract = Some c →
  ∃ bases,
    contracts st' !! contract
    = Some (Contract_addLinearizedBaseContracts bases c).
Proof.
  unfold applyContractsInheritance, JsMap.entries. intros H Hnd Hc.
  destruct (applyInheritance_loop _ _ _ H Hnd) as (_ & _ & _ & _ & _ & Hcs).
  destruct (Hcs contract) as [Hout Hin].
  destruct (decide (contract ∈ (contractIdToContract st1).*2))
    as [Hmem|Hnot].
  - apply list_elem_of_fmap in Hmem as ([id r] & Heq & Hmem).
    simpl in Heq. subst r.
    destruct (Hin id Hmem) as (ids & _ & ->). rewrite Hc. by eexists.
  - exists []. rewrite Hout by done.
    by rewrite Contract_addLinearizedBaseContracts_nil.
Qed.

(** C3: ancestors are resolved in a second pass, after every source has
    been through the first, which leaves every contract without ancestor.
    For a contract of the contract map, the second pass looks up the ids of
    the linearized base contracts of its definition in the final contract
    map, in the compiler's order; an id that does not resolve is skipped
    without a diagnostic, and the contracts the others resolve to become
    the ancestor list.  The list repeats no contract when the compiler's
    list repeats no id. *)
Theorem ancestors_resolved_in_order compilerOutput compilerInput st' :
  createSourcesModelFromAst compilerOutput compilerInput emptyState
  = Some st' →
  JsObject.wf (out_sources compilerOutput) →
  ∃ st1,
    forM
      (processSource
         (mapOfEntries (mapOfEntries co_abi) (out_contracts compilerOutput))
         compilerInput)
      emptyState (out_sources compilerOutput) = Some st1
    ∧ noAncestors st1
    ∧ applyContractsInheritance st1 = Some st'
    ∧ contractIdToContract st' = contractIdToContract st1
    ∧ diagnostics st' = []
    ∧ ∀ id contract,
        (id, contract) ∈ JsMap.entries (contractIdToContract st') →
        ∃ node c,
          siteNode (out_sources compilerOutput) contract = Some node
          ∧ cd_id node = id
          ∧ contracts st' !! contract = Some c
          ∧ c_linearizedBaseContracts c
            = omap (JsMap.get (contractIdToContract st'))
                (cd_linearizedBaseContracts node)
          ∧ (NoDup (cd_linearizedBaseContracts node) →
             NoDup (c_linearizedBaseContracts c)).
Proof.
  unfold createSourcesModelFromAst. intros H Hwf.
  set (abis := mapOfEntries _ _) in *.
  destruct (forM _ emptyState _) as [st1|] eqn:E1; [|done]. simpl in H.
  exists st1. split; [done|].
  destruct (emptyState_inv abis compilerInput (out_sources compilerOutput))
    as (I1 & I2 & I3 & I4).
  destruct (firstPass_inv abis compilerInput _ Hwf _ [] _ _ eq_refl E1
              I1 I2 I3 I4) as (Hinv & _ & Hno & _ & Hd).
  split; [done|]. split; [done|].
  destruct Hinv as (Hk & Hv & Hreg).
  pose proof H as H'. unfold applyContractsInheritance, JsMap.entries in H'.
  destruct (applyInheritance_loop _ _ _ H' Hv)
    as (_ & _ & Hmap & _ & Hdiag & Hcs).
  split; [done|]. split; [by rewrite Hdiag, Hd|].
  rewrite Hmap. intros id contract Hin.
  destruct (Hreg _ _ Hin) as (node & c & Hsite & Hid & Hids & Hc & Hl).
  destruct (Hcs contract) as [_ Hres].
  destruct (Hres id Hin) as (ids & Hids' & Hc').
  rewrite Hids in Hids'. injection Hids' as <-.
  rewrite Hc in Hc'. simpl in Hc'. eexists node, _.
  split; [done|]. split; [done|]. split; [done|]. simpl. rewrite Hl. simpl.
  split; [done|]. apply NoDup_omap_inj.
  intros id1 id2 r H1%JsMap_get_Some H2%JsMap_get_Some.
  by eapply NoDup_values_inj.
Qed.

(** *** The functions of a file *)

Lemma memberFunctions_function fm contract contractAbi members funcs member :
  memberFunctions fm contract contractAbi members = Some funcs →
  MFunctionDefinition member ∈ members →
  fd_implemented member ≠ Some false →
  ∃ func,
    func ∈ funcs ∧ cf_name func = fd_name member
    ∧ cf_contract func = Some contract.
Proof.
  unfold memberFunctions. intros H Hin Himpl.
  destruct (mapM _ members) as [chunks|] eqn:E; [|done].
  injection H as <-. apply mapM_Some in E.
  apply list_elem_of_lookup in Hin as [k Hk].
  destruct (Forall2_lookup_l _ _ _ _ _ E Hk) as (chunk & Hchunk & Hm).
  simpl in Hm. rewrite decide_False in Hm by done.
  destruct (newContractFunction _ _ _ _) as [func|] eqn:En; [|done].
  injection Hm as <-.
  destruct (newContractFunction_inv _ _ _ _ _ En)
    as (Hname & _ & _ & Hcontract & _).
  exists func. split; [|done].
  apply list_elem_of_In, in_concat. exists [func].
  split; [|by left]. apply list_elem_of_In. by eapply list_elem_of_lookup_2.
Qed.

Lemma nodeEffect_fileChunk fm contractToAbi st file i node effect :
  nodeEffect fm contractToAbi file i node = Some effect →
  (∀ registration,
     ne_contract effect = Some registration →
     ∃ c, contracts st !! (file, i) = Some c
          ∧ c_localFunctions c = c_localFunctions registration.2) →
  fileChunk st file i node (ne_functions effect).
Proof.
  intros H Hc. destruct node as [node|node|?]; simpl in *.
  - destruct (contractKindToContractType _) as [contractType|].
    + destruct (memberFunctions _ _ _ _) as [funcs|] eqn:Em; [|done].
      injection H as <-. simpl in *.
      destruct (Hc _ eq_refl) as (c & Hcs & Hl). simpl in Hl.
      exists c. split; [done|]. split; [done|].
      intros member Hin Himpl. by eapply memberFunctions_function.
    + by injection H as <-.
  - case_decide; [by injection H as <-|].
    destruct (newContractFunction _ _ _ _) as [func|] eqn:En; [|done].
    injection H as <-. simpl. exists func. split; [done|].
    by destruct (newContractFunction_inv _ _ _ _ _ En)
      as (? & _ & _ & ? & _).
  - by injection H as <-.
Qed.

(** C9, as the code has it: the function list of a SourceFile is made of
    the contributions of the nodes of its source, in order.  A function
    definition at file scope contributes its function, which has no owning
    contract, unless it is unimplemented; a modeled contract definition
    contributes all its local functions, so the functions nested in a
    contract are recorded both on the Contract and on the SourceFile. *)
Theorem file_functions_include_contract_functions compilerOutput compilerInput
  st' sourceName source :
  createSourcesModelFromAst compilerOutput compilerInput emptyState
  = Some st' →
  JsObject.wf (out_sources compilerOutput) →
  (sourceName, source) ∈ out_sources compilerOutput →
  ∃ file chunks,
    files st' !! sourceName = Some file
    ∧ sf_sourceName file = sourceName
    ∧ sf_functions file = concat chunks
    ∧ length chunks = length (so_nodes source)
    ∧ ∀ i node chunk,
        so_nodes source !! i = Some node →
        chunks !! i = Some chunk →
        fileChunk st' sourceName i node chunk.
Proof.
  unfold createSourcesModelFromAst. intros H Hwf Hin.
  set (abis := mapOfEntries _ _) in *.
  destruct (forM _ emptyState _) as [st1|] eqn:E1; [|done]. simpl in H.
  destruct (emptyState_inv abis compilerInput (out_sources compilerOutput))
    as (I1 & I2 & I3 & I4).
  destruct (firstPass_inv abis compilerInput _ Hwf _ [] _ _ eq_refl E1
              I1 I2 I3 I4) as (Hinv & _ & _ & Hmodeled & _).
  destruct Hinv as (_ & Hv & _).
  destruct (proj1 (Forall_forall _ _) Hmodeled _ Hin)
    as (content & fm & effects & _ & _ & Heff & Hfile & Hcs).
  simpl in *.
  pose proof H as H'. unfold applyContractsInheritance, JsMap.entries in H'.
  destruct (applyInheritance_loop _ _ _ H' Hv) as (Hfiles & _).
  destruct (nodeEffects_lookup _ _ _ _ _ _ Heff) as [Hlen Hk].
  eexists _, (ne_functions <$> effects). rewrite Hfiles.
  split; [done|]. split; [done|]. split; [done|].
  split; [by rewrite length_fmap|].
  intros i node chunk Hnode Hchunk.
  destruct (Hk i node Hnode) as (effect & He & Hn). simpl in Hn.
  rewrite list_lookup_fmap, He in Hchunk. injection Hchunk as <-.
  eapply nodeEffect_fileChunk; [done|].
  intros registration Hreg.
  assert ((i, registration) ∈ registrations 0 effects) as Hmem.
  { apply elem_of_registrations. by exists i, effect. }
  destruct (secondPass_contract _ _ _ _ H Hv (Hcs _ _ Hmem)) as (bases & ->).
  by eexists.
Qed.

(** C10: the custom errors of a contract are built before its bytecode is
    looked at.  In a build, after the decoding pass, every contract of the
    contract map has the custom errors built from the "error" entries of
    its ABI, in the order of the ABI, whatever its bytecode; when its
    bytecode object is the empty string the pass goes on and no Bytecode
    entity of the result refers to the contract. *)
Theorem custom_errors_of_abstract_contract solcVersion compilerOutput
  compilerInput st bytecodes st' :
  createSourcesModelFromAst compilerOutput compilerInput emptyState
  = Some st →
  JsObject.wf (out_sources compilerOutput) →
  decodeBytecodes solcVersion compilerOutput st = Some (bytecodes, st') →
  ∀ contract,
    contract ∈ JsMap.values (contractIdToContract st) →
    ∃ output c,
      contractOutput compilerOutput contract st = Some output
      ∧ contracts st !! contract = Some c
      ∧ contracts st' !! contract
        = Some
            (Contract_addCustomErrors (abiCustomErrors (co_abi output)) c)
      ∧ (∀ entry customError,
           entry ∈ co_abi output → abi_type entry = "error" →
           CustomError_fromABI (abi_name entry) (abi_inputs entry)
           = Some customError →
           ∃ c', contracts st' !! contract = Some c'
                 ∧ customError ∈ c_customErrors c')
      ∧ (bc_object (co_bytecode output) = "" →
         ∀ bytecode, bytecode ∈ bytecodes → b_contract bytecode ≠ contract).
Proof.
  intros Hbuild Hwf Hdecode contract Hin.
  unfold createSourcesModelFromAst in Hbuild.
  set (abis := mapOfEntries _ _) in *.
  destruct (forM _ emptyState _) as [st1|] eqn:E1; [|done]. simpl in Hbuild.
  destruct (emptyState_inv abis compilerInput (out_sources compilerOutput))
    as (I1 & I2 & I3 & I4).
  destruct (firstPass_inv abis compilerInput _ Hwf _ [] _ _ eq_refl E1
              I1 I2 I3 I4) as (Hinv & _ & _ & Hmodeled & _).
  destruct Hinv as (_ & Hv & _).
  pose proof Hbuild as H'.
  unfold applyContractsInheritance, JsMap.entries in H'.
  destruct (applyInheritance_loop _ _ _ H' Hv) as (_ & _ & Hmap & _).
  assert (NoDup (JsMap.values (contractIdToContract st))) as Hv'
    by (unfold JsMap.values; by rewrite Hmap).
  exact (decodeBytecodes_custom_errors _ _ _ _ _ Hdecode Hv' _ Hin).
Qed.

(** *** Sources in another order *)












Lemma lookup_insertAll_notin `{Countable K} {V} (l : list (K * V)) :
  ∀ (m : gmap K V) k, k ∉ l.*1 → insertAll m l !! k = m !! k.
Proof.
  induction l as [|[k0 v0] l IH]; intros m k Hk; simpl; [done|].
  simpl in Hk. apply not_elem_of_cons in Hk as [Hne Hk].
  rewrite IH by done. by apply lookup_insert_ne.
Qed.

Lemma lookup_insertAll_elem `{Countable K} {V} (l : list (K * V)) :
  ∀ (m : gmap K V) k v,
    NoDup l.*1 → (k, v) ∈ l → insertAll m l !! k = Some v.
Proof.
  induction l as [|[k0 v0] l IH]; intros m k v Hnd Hin; simpl.
  - by apply elem_of_nil in Hin.
  - simpl in Hnd. apply NoDup_cons in Hnd as [Hk0 Hnd].
    apply elem_of_cons in Hin as [[= -> ->]|Hin].
    + rewrite lookup_insertAll_notin by done. apply lookup_insert_eq.
    + by apply IH.
Qed.

Lemma JsMap_set_fresh {V} (m : JsMap.t V) k v :
  k ∉ m.*1 → JsMap.set m k v = m ++ [(k, v)].
Proof.
  induction m as [|[k0 v0] m IH]; simpl; intros Hk; [done|].
  apply not_elem_of_cons in Hk as [Hne Hk].
  rewrite decide_False by done. by rewrite IH.
Qed.

(** Setting fresh keys appends the entries. *)
Lemma setAll_fresh {V} (l : list (Z * V)) : ∀ m : JsMap.t V,
  NoDup (m.*1 ++ l.*1) → setAll m l = m ++ l.
Proof.
  induction l as [|[k v] l IH]; intros m Hnd; simpl.
  - by rewrite app_nil_r.
  - simpl in Hnd.
    rewrite JsMap_set_fresh.
    + rewrite IH; [by rewrite <- app_assoc|].
      by rewrite fmap_app, <- app_assoc.
    + apply NoDup_app in Hnd as (_ & Hnd & _).
      intros Hin. apply (Hnd _ Hin). left.
Qed.

Lemma foldl_register_components file registrationList : ∀ st,
  contracts (foldl (register file) st registrationList)
  = insertAll (contracts st)
      ((λ registration, ((file, registration.1), registration.2.2))
         <$> registrationList)
  ∧ contractIdToContract (foldl (register file) st registrationList)
    = setAll (contractIdToContract st)
        ((λ registration, (registration.2.1.1, (file, registration.1)))
           <$> registrationList)
  ∧ contractIdToLinearizedBaseContractIds
      (foldl (register file) st registrationList)
    = insertAll (contractIdToLinearizedBaseContractIds st)
        ((λ registration, (registration.2.1.1, registration.2.1.2))
           <$> registrationList).
Proof.
  induction registrationList as [|r l IH]; intros st; simpl; [done|].
  by destruct (IH (register file st r)) as (-> & -> & ->).
Qed.







Lemma mapOfEntries_lookup_gen {V W} (f : V → W) (o : list (string * V)) :
  JsObject.wf o →
  ∀ (m : gmap string W) k,
    foldl (λ m e, <[e.1 := f e.2]> m) m o !! k
    = match JsObject.get o k with
      | Some v => Some (f v)
      | None => m !! k
      end.
Proof.
  unfold JsObject.wf.
  induction o as [|[k0 v0] o IH]; intros Hnd m k; simpl; [done|].
  simpl in Hnd. apply NoDup_cons in Hnd as [Hk0 Hnd]. rewrite IH by done.
  destruct (decide (k0 = k)) as [->|Hne].
  - assert (JsObject.get o k = None) as ->.
    { destruct (JsObject.get o k) as [v|] eqn:E; [|done].
      exfalso. apply Hk0. apply JsObject_get_Some in E.
      apply list_elem_of_fmap. by exists (k, v). }
    apply lookup_insert_eq.
  - destruct (JsObject.get o k); [done|]. by apply lookup_insert_ne.
Qed.

Lemma mapOfEntries_lookup {V W} (f : V → W) (o : list (string * V)) k :
  JsObject.wf o → mapOfEntries f o !! k = f <$> JsObject.get o k.
Proof.
  intros Hwf. unfold mapOfEntries. rewrite mapOfEntries_lookup_gen by done.
  destruct (JsObject.get o k); [done|apply lookup_empty].
Qed.




Lemma JsObject_get_wf {V} (o : list (string * list (string * V))) k v :
  Forall (λ e, JsObject.wf e.2) o → JsObject.get o k = Some v →
  JsObject.wf v.
Proof.
  intros Hall Hget%JsObject_get_Some.
  by apply (proj1 (Forall_forall _ _) Hall (k, v)).
Qed.














(** *** The second pass and the decoding pass on the same store *)




Lemma modelsContractBytecode_chunk solcVersion compilerOutput st contract
  output chunk :
  contractOutput compilerOutput contract st = Some output →
  modelsContractBytecode solcVersion (fileIdToSourceFile st) contract output
    chunk →
  chunk = contractChunk solcVersion compilerOutput st contract.
Proof.
  unfold modelsContractBytecode, contractChunk. intros -> H.
  case_decide; [done|]. by destruct H as (d & r & -> & -> & -> & _).
Qed.

Lemma decodeBytecodes_chunks solcVersion compilerOutput st bytecodes st' :
  decodeBytecodes solcVersion compilerOutput st = Some (bytecodes, st') →
  bytecodes
  = concat
      (contractChunk solcVersion compilerOutput st
         <$> JsMap.values (contractIdToContract st)).
Proof.
  unfold decodeBytecodes. intros H.
  apply decodeBytecodes_loop in H as (_ & chunks & -> & Hall). simpl.
  f_equal.
  induction Hall as [|c chunk l chunks (output & Ho & Hm) _ IH]; [done|].
  rewrite fmap_cons. f_equal; [|done].
  by eapply modelsContractBytecode_chunk.
Qed.

Lemma decodeBytecodes_is_Some solcVersion compilerOutput st :
  is_Some (decodeBytecodes solcVersion compilerOutput st)
  ↔ Forall (λ contract, is_Some (contractOutput compilerOutput contract st))
      (JsMap.values (contractIdToContract st)).
Proof.
  split; [|apply decodeBytecodes_loop_total].
  intros [[bs st'] H]. unfold decodeBytecodes in H.
  apply decodeBytecodes_loop in H as (_ & chunks & _ & Hall).
  apply Forall_forall. intros c Hc.
  apply list_elem_of_lookup in Hc as [i Hi].
  destruct (Forall2_lookup_l _ _ _ _ _ Hall Hi) as (chunk & _ & output & Ho & _).
  by eexists.
Qed.





(** *** Failures of the build *)



(** *** Immutable references *)

Lemma foldl_app_concat {A} (l : list (list A)) : ∀ acc,
  foldl (λ previousValue currentValue, previousValue ++ currentValue) acc l
  = acc ++ concat l.
Proof.
  induction l as [|x l IH]; intros acc; simpl.
  - by rewrite app_nil_r.
  - by rewrite IH, <- app_assoc.
Qed.

(** X4: the immutable references of a Bytecode are the references of all
    the keys of [immutableReferences], key after key in the order of the
    object and in their order under a key; there is none when the compiler
    gives no [immutableReferences]. *)
Theorem immutable_references_flattened contract solcVersion isDeployment
  compilerBytecode fm :
  let bytecode :=
    decodeEvmBytecode contract solcVersion isDeployment compilerBytecode fm in
  b_immutableReferences bytecode
  = match bc_immutableReferences compilerBytecode with
    | Some refs => concat refs.*2
    | None => []
    end
  ∧ ∀ reference,
      reference ∈ b_immutableReferences bytecode
      ↔ ∃ refs key references,
          bc_immutableReferences compilerBytecode = Some refs
          ∧ (key, references) ∈ refs ∧ reference ∈ references.
Proof.
  simpl.
  assert (match bc_immutableReferences compilerBytecode with
          | Some refs =>
              foldl
                (λ previousValue currentValue, previousValue ++ currentValue)
                [] refs.*2
          | None => []
          end
          = match bc_immutableReferences compilerBytecode with
            | Some refs => concat refs.*2
            | None => []
            end) as ->.
  { destruct (bc_immutableReferences compilerBytecode); [|done].
    by rewrite foldl_app_concat. }
  split; [done|]. intros reference.
  destruct (bc_immutableReferences compilerBytecode) as [refs|].
  - rewrite list_elem_of_In, in_concat. split.
    + intros (references & Hin & Href).
      apply list_elem_of_In, list_elem_of_fmap in Hin as ([key refs'] & -> & Hin).
      exists refs, key, refs'. split; [done|]. split; [done|].
      by apply list_elem_of_In.
    + intros (refs' & key & references & [= <-] & Hin & Href).
      exists references. split; [|by apply list_elem_of_In].
      apply list_elem_of_In, list_elem_of_fmap. by exists (key, references).
  - split; [by intros H%elem_of_nil|]. by intros (? & ? & ? & ? & _).
Qed.

(** *** Parameter types and selectors *)

Lemma find_matchesSelector_None (abis : list AbiItem) :
  List.find (matchesSelector None) abis = None.
Proof.
  induction abis as [|e abis IH]; simpl; [done|].
  by rewrite matchesSelector_None.
Qed.

(** X7: the parameter types of a function of a contract and its selector
    agree: a function without selector has no parameter types, nor has a
    function of a contract without ABI, and parameter types, when there
    are, hash with the name of the function to its selector. *)
Theorem paramTypes_hash_to_selector file contract contractAbi node st st' :
  processContractMember file contract contractAbi st
    (MFunctionDefinition node) = Some st' →
  fd_implemented node ≠ Some false →
  ∃ func,
    st' = addFunction file func (addLocalFunction contract func st)
    ∧ (cf_selector func = None → cf_paramTypes func = None)
    ∧ (contractAbi = None → cf_paramTypes func = None)
    ∧ ∀ paramTypes,
        cf_paramTypes func = Some paramTypes →
        cf_selector func = Some (methodID (cf_name func) paramTypes).
Proof.
  intros H Himpl. simpl in H.
  apply processFunctionDefinitionAstNode_inv in H as (func & Hf & ->);
    [|done].
  exists func. split; [done|].
  apply newContractFunction_inv in Hf as (Hname & _ & _ & _ & _ & _ & Hp).
  split; [|split].
  - intros Hs. rewrite Hp, Hs.
    destruct contractAbi as [abi|]; simpl; [|done].
    by rewrite find_matchesSelector_None.
  - intros ->. by rewrite Hp.
  - intros paramTypes Hpt. rewrite Hp in Hpt.
    destruct contractAbi as [abi|]; simpl in Hpt; [|done].
    destruct (cf_selector func) as [selector|] eqn:Hs;
      [|by rewrite find_matchesSelector_None in Hpt].
    pose proof (find_filter_selected (fd_name node) selector abi) as Hsel.
    destruct (List.find _ _) as [entry|]; simpl in Hpt; [|done].
    destruct Hsel as (_ & _ & _ & (_ & Hm) & _).
    rewrite Hpt in Hm. simpl in Hm. by rewrite Hname, Hm.
Qed.

(** *** The ABI of a contract definition *)

(** X9: the ABI that the first pass looks up for the contract definition
    [name] of the source [sourceName], through the two maps it fills from
    [compilerOutput.contracts], is
    [compilerOutput.contracts[sourceName][name].abi], and there is none
    exactly when the output has no such file or no such contract in it. *)
Theorem abi_of_contract_definition compilerOutput sourceName name :
  JsObject.wf (out_contracts compilerOutput) →
  Forall (λ e, JsObject.wf e.2) (out_contracts compilerOutput) →
  mapOfEntries (mapOfEntries co_abi) (out_contracts compilerOutput)
    !! sourceName ≫= (.!! name)
  = co_abi
      <$> (JsObject.get (out_contracts compilerOutput) sourceName
             ≫= λ fileContracts, JsObject.get fileContracts name).
Proof.
  intros Hwf Hall. rewrite mapOfEntries_lookup by done.
  destruct (JsObject.get (out_contracts compilerOutput) sourceName)
    as [fileContracts|] eqn:Hget; simpl; [|done].
  apply mapOfEntries_lookup. by eapply JsObject_get_wf.
Qed.

(** *** What the bytecode-decoding pass changes *)

Lemma Contract_addCustomErrors_app errors1 errors2 c :
  Contract_addCustomErrors errors2 (Contract_addCustomErrors errors1 c)
  = Contract_addCustomErrors (errors1 ++ errors2) c.
Proof.
  unfold Contract_addCustomErrors. simpl. by rewrite <- app_assoc.
Qed.

Lemma addsCustomErrors_refl st : addsCustomErrors st st.
Proof.
  do 5 (split; [done|]). intros contract.
  destruct (contracts st !! contract) as [c|]; constructor.
  exists []. by rewrite Contract_addCustomErrors_nil.
Qed.

Lemma addsCustomErrors_trans st1 st2 st3 :
  addsCustomErrors st1 st2 → addsCustomErrors st2 st3 →
  addsCustomErrors st1 st3.
Proof.
  intros (Ha1 & Hb1 & Hc1 & Hd1 & He1 & H1) (Ha2 & Hb2 & Hc2 & Hd2 & He2 & H2).
  split; [congruence|]. split; [congruence|]. split; [congruence|].
  split; [congruence|]. split; [by etrans|]. intros contract.
  specialize (H1 contract). specialize (H2 contract). revert H2.
  destruct H1 as [c1 c2 (errors1 & ->)|]; intros H2;
    inversion H2 as [c2' c3 (errors2 & ->)|]; constructor.
  exists (errors1 ++ errors2). by rewrite Contract_addCustomErrors_app.
Qed.

Lemma processAbiItem_addsCustomErrors contract st abiItem :
  addsCustomErrors st (processAbiItem contract st abiItem).
Proof.
  unfold processAbiItem. case_decide; [|apply addsCustomErrors_refl].
  destruct (CustomError_fromABI _ _) as [customError|].
  - do 4 (split; [done|]). split; [done|]. intros r. simpl.
    rewrite lookup_alter. case_decide as Hr.
    + subst r. destruct (contracts st !! contract) as [c|]; constructor.
      by exists [customError].
    + destruct (contracts st !! r) as [c|]; constructor.
      exists []. by rewrite Contract_addCustomErrors_nil.
  - do 4 (split; [done|]). split; [by apply prefix_app_r|].
    intros r. simpl.
    destruct (contracts st !! r) as [c|]; constructor.
    exists []. by rewrite Contract_addCustomErrors_nil.
Qed.

Lemma foldl_processAbiItem_addsCustomErrors contract contractAbi : ∀ st,
  addsCustomErrors st (foldl (processAbiItem contract) st contractAbi).
Proof.
  induction contractAbi as [|e abi IH]; intros st; simpl.
  - apply addsCustomErrors_refl.
  - eapply addsCustomErrors_trans;
      [apply processAbiItem_addsCustomErrors|apply IH].
Qed.

Lemma decodeBytecodes_loop_addsCustomErrors solcVersion compilerOutput
  contractList :
  ∀ bytecodes0 st0 bytecodes st',
    forM (decodeContract solcVersion compilerOutput) (bytecodes0, st0)
      contractList = Some (bytecodes, st') →
    addsCustomErrors st0 st'.
Proof.
  induction contractList as [|c l IH]; intros bs0 st0 bs st' H.
  - injection H as <- <-. apply addsCustomErrors_refl.
  - apply forM_cons_inv in H as ([bs1 st1] & E & H).
    apply decodeContract_inv in E as (output & chunk & _ & -> & _).
    eapply addsCustomErrors_trans;
      [apply foldl_processAbiItem_addsCustomErrors|by eapply IH].
Qed.

(** X10: the bytecode-decoding pass leaves the source files, the file map,
    the contract map and the recorded base contract ids as they are; it
    creates and removes no contract, and a contract comes out of it as it
    went in but for custom errors added at the end of its list; the log
    only grows. *)
Theorem decoding_only_adds_custom_errors solcVersion compilerOutput st
  bytecodes st' :
  decodeBytecodes solcVersion compilerOutput st = Some (bytecodes, st') →
  files st' = files st
  ∧ fileIdToSourceFile st' = fileIdToSourceFile st
  ∧ contractIdToContract st' = contractIdToContract st
  ∧ contractIdToLinearizedBaseContractIds st'
    = contractIdToLinearizedBaseContractIds st
  ∧ diagnostics st `prefix_of` diagnostics st'
  ∧ ∀ contract,
      match contracts st !! contract, contracts st' !! contract with
      | Some c, Some c' =>
          ∃ errors,
            c' = mkContract (c_name c) (c_type c) (c_location c)
                   (c_localFunctions c) (c_linearizedBaseContracts c)
                   (c_customErrors c ++ errors)
      | None, None => True
      | _, _ => False
      end.
Proof.
  intros H. apply decodeBytecodes_loop_addsCustomErrors in H
    as (Hf & Hm & Hc & Hl & Hd & Hcs).
  do 5 (split; [done|]). intros contract. specialize (Hcs contract).
  by inversion Hcs as [c c' (errors & ->) E1 E2|E1 E2]; [exists errors|].
Qed.

(** *** The log *)

Lemma foldl_processAbiItem_diagnostics contract contractAbi : ∀ st,
  diagnostics (foldl (processAbiItem contract) st contractAbi)
  = diagnostics st ++ abiDiagnostics contractAbi.
Proof.
  induction contractAbi as [|e abi IH]; intros st; simpl.
  - by rewrite app_nil_r.
  - rewrite IH. unfold processAbiItem, abiDiagnostics. simpl.
    fold (abiDiagnostics abi).
    destruct (decide (abi_type e = "error")); [|done].
    destruct (CustomError_fromABI _ _) as [err|]; [done|]. simpl.
    by rewrite <- app_assoc.
Qed.

Lemma decodeBytecodes_loop_diagnostics solcVersion compilerOutput
  contractList :
  ∀ bytecodes0 st0 bytecodes st',
    forM (decodeContract solcVersion compilerOutput) (bytecodes0, st0)
      contractList = Some (bytecodes, st') →
    ∃ outputs,
      Forall2
        (λ contract output,
           contractOutput compilerOutput contract st0 = Some output)
        contractList outputs
      ∧ diagnostics st'
        = diagnostics st0
          ++ concat ((λ output, abiDiagnostics (co_abi output)) <$> outputs).
Proof.
  induction contractList as [|c l IH]; intros bs0 st0 bs st' H.
  - injection H as <- <-. exists []. split; [constructor|].
    by rewrite app_nil_r.
  - apply forM_cons_inv in H as ([bs1 st1] & E & H).
    apply decodeContract_inv in E as (output & chunk & Ho & -> & _).
    apply IH in H as (outputs & Hall & ->).
    exists (output :: outputs). split.
    + constructor; [done|].
      eapply Forall2_impl; [done|]. intros c' output' Ho'. simpl in Ho'.
      rewrite <- Ho'. symmetry. apply contractOutput_keepsIdentity.
      apply foldl_processAbiItem_keepsIdentity.
    + rewrite foldl_processAbiItem_diagnostics. simpl.
      by rewrite <- app_assoc.
Qed.

(** X8: the bytecode-decoding pass logs one message for each "error" entry
    of an ABI from which no custom error can be built, and nothing else:
    the messages follow the contracts of the contract map in order and,
    for a contract, the entries of its ABI in order. *)
Theorem one_diagnostic_per_failing_error solcVersion compilerOutput st
  bytecodes st' :
  decodeBytecodes solcVersion compilerOutput st = Some (bytecodes, st') →
  ∃ outputs,
    Forall2
      (λ contract output,
         contractOutput compilerOutput contract st = Some output)
      (JsMap.values (contractIdToContract st)) outputs
    ∧ diagnostics st'
      = diagnostics st
        ++ concat ((λ output, abiDiagnostics (co_abi output)) <$> outputs).
Proof. apply decodeBytecodes_loop_diagnostics. Qed.

(** *** When the first pass returns *)











(** *** The contracts of the store *)

Lemma siteNode_lookup sources file source j node :
  JsObject.wf sources →
  (file, source) ∈ sources →
  so_nodes source !! j = Some (NContractDefinition node) →
  is_Some (contractKindToContractType (cd_contractKind node)) →
  siteNode sources (file, j) = Some node.
Proof.
  intros Hwf Hin Hnode [contractType Hkind]. unfold siteNode. simpl.
  rewrite (JsObject_elem_get _ _ _ Hwf Hin). simpl. rewrite Hnode. simpl.
  by rewrite Hkind.
Qed.

Lemma siteNode_inv sources contract node :
  siteNode sources contract = Some node →
  ∃ source,
    JsObject.get sources contract.1 = Some source
    ∧ so_nodes source !! contract.2 = Some (NContractDefinition node)
    ∧ is_Some (contractKindToContractType (cd_contractKind node)).
Proof.
  unfold siteNode. intros H.
  destruct (JsObject.get sources contract.1) as [source|]; [|done].
  simpl in H. exists source. split; [done|].
  destruct (so_nodes source !! contract.2) as [[node'|?|?]|]; try done.
  simpl in H.
  destruct (contractKindToContractType (cd_contractKind node')) eqn:E;
    [|done].
  injection H as ->. by split; [|eexists].
Qed.

Lemma applySourceEffects_storeModels sources sourceName source content
  contractToAbi fm effects st :
  JsObject.wf sources →
  (sourceName, source) ∈ sources →
  nodeEffects fm contractToAbi sourceName 0 (so_nodes source)
  = Some effects →
  storeModels sources st →
  storeModels sources
    (applySourceEffects sourceName content (so_id source) effects st).
Proof.
  intros Hwf Hin Heff Hst [file j] c. unfold applySourceEffects.
  set (st0 := mkState _ _ _ _ _ _).
  destruct (decide (file = sourceName)) as [->|Hfile].
  - destruct (decide (j ∈ (registrations 0 effects).*1)) as [Hj|Hj].
    + apply list_elem_of_fmap in Hj as ([j' registration] & -> & Hreg).
      simpl.
      rewrite (foldl_register_contracts _ _ _ _ _
                 (registrations_NoDup effects 0) Hreg).
      intros [= <-].
      destruct (registrations_node _ _ _ _ _ _ _ Heff Hreg)
        as (node & contractType & funcs & Hnode & Hkind & _ & ->).
      exists node. split; [|done].
      by eapply siteNode_lookup; [..|eexists].
    + rewrite foldl_register_contracts_other by (right; done).
      apply Hst.
  - rewrite foldl_register_contracts_other by (left; done). apply Hst.
Qed.

Lemma firstPass_storeModels sourceNameToContractToAbi compilerInput sources :
  JsObject.wf sources →
  ∀ todo st st',
    todo ⊆ sources →
    forM (processSource sourceNameToContractToAbi compilerInput) st todo
    = Some st' →
    storeModels sources st → storeModels sources st'.
Proof.
  intros Hwf todo.
  induction todo as [|[sourceName source] todo IH]; intros st st' Hsub H Hst.
  - by injection H as <-.
  - apply forM_cons_inv in H as (st1 & Hstep & H).
    rewrite processSource_closed in Hstep.
    destruct (JsObject.get compilerInput sourceName) as [content|]; [|done].
    simpl in Hstep.
    destruct (nodeEffects _ _ _ _ _) as [effects|] eqn:Ee; [|done].
    injection Hstep as <-.
    apply (IH _ _ (λ e He, Hsub e (list_elem_of_further _ _ _ He)) H).
    eapply applySourceEffects_storeModels; [done| |done..].
    apply Hsub. left.
Qed.

Lemma secondPass_contract_inv st1 st' contract c' :
  applyContractsInheritance st1 = Some st' →
  NoDup (contractIdToContract st1).*2 →
  contracts st' !! contract = Some c' →
  ∃ c bases,
    contracts st1 !! contract = Some c
    ∧ c' = Contract_addLinearizedBaseContracts bases c.
Proof.
  unfold applyContractsInheritance, JsMap.entries. intros H Hnd Hc'.
  destruct (applyInheritance_loop _ _ _ H Hnd) as (_ & _ & _ & _ & _ & Hcs).
  destruct (Hcs contract) as [Hout Hin].
  destruct (decide (contract ∈ (contractIdToContract st1).*2))
    as [Hmem|Hnot].
  - apply list_elem_of_fmap in Hmem as ([id r] & Heq & Hmem).
    simpl in Heq. subst r.
    destruct (Hin id Hmem) as (ids & _ & Hc). rewrite Hc' in Hc.
    destruct (contracts st1 !! contract) as [c|]; [|done].
    injection Hc as ->. by eexists _, _.
  - rewrite Hout in Hc' by done. exists c', [].
    by rewrite Contract_addLinearizedBaseContracts_nil.
Qed.

(** After the pass that models the sources: the invariants of the first
    pass hold of the state before the ancestors are resolved. *)
Lemma modelPass_inv compilerOutput compilerInput st' :
  createSourcesModelFromAst compilerOutput compilerInput emptyState
  = Some st' →
  JsObject.wf (out_sources compilerOutput) →
  ∃ st1,
    forM
      (processSource
         (mapOfEntries (mapOfEntries co_abi) (out_contracts compilerOutput))
         compilerInput)
      emptyState (out_sources compilerOutput) = Some st1
    ∧ applyContractsInheritance st1 = Some st'
    ∧ registryInv (out_sources compilerOutput) st1
    ∧ storeModels (out_sources compilerOutput) st1
    ∧ Forall
        (sourceModeled
           (mapOfEntries (mapOfEntries co_abi)
              (out_contracts compilerOutput))
           compilerInput st1)
        (out_sources compilerOutput).
Proof.
  unfold createSourcesModelFromAst. intros H Hwf.
  set (abis := mapOfEntries _ _) in *.
  destruct (forM _ emptyState _) as [st1|] eqn:E1; [|done]. simpl in H.
  exists st1. split; [done|]. split; [done|].
  destruct (emptyState_inv abis compilerInput (out_sources compilerOutput))
    as (I1 & I2 & I3 & I4).
  destruct (firstPass_inv abis compilerInput _ Hwf _ [] _ _ eq_refl E1
              I1 I2 I3 I4) as (Hinv & _ & _ & Hmodeled & _).
  split; [done|]. split; [|done].
  eapply (firstPass_storeModels abis compilerInput _ Hwf); [done..|].
  intros r c Hc. simpl in Hc. by rewrite lookup_empty in Hc.
Qed.

Lemma sourceModeled_contract sourceNameToContractToAbi compilerInput st file
  source j node :
  sourceModeled sourceNameToContractToAbi compilerInput st (file, source) →
  so_nodes source !! j = Some (NContractDefinition node) →
  is_Some (contractKindToContractType (cd_contractKind node)) →
  ∃ content functions contractType funcs location,
    files st !! file = Some (mkSourceFile file content functions)
    ∧ contractKindToContractType (cd_contractKind node) = Some contractType
    ∧ contracts st !! (file, j)
      = Some (mkContract (cd_name node) contractType location funcs [] [])
    ∧ (src_fileIndex (cd_src node) = so_id source →
       location
       = Some
           (mkSourceLocation file (src_start (cd_src node))
              (src_length (cd_src node)))).
Proof.
  intros (content & fm & effects & _ & Hfm & Heff & Hfile & Hcs) Hnode
    [contractType Hkind].
  simpl in *.
  destruct (nodeEffects_lookup _ _ _ _ _ _ Heff) as [_ Hk].
  destruct (Hk _ _ Hnode) as (effect & He & Hn). simpl in Hn.
  rewrite Hkind in Hn.
  destruct (memberFunctions _ _ _ _) as [funcs|]; [|done].
  injection Hn as <-.
  exists content, (effectFunctions effects), contractType, funcs,
    (astSrcToSourceLocation (cd_src node) fm).
  split; [done|]. split; [done|]. split.
  - eapply (Hcs j (_, _)). apply elem_of_registrations.
    eexists j, _. by split; [|split].
  - intros Hsrc. unfold astSrcToSourceLocation. by rewrite Hsrc, Hfm.
Qed.

(** X5: after the pass that models the sources, the contracts of the
    store are exactly the contract definitions of kind contract or library
    at the top level of the sources: such a definition has a contract with
    its name and its kind and no custom error yet, and nothing else has a
    contract; an interface has none. *)
Theorem store_holds_modeled_definitions compilerOutput compilerInput st'
  contract :
  createSourcesModelFromAst compilerOutput compilerInput emptyState
  = Some st' →
  JsObject.wf (out_sources compilerOutput) →
  match siteNode (out_sources compilerOutput) contract,
        contracts st' !! contract with
  | Some node, Some c =>
      c_name c = cd_name node
      ∧ contractKindToContractType (cd_contractKind node) = Some (c_type c)
      ∧ c_customErrors c = []
  | None, None => True
  | _, _ => False
  end.
Proof.
  intros H Hwf.
  destruct (modelPass_inv _ _ _ H Hwf)
    as (st1 & _ & H2 & (_ & Hv & _) & Hstore & Hmodeled).
  destruct (siteNode _ contract) as [node|] eqn:Hsite.
  - destruct contract as [file j].
    apply siteNode_inv in Hsite as (source & Hget & Hnode & Hkind).
    simpl in *. apply JsObject_get_Some in Hget.
    destruct (sourceModeled_contract _ _ _ _ _ _ _
                (proj1 (Forall_forall _ _) Hmodeled _ Hget) Hnode Hkind)
      as (content & functions & contractType & funcs & location & _ & Hk
          & Hc & _).
    destruct (secondPass_contract _ _ _ _ H2 Hv Hc) as (bases & ->).
    by simpl.
  - destruct (contracts st' !! contract) as [c'|] eqn:Hc'; [|done].
    destruct (secondPass_contract_inv _ _ _ _ H2 Hv Hc')
      as (c & bases & Hc & _).
    destruct (Hstore _ _ Hc) as (node & Hsite' & _). congruence.
Qed.

(** *** The order of the contract map *)

Lemma registrations_nodeEntries fm contractToAbi file nodes : ∀ i effects,
  nodeEffects fm contractToAbi file i nodes = Some effects →
  (λ registration, (registration.2.1.1, (file, registration.1)))
    <$> registrations i effects
  = nodeEntries file i nodes.
Proof.
  induction nodes as [|node nodes IH]; intros i effects H; simpl in H.
  - by injection H as <-.
  - destruct (nodeEffect _ _ _ _ _) as [effect|] eqn:En; [|done].
    simpl in H.
    destruct (nodeEffects _ _ _ _ _) as [effects'|] eqn:Es; [|done].
    injection H as <-. simpl. rewrite fmap_app, (IH _ _ Es). f_equal.
    destruct node as [node|node|?]; simpl in *.
    + destruct (contractKindToContractType _).
      * destruct (memberFunctions _ _ _ _); [|done]. by injection En as <-.
      * by injection En as <-.
    + case_decide; [by injection En as <-|].
      destruct (newContractFunction _ _ _ _); [|done]. by injection En as <-.
    + by injection En as <-.
Qed.

Lemma nodeEntries_ids file nodes : ∀ i,
  (nodeEntries file i nodes).*1 = omap modeledContractId nodes.
Proof.
  induction nodes as [|node nodes IH]; intros i; simpl; [done|].
  rewrite fmap_app, IH. by destruct (modeledContractId node).
Qed.

Lemma modeledEntries_ids sources :
  (modeledEntries sources).*1 = contractIds sources.
Proof.
  unfold modeledEntries, contractIds.
  induction sources as [|entry sources IH]; [done|].
  rewrite !fmap_cons. cbn [concat]. rewrite fmap_app, nodeEntries_ids.
  by f_equal.
Qed.

Lemma elem_of_nodeEntries file nodes : ∀ i j node id,
  nodes !! j = Some node → modeledContractId node = Some id →
  (id, (file, (i + j)%nat)) ∈ nodeEntries file i nodes.
Proof.
  induction nodes as [|node' nodes IH]; intros i j node id Hj Hid; [done|].
  simpl. destruct j as [|j]; simpl in Hj.
  - injection Hj as ->. rewrite Hid, Nat.add_0_r. left.
  - apply elem_of_app. right. rewrite <- Nat.add_succ_comm. by eapply IH.
Qed.

Lemma firstPass_contractMap sourceNameToContractToAbi compilerInput sources :
  ∀ st st',
    forM (processSource sourceNameToContractToAbi compilerInput) st sources
    = Some st' →
    NoDup ((contractIdToContract st).*1 ++ contractIds sources) →
    contractIdToContract st' = contractIdToContract st ++ modeledEntries sources.
Proof.
  induction sources as [|[sourceName source] sources IH]; intros st st' H Hnd.
  - injection H as <-. by rewrite app_nil_r.
  - apply forM_cons_inv in H as (st1 & Hstep & H).
    rewrite processSource_closed in Hstep.
    destruct (JsObject.get compilerInput sourceName) as [content|]; [|done].
    simpl in Hstep.
    destruct (nodeEffects _ _ _ _ _) as [effects|] eqn:Ee; [|done].
    injection Hstep as <-.
    unfold contractIds in Hnd. simpl in Hnd.
    fold (contractIds sources) in Hnd. rewrite app_assoc in Hnd.
    assert (contractIdToContract
              (applySourceEffects sourceName content (so_id source) effects
                 st)
            = contractIdToContract st
              ++ nodeEntries sourceName 0 (so_nodes source)) as Hmap.
    { unfold applySourceEffects.
      rewrite (proj1 (proj2 (foldl_register_components _ _ _))). simpl.
      rewrite (registrations_nodeEntries _ _ _ _ _ _ Ee).
      apply setAll_fresh. rewrite nodeEntries_ids.
      by apply NoDup_app in Hnd as (Hnd & _). }
    rewrite (IH _ _ H).
    + rewrite Hmap. unfold modeledEntries. simpl. by rewrite <- app_assoc.
    + by rewrite Hmap, fmap_app, nodeEntries_ids.
Qed.

Lemma modelPass_contractMap compilerOutput compilerInput st :
  createSourcesModelFromAst compilerOutput compilerInput emptyState
  = Some st →
  JsObject.wf (out_sources compilerOutput) →
  NoDup (contractIds (out_sources compilerOutput)) →
  contractIdToContract st = modeledEntries (out_sources compilerOutput).
Proof.
  intros H Hwf Hnd.
  destruct (modelPass_inv _ _ _ H Hwf)
    as (st1 & H1 & H2 & (_ & Hv & _) & _).
  unfold applyContractsInheritance, JsMap.entries in H2.
  destruct (applyInheritance_loop _ _ _ H2 Hv) as (_ & _ & -> & _).
  by rewrite (firstPass_contractMap _ _ _ _ _ H1).
Qed.

(** X6: when the compiler output gives every contract definition its own
    id, the contract map enumerates the contract definitions of kind
    contract or library in the order of the sources and, in a source, of
    its nodes; the Bytecode entities of the result follow this order,
    deployment before runtime for each contract that has bytecode. *)
Theorem bytecodes_follow_the_sources solcVersion compilerOutput
  compilerInput st :
  createSourcesModelFromAst compilerOutput compilerInput emptyState
  = Some st →
  JsObject.wf (out_sources compilerOutput) →
  NoDup (contractIds (out_sources compilerOutput)) →
  contractIdToContract st = modeledEntries (out_sources compilerOutput)
  ∧ ∀ bytecodes st',
      decodeBytecodes solcVersion compilerOutput st
      = Some (bytecodes, st') →
      bytecodes
      = concat
          (contractChunk solcVersion compilerOutput st
             <$> (modeledEntries (out_sources compilerOutput)).*2).
Proof.
  intros H Hwf Hnd.
  pose proof (modelPass_contractMap _ _ _ H Hwf Hnd) as Hmap.
  split; [done|]. intros bytecodes st' Hd.
  apply decodeBytecodes_chunks in Hd. unfold JsMap.values in Hd.
  by rewrite Hmap in Hd.
Qed.

(** *** A contract without compiler output *)

(** X3: the build throws when a contract definition of kind contract or
    library has no entry [compilerOutput.contracts[sourceName][name]],
    whatever its bytecode would be: with the ids and file indices the
    compiler gives, the contract is in the contract map and the decoding
    pass reads the [evm] of [undefined]. *)
Theorem missing_contract_output_throws solcVersion compilerInput
  compilerOutput sourceName source node :
  JsObject.wf (out_sources compilerOutput) →
  NoDup (contractIds (out_sources compilerOutput)) →
  (sourceName, source) ∈ out_sources compilerOutput →
  NContractDefinition node ∈ so_nodes source →
  is_Some (contractKindToContractType (cd_contractKind node)) →
  src_fileIndex (cd_src node) = so_id source →
  JsObject.get (out_contracts compilerOutput) sourceName
    ≫= (λ fileContracts, JsObject.get fileContracts (cd_name node))
  = None →
  createModelsAndDecodeBytecodes solcVersion compilerInput compilerOutput
  = None.
Proof.
  intros Hwf Hnd Hin Hnode Hkind Hsrc Hout.
  unfold createModelsAndDecodeBytecodes.
  destruct (createSourcesModelFromAst _ _ _) as [st|] eqn:H; [|done].
  simpl.
  destruct (decodeBytecodes _ _ _) as [[bytecodes st']|] eqn:Hd; [|done].
  exfalso.
  apply list_elem_of_lookup in Hnode as [j Hj].
  destruct (modelPass_inv _ _ _ H Hwf)
    as (st1 & _ & H2 & (_ & Hv & _) & _ & Hmodeled).
  destruct (sourceModeled_contract _ _ _ _ _ _ _
              (proj1 (Forall_forall _ _) Hmodeled _ Hin) Hj Hkind)
    as (content & functions & contractType & funcs & location & Hfile & Hk
        & Hc & Hloc).
  destruct (secondPass_contract _ _ _ _ H2 Hv Hc) as (bases & Hc').
  pose proof H2 as H2'.
  unfold applyContractsInheritance, JsMap.entries in H2'.
  destruct (applyInheritance_loop _ _ _ H2' Hv) as (Hfiles & _).
  assert ((sourceName, j) ∈ JsMap.values (contractIdToContract st)) as Hmem.
  { rewrite (modelPass_contractMap _ _ _ H Hwf Hnd).
    apply list_elem_of_fmap. exists (cd_id node, (sourceName, j)).
    split; [done|]. apply list_elem_of_In, in_concat.
    exists (nodeEntries sourceName 0 (so_nodes source)). split.
    - apply list_elem_of_In, list_elem_of_fmap.
      by exists (sourceName, source).
    - apply list_elem_of_In.
      apply (elem_of_nodeEntries _ _ 0 _ _ _ Hj). simpl.
      destruct Hkind as [? ->]. done. }
  assert (is_Some (decodeBytecodes solcVersion compilerOutput st)) as Hsome
    by (by eexists).
  apply decodeBytecodes_is_Some in Hsome.
  destruct (proj1 (Forall_forall _ _) Hsome _ Hmem) as [output Ho].
  unfold contractOutput in Ho. rewrite Hc' in Ho. simpl in Ho.
  rewrite (Hloc Hsrc) in Ho. simpl in Ho.
  rewrite Hfiles, Hfile in Ho. simpl in Ho. by rewrite Hout in Ho.
Qed.

(** *** The ancestors of a contract *)

(** X11: an ancestor of a contract of the contract map is itself a
    contract of the contract map, made from a contract definition of kind
    contract or library whose id is among the base contract ids of the
    definition, so that no interface is an ancestor; and a contract whose
    list of base contract ids starts with its own id, as the compiler's
    linearization does, is the first of its own ancestors. *)
Theorem ancestors_are_modeled_contracts compilerOutput compilerInput st' id
  contract :
  createSourcesModelFromAst compilerOutput compilerInput emptyState
  = Some st' →
  JsObject.wf (out_sources compilerOutput) →
  (id, contract) ∈ JsMap.entries (contractIdToContract st') →
  ∃ node c,
    siteNode (out_sources compilerOutput) contract = Some node
    ∧ contracts st' !! contract = Some c
    ∧ (∀ base,
         base ∈ c_linearizedBaseContracts c →
         ∃ baseId baseNode,
           baseId ∈ cd_linearizedBaseContracts node
           ∧ (baseId, base) ∈ JsMap.entries (contractIdToContract st')
           ∧ siteNode (out_sources compilerOutput) base = Some baseNode
           ∧ cd_id baseNode = baseId
           ∧ is_Some
               (contractKindToContractType (cd_contractKind baseNode))
           ∧ is_Some (contracts st' !! base))
    ∧ (head (cd_linearizedBaseContracts node) = Some id →
       head (c_linearizedBaseContracts c) = Some contract).
Proof.
  intros H Hwf Hin.
  destruct (modelPass_inv _ _ _ H Hwf)
    as (st1 & _ & H2 & (Hk & Hv & Hreg) & _).
  pose proof H2 as H2'.
  unfold applyContractsInheritance, JsMap.entries in H2'.
  destruct (applyInheritance_loop _ _ _ H2' Hv)
    as (_ & _ & Hmap & _ & _ & Hcs).
  unfold JsMap.entries in *. rewrite Hmap in *.
  destruct (Hreg _ _ Hin) as (node & c & Hsite & Hid & Hids & Hc & Hl).
  destruct (Hcs contract) as [_ Hres].
  destruct (Hres id Hin) as (ids & Hids' & Hc').
  rewrite Hids in Hids'. injection Hids' as <-.
  rewrite Hc in Hc'. simpl in Hc'. eexists node, _.
  split; [done|]. split; [done|]. simpl. rewrite Hl. simpl. split.
  - intros base (baseId & Hmem & Hget%JsMap_get_Some)%list_elem_of_omap.
    destruct (Hreg _ _ Hget)
      as (baseNode & baseC & Hbsite & Hbid & _ & Hbc & _).
    exists baseId, baseNode. do 4 (split; [done|]). split.
    + by apply siteNode_inv in Hbsite as (_ & _ & _ & ?).
    + destruct (secondPass_contract _ _ _ _ H2 Hv Hbc) as (bases & ->).
      by eexists.
  - destruct (cd_linearizedBaseContracts node) as [|id0 ids]; [done|].
    intros [= ->]. simpl.
    by rewrite (JsMap_elem_get _ _ _ Hk Hin).
Qed.

(** *** The source files *)

Lemma firstPass_fileMap sourceNameToContractToAbi compilerInput sources :
  ∀ st st',
    forM (processSource sourceNameToContractToAbi compilerInput) st sources
    = Some st' →
    fileIdToSourceFile st'
    = insertAll (fileIdToSourceFile st)
        ((λ entry, (so_id entry.2, entry.1)) <$> sources).
Proof.
  induction sources as [|[sourceName source] sources IH]; intros st st' H.
  - by injection H as <-.
  - apply forM_cons_inv in H as (st1 & Hstep & H).
    rewrite processSource_closed in Hstep.
    destruct (JsObject.get compilerInput sourceName) as [content|]; [|done].
    simpl in Hstep.
    destruct (nodeEffects _ _ _ _ _) as [effects|]; [|done].
    injection Hstep as <-. rewrite (IH _ _ H). simpl. f_equal.
    unfold applySourceEffects.
    by rewrite (proj1 (proj2 (foldl_register_frame _ _ _))).
Qed.

(** X18: after the pass that models the sources, every source of the
    compiler output has a SourceFile with its name and with the content
    that the compiler input has for it; when the sources have ids of their
    own, the file map sends the id of the source to this file. *)
Theorem source_files_registered compilerOutput compilerInput st' sourceName
  source :
  createSourcesModelFromAst compilerOutput compilerInput emptyState
  = Some st' →
  JsObject.wf (out_sources compilerOutput) →
  (sourceName, source) ∈ out_sources compilerOutput →
  ∃ content file,
    JsObject.get compilerInput sourceName = Some content
    ∧ files st' !! sourceName = Some file
    ∧ sf_sourceName file = sourceName
    ∧ sf_content file = content
    ∧ (NoDup ((λ entry, so_id entry.2) <$> out_sources compilerOutput) →
       fileIdToSourceFile st' !! so_id source = Some sourceName).
Proof.
  intros H Hwf Hin.
  destruct (modelPass_inv _ _ _ H Hwf)
    as (st1 & H1 & H2 & (_ & Hv & _) & _ & Hmodeled).
  unfold applyContractsInheritance, JsMap.entries in H2.
  destruct (applyInheritance_loop _ _ _ H2 Hv) as (-> & -> & _).
  destruct (proj1 (Forall_forall _ _) Hmodeled _ Hin)
    as (content & fm & effects & Hc & _ & _ & Hfile & _).
  simpl in *. eexists content, _. do 2 (split; [done|]).
  do 2 (split; [done|]). intros Hnd.
  rewrite (firstPass_fileMap _ _ _ _ _ H1).
  apply lookup_insertAll_elem.
  - by rewrite <- list_fmap_compose.
  - apply list_elem_of_fmap. by exists (sourceName, source).
Qed.

End Build.

(** ** The properties on the samples *)

Lemma unimplemented_function_skipped_witness :
  fd_implemented Sample.audit = Some false
  ∧ processFunctionDefinitionAstNode Sample.astVisibilityToVisibility
      Sample.isContractType Sample.isEnumType Sample.toCanonicalAbiType
      Sample.methodID Sample.Buffer_from_hex Sample.audit
      (Some ("Vault.sol", 1%nat)) "Vault.sol" (Some Sample.vaultAbi)
      Sample.vaultFileState
    = Some Sample.vaultFileState.
Proof.
  split; [reflexivity|].
  apply (unimplemented_function_skipped Sample.astVisibilityToVisibility
           Sample.isContractType Sample.isEnumType Sample.toCanonicalAbiType
           Sample.methodID Sample.Buffer_from_hex Sample.audit).
  reflexivity.
Defined.


Lemma selector_explicit_or_canonical_hash_witness :
  ∃ st' func,
    processFunctionDefinitionAstNode Sample.astVisibilityToVisibility
      Sample.isContractType Sample.isEnumType Sample.toCanonicalAbiType
      Sample.methodID Sample.Buffer_from_hex Sample.deposit
      (Some ("Vault.sol", 1%nat)) "Vault.sol" None Sample.vaultFileState
    = Some st'
    ∧ fd_implemented Sample.deposit ≠ Some false
    ∧ st' = addFunction "Vault.sol" func
              (addLocalFunction ("Vault.sol", 1%nat) func
                 Sample.vaultFileState)
    ∧ ∀ selector,
        cf_selector func = Some selector →
        ∃ paramTypes,
          Forall2
            (canonicalParamType Sample.isContractType Sample.isEnumType
               Sample.toCanonicalAbiType)
            (fd_parameters Sample.deposit) paramTypes
          ∧ selector = Sample.methodID "deposit" paramTypes.
Proof.
  destruct
    (processFunctionDefinitionAstNode Sample.astVisibilityToVisibility
       Sample.isContractType Sample.isEnumType Sample.toCanonicalAbiType
       Sample.methodID Sample.Buffer_from_hex Sample.deposit
       (Some ("Vault.sol", 1%nat)) "Vault.sol" None Sample.vaultFileState)
    as [st'|] eqn:E; [|vm_compute in E; discriminate].
  assert (fd_implemented Sample.deposit ≠ Some false) as Himpl
    by (vm_compute; discriminate).
  destruct (selector_explicit_or_canonical_hash _ _ _ _ _ _ _ _ _ _ _ _ E
              Himpl) as (func & _ & Hst & Hsel).
  exists st', func. split; [done|]. split; [done|]. split; [done|].
  intros selector Hs. exact (Hsel selector Hs).
Defined.

Lemma overload_matched_by_selector_witness :
  ∃ st' func,
    processContractMember Sample.astVisibilityToVisibility
      Sample.isContractType Sample.isEnumType Sample.toCanonicalAbiType
      Sample.methodID Sample.Buffer_from_hex Sample.modifierFunction
      Sample.getterFunction "Vault.sol" ("Vault.sol", 1%nat)
      (Some Sample.vaultAbi) Sample.vaultFileState
      (MFunctionDefinition Sample.withdrawTo)
    = Some st'
    ∧ fd_implemented Sample.withdrawTo ≠ Some false
    ∧ st' = addFunction "Vault.sol" func
              (addLocalFunction ("Vault.sol", 1%nat) func
                 Sample.vaultFileState)
    ∧ cf_name func = "withdraw"
    ∧ match cf_selector func with
      | Some selector =>
          (∃ entry,
             selectedAbiEntry Sample.methodID Sample.vaultAbi "withdraw"
               selector entry
             ∧ cf_paramTypes func = declaredTypes entry)
          ∨ (Forall
               (λ e, ¬ abiEntryMatches Sample.methodID "withdraw" selector e)
               Sample.vaultAbi
             ∧ cf_paramTypes func = None)
      | None => cf_paramTypes func = None
      end.
Proof.
  destruct
    (processContractMember Sample.astVisibilityToVisibility
       Sample.isContractType Sample.isEnumType Sample.toCanonicalAbiType
       Sample.methodID Sample.Buffer_from_hex Sample.modifierFunction
       Sample.getterFunction "Vault.sol" ("Vault.sol", 1%nat)
       (Some Sample.vaultAbi) Sample.vaultFileState
       (MFunctionDefinition Sample.withdrawTo))
    as [st'|] eqn:E; [|vm_compute in E; discriminate].
  assert (fd_implemented Sample.withdrawTo ≠ Some false) as Himpl
    by (vm_compute; discriminate).
  destruct (overload_matched_by_selector _ _ _ _ _ _ _ _ _ _ _ _ _ _ E Himpl)
    as (func & Hst & Hname & Hsel).
  exists st', func. split; [done|]. split; [done|]. split; [done|].
  split; [exact Hname|exact Hsel].
Defined.

(** The whole build on the samples. *)
Abbreviation sampleFirstPasses compilerOutput compilerInput :=
  (createSourcesModelFromAst Sample.astVisibilityToVisibility
     Sample.isContractType Sample.isEnumType Sample.toCanonicalAbiType
     Sample.methodID Sample.Buffer_from_hex Sample.modifierFunction
     Sample.getterFunction compilerOutput compilerInput emptyState).

Abbreviation sampleDecodeBytecodes compilerOutput st :=
  (decodeBytecodes Sample.CustomError_fromABI
     Sample.getLibraryAddressPositions
     Sample.normalizeCompilerOutputBytecode Sample.decodeInstructions
     "0.8.20" compilerOutput st).

Ltac compute_goal := vm_compute; reflexivity.
Ltac decide_goal := refine (bool_decide_unpack _ _); vm_compute; exact I.

Lemma abstract_contract_or_two_bytecodes_witness :
  ∃ st bytecodes st',
    sampleFirstPasses Sample.compilerOutput Sample.compilerInput = Some st
    ∧ sampleDecodeBytecodes Sample.compilerOutput st = Some (bytecodes, st')
    ∧ ∃ chunks,
        bytecodes = concat chunks
        ∧ Forall2
            (λ contract chunk,
               ∃ output,
                 contractOutput Sample.compilerOutput contract st
                 = Some output
                 ∧ modelsContractBytecode Sample.getLibraryAddressPositions
                     Sample.normalizeCompilerOutputBytecode
                     Sample.decodeInstructions "0.8.20"
                     (fileIdToSourceFile st) contract output chunk
                 ∧ if decide (bc_object (co_bytecode output) = "")
                   then length chunk = 0%nat else length chunk = 2%nat)
            (JsMap.values (contractIdToContract st)) chunks.
Proof.
  eexists _, _, _. split; [compute_goal|]. split; [compute_goal|].
  eapply (proj2
            (abstract_contract_or_two_bytecodes Sample.CustomError_fromABI
               Sample.getLibraryAddressPositions
               Sample.normalizeCompilerOutputBytecode
               Sample.decodeInstructions "0.8.20" Sample.compilerOutput _)).
  compute_goal.
Defined.

Lemma custom_errors_of_abstract_contract_witness :
  ∃ st bytecodes st' output c,
    sampleFirstPasses Sample.compilerOutput Sample.compilerInput = Some st
    ∧ JsObject.wf (out_sources Sample.compilerOutput)
    ∧ sampleDecodeBytecodes Sample.compilerOutput st = Some (bytecodes, st')
    ∧ ("Base.sol", 2%nat) ∈ JsMap.values (contractIdToContract st)
    ∧ contractOutput Sample.compilerOutput ("Base.sol", 2%nat) st
      = Some output
    ∧ bc_object (co_bytecode output) = ""
    ∧ contracts st !! ("Base.sol", 2%nat) = Some c
    ∧ contracts st' !! ("Base.sol", 2%nat)
      = Some
          (Contract_addCustomErrors
             (abiCustomErrors Sample.CustomError_fromABI (co_abi output)) c)
    ∧ ∀ bytecode,
        bytecode ∈ bytecodes → b_contract bytecode ≠ ("Base.sol", 2%nat).
Proof.
  eassert (sampleFirstPasses Sample.compilerOutput Sample.compilerInput
           = Some _) as H1 by compute_goal.
  assert (JsObject.wf (out_sources Sample.compilerOutput)) as Hwf
    by decide_goal.
  match type of H1 with
  | _ = Some ?st =>
      eassert (sampleDecodeBytecodes Sample.compilerOutput st = Some (_, _))
        as H2 by compute_goal;
      assert (("Base.sol", 2%nat) ∈ JsMap.values (contractIdToContract st))
        as H4 by decide_goal
  end.
  destruct (custom_errors_of_abstract_contract _ _ _ _ _ _ _ _ _ _ _ _ _ _
              _ _ _ _ H1 Hwf H2 _ H4)
    as (output & c & Ho & Hc & Hc' & _ & Hb).
  eexists _, _, _, output, c. split; [exact H1|]. split; [exact Hwf|].
  split; [exact H2|]. split; [exact H4|]. split; [exact Ho|].
  assert (bc_object (co_bytecode output) = "") as Hempty.
  { vm_compute in Ho. by injection Ho as <-. }
  split; [exact Hempty|]. split; [exact Hc|]. split; [exact Hc'|].
  exact (Hb Hempty).
Defined.

Lemma failing_custom_error_skipped_witness :
  ∃ output entry,
    JsObject.get (out_contracts Sample.compilerOutput) "Vault.sol"
      ≫= (λ fileContracts, JsObject.get fileContracts "Vault")
    = Some output
    ∧ co_abi output !! 3%nat = Some entry
    ∧ abi_type entry = "error"
    ∧ Sample.CustomError_fromABI (abi_name entry) (abi_inputs entry) = None
    ∧ ∀ st,
        match
          sampleDecodeBytecodes Sample.compilerOutput st,
          sampleDecodeBytecodes
            (withoutAbiEntry Sample.compilerOutput "Vault.sol" "Vault" 3) st
        with
        | Some (bytecodes1, st1), Some (bytecodes2, st2) =>
            bytecodes1 = bytecodes2
            ∧ sameModel st1 st2
            ∧ sublist (diagnostics st2) (diagnostics st1)
        | None, None => True
        | _, _ => False
        end.
Proof.
  eassert (JsObject.get (out_contracts Sample.compilerOutput) "Vault.sol"
             ≫= (λ fileContracts, JsObject.get fileContracts "Vault")
           = Some _) as H1 by compute_goal.
  match type of H1 with
  | _ = Some ?output =>
      eassert (co_abi output !! 3%nat = Some _) as H2 by compute_goal
  end.
  match type of H2 with
  | _ = Some ?entry =>
      assert (abi_type entry = "error") as H3 by compute_goal;
      assert (Sample.CustomError_fromABI (abi_name entry) (abi_inputs entry)
              = None) as H4 by compute_goal
  end.
  eexists _, _. split; [exact H1|]. split; [exact H2|]. split; [exact H3|].
  split; [exact H4|].
  exact (proj2
           (failing_custom_error_skipped Sample.CustomError_fromABI
              Sample.getLibraryAddressPositions
              Sample.normalizeCompilerOutputBytecode
              Sample.decodeInstructions "0.8.20" Sample.compilerOutput
              "Vault.sol" "Vault" 3 _ _ H1 H2 H3 H4)).
Defined.

Lemma ancestors_resolved_in_order_witness :
  ∃ st' c,
    sampleFirstPasses Sample.compilerOutput Sample.compilerInput = Some st'
    ∧ JsObject.wf (out_sources Sample.compilerOutput)
    ∧ (7, ("Vault.sol", 1%nat)) ∈ JsMap.entries (contractIdToContract st')
    ∧ diagnostics st' = []
    ∧ contracts st' !! ("Vault.sol", 1%nat) = Some c
    ∧ c_linearizedBaseContracts c
      = omap (JsMap.get (contractIdToContract st')) [7; 3; 99]
    ∧ NoDup (c_linearizedBaseContracts c).
Proof.
  eassert (sampleFirstPasses Sample.compilerOutput Sample.compilerInput
           = Some _) as H1 by compute_goal.
  assert (JsObject.wf (out_sources Sample.compilerOutput)) as H2
    by decide_goal.
  destruct (ancestors_resolved_in_order _ _ _ _ _ _ _ _ _ _ _ H1 H2)
    as (st1 & _ & _ & _ & _ & Hd & Hres).
  match type of H1 with
  | _ = Some ?st =>
      assert ((7, ("Vault.sol", 1%nat))
              ∈ JsMap.entries (contractIdToContract st)) as H3
        by decide_goal
  end.
  destruct (Hres _ _ H3) as (node & c & Hsite & _ & Hc & Hl & Hnd).
  vm_compute in Hsite. injection Hsite as <-.
  eexists _, c. split; [exact H1|]. split; [exact H2|]. split; [exact H3|].
  split; [exact Hd|]. split; [exact Hc|]. split; [exact Hl|].
  apply Hnd. decide_goal.
Defined.

(** C3, as stated, fails where the compiler's list repeats an id: the
    contract is appended once per occurrence. *)
Lemma ancestors_repeat_counterexample :
  ∃ st' c,
    sampleFirstPasses Sample.repeatingOutput Sample.repeatingInput = Some st'
    ∧ JsObject.wf (out_sources Sample.repeatingOutput)
    ∧ (1, ("A.sol", 0%nat)) ∈ JsMap.entries (contractIdToContract st')
    ∧ contracts st' !! ("A.sol", 0%nat) = Some c
    ∧ c_linearizedBaseContracts c = [("A.sol", 0%nat); ("A.sol", 0%nat)]
    ∧ ¬ NoDup (c_linearizedBaseContracts c).
Proof.
  eexists _, _. split; [compute_goal|]. split; [decide_goal|].
  split; [decide_goal|]. split; [compute_goal|]. split; [reflexivity|].
  simpl. intros Hnd. apply NoDup_cons in Hnd as [Hnotin _].
  apply Hnotin. left.
Qed.

Lemma file_functions_include_contract_functions_witness :
  ∃ st' file chunks,
    sampleFirstPasses Sample.compilerOutput Sample.compilerInput = Some st'
    ∧ JsObject.wf (out_sources Sample.compilerOutput)
    ∧ ("Vault.sol",
       mkCompilerOutputSource 0
         [NFunctionDefinition Sample.helper;
          NContractDefinition Sample.vault])
      ∈ out_sources Sample.compilerOutput
    ∧ files st' !! "Vault.sol" = Some file
    ∧ sf_functions file = concat chunks
    ∧ length chunks = 2%nat
    ∧ ∀ i node chunk,
        [NFunctionDefinition Sample.helper; NContractDefinition Sample.vault]
          !! i = Some node →
        chunks !! i = Some chunk →
        fileChunk st' "Vault.sol" i node chunk.
Proof.
  eassert (sampleFirstPasses Sample.compilerOutput Sample.compilerInput
           = Some _) as H1 by compute_goal.
  assert (JsObject.wf (out_sources Sample.compilerOutput)) as H2
    by decide_goal.
  assert (("Vault.sol",
           mkCompilerOutputSource 0
             [NFunctionDefinition Sample.helper;
              NContractDefinition Sample.vault])
          ∈ out_sources Sample.compilerOutput) as H3 by left.
  destruct (file_functions_include_contract_functions _ _ _ _ _ _ _ _ _ _ _
              _ _ H1 H2 H3) as (file & chunks & Hf & _ & Hfs & Hlen & Hch).
  eexists _, file, chunks. split; [exact H1|]. split; [exact H2|].
  split; [exact H3|]. split; [exact Hf|]. split; [exact Hfs|].
  split; [exact Hlen|exact Hch].
Defined.

(** C9, as stated, fails on a file with a contract: [deposit], nested in
    the contract Vault and among its local functions, is on the function
    list of Vault.sol as well. *)
Lemma contract_function_on_file_counterexample :
  ∃ st' file c func,
    sampleFirstPasses Sample.compilerOutput Sample.compilerInput = Some st'
    ∧ files st' !! "Vault.sol" = Some file
    ∧ contracts st' !! ("Vault.sol", 1%nat) = Some c
    ∧ cf_name func = "deposit"
    ∧ cf_contract func = Some ("Vault.sol", 1%nat)
    ∧ func ∈ c_localFunctions c
    ∧ func ∈ sf_functions file.
Proof.
  eexists _, _, _, _. split; [compute_goal|]. split; [compute_goal|].
  split; [compute_goal|].
  split; [|split; [|split; [left|right; left]]]; reflexivity.
Qed.

Abbreviation sampleBuild compilerOutput compilerInput :=
  (createModelsAndDecodeBytecodes Sample.astVisibilityToVisibility
     Sample.isContractType Sample.isEnumType Sample.toCanonicalAbiType
     Sample.methodID Sample.Buffer_from_hex Sample.modifierFunction
     Sample.getterFunction Sample.CustomError_fromABI
     Sample.getLibraryAddressPositions
     Sample.normalizeCompilerOutputBytecode Sample.decodeInstructions
     Sample.correctSelectors "0.8.20" compilerInput compilerOutput).




(** ** The further properties on the samples *)

(** The model of the sample output, and what the decoding pass makes of
    it. *)
Definition sampleModel : State :=
  Eval vm_compute in
    default emptyState
      (sampleFirstPasses Sample.compilerOutput Sample.compilerInput).

Definition sampleDecoded : list Bytecode * State :=
  Eval vm_compute in
    default ([], emptyState)
      (sampleDecodeBytecodes Sample.compilerOutput sampleModel).

Lemma sampleModel_eq :
  sampleFirstPasses Sample.compilerOutput Sample.compilerInput
  = Some sampleModel.
Proof. compute_goal. Qed.

Lemma sampleDecoded_eq :
  sampleDecodeBytecodes Sample.compilerOutput sampleModel
  = Some (sampleDecoded.1, sampleDecoded.2).
Proof. compute_goal. Qed.

Lemma sample_wf : JsObject.wf (out_sources Sample.compilerOutput).
Proof. decide_goal. Qed.



Lemma missing_contract_output_throws_witness :
  JsObject.wf (out_sources Sample.incompleteOutput)
  ∧ NoDup (contractIds (out_sources Sample.incompleteOutput))
  ∧ JsObject.get (out_contracts Sample.incompleteOutput) "Base.sol"
      ≫= (λ fileContracts, JsObject.get fileContracts "Base")
    = None
  ∧ sampleBuild Sample.incompleteOutput Sample.compilerInput = None.
Proof.
  assert (JsObject.wf (out_sources Sample.incompleteOutput)) as H1
    by decide_goal.
  assert (NoDup (contractIds (out_sources Sample.incompleteOutput))) as H2
    by decide_goal.
  assert (JsObject.get (out_contracts Sample.incompleteOutput) "Base.sol"
            ≫= (λ fileContracts,
                  JsObject.get fileContracts (cd_name Sample.base))
          = None) as H3 by reflexivity.
  split; [exact H1|]. split; [exact H2|]. split; [exact H3|].
  apply (missing_contract_output_throws Sample.astVisibilityToVisibility
           Sample.isContractType Sample.isEnumType Sample.toCanonicalAbiType
           Sample.methodID Sample.Buffer_from_hex Sample.modifierFunction
           Sample.getterFunction Sample.CustomError_fromABI
           Sample.getLibraryAddressPositions
           Sample.normalizeCompilerOutputBytecode Sample.decodeInstructions
           Sample.correctSelectors "0.8.20" Sample.compilerInput
           Sample.incompleteOutput "Base.sol"
           (mkCompilerOutputSource 1
              [NContractDefinition Sample.base;
               NContractDefinition Sample.receiver;
               NContractDefinition Sample.guard])
           Sample.base H1 H2).
  - right; left.
  - left.
  - by eexists.
  - reflexivity.
  - exact H3.
Defined.

Lemma store_holds_modeled_definitions_witness :
  sampleFirstPasses Sample.compilerOutput Sample.compilerInput
  = Some sampleModel
  ∧ JsObject.wf (out_sources Sample.compilerOutput)
  ∧ siteNode (out_sources Sample.compilerOutput) ("Vault.sol", 1%nat)
    = Some Sample.vault
  ∧ match siteNode (out_sources Sample.compilerOutput) ("Vault.sol", 1%nat),
          contracts sampleModel !! ("Vault.sol", 1%nat) with
    | Some node, Some c =>
        c_name c = cd_name node
        ∧ contractKindToContractType (cd_contractKind node)
          = Some (c_type c)
        ∧ c_customErrors c = []
    | None, None => True
    | _, _ => False
    end.
Proof.
  split; [exact sampleModel_eq|]. split; [exact sample_wf|].
  split; [reflexivity|].
  exact (store_holds_modeled_definitions _ _ _ _ _ _ _ _ _ _ _
           ("Vault.sol", 1%nat) sampleModel_eq sample_wf).
Defined.

Lemma bytecodes_follow_the_sources_witness :
  sampleFirstPasses Sample.compilerOutput Sample.compilerInput
  = Some sampleModel
  ∧ JsObject.wf (out_sources Sample.compilerOutput)
  ∧ NoDup (contractIds (out_sources Sample.compilerOutput))
  ∧ modeledEntries (out_sources Sample.compilerOutput)
    = [(7, ("Vault.sol", 1%nat)); (3, ("Base.sol", 0%nat));
       (5, ("Base.sol", 2%nat))]
  ∧ contractIdToContract sampleModel
    = modeledEntries (out_sources Sample.compilerOutput)
  ∧ ∀ bytecodes st',
      sampleDecodeBytecodes Sample.compilerOutput sampleModel
      = Some (bytecodes, st') →
      bytecodes
      = concat
          (contractChunk Sample.getLibraryAddressPositions
             Sample.normalizeCompilerOutputBytecode
             Sample.decodeInstructions "0.8.20" Sample.compilerOutput
             sampleModel
             <$> (modeledEntries (out_sources Sample.compilerOutput)).*2).
Proof.
  assert (NoDup (contractIds (out_sources Sample.compilerOutput))) as H3
    by decide_goal.
  split; [exact sampleModel_eq|]. split; [exact sample_wf|].
  split; [exact H3|]. split; [reflexivity|].
  exact (bytecodes_follow_the_sources Sample.astVisibilityToVisibility
           Sample.isContractType Sample.isEnumType
           Sample.toCanonicalAbiType Sample.methodID
           Sample.Buffer_from_hex Sample.modifierFunction
           Sample.getterFunction Sample.CustomError_fromABI
           Sample.getLibraryAddressPositions
           Sample.normalizeCompilerOutputBytecode
           Sample.decodeInstructions "0.8.20" Sample.compilerOutput
           Sample.compilerInput _ sampleModel_eq sample_wf H3).
Defined.

Lemma paramTypes_hash_to_selector_witness :
  ∃ st' func,
    processContractMember Sample.astVisibilityToVisibility
      Sample.isContractType Sample.isEnumType Sample.toCanonicalAbiType
      Sample.methodID Sample.Buffer_from_hex Sample.modifierFunction
      Sample.getterFunction "Vault.sol" ("Vault.sol", 1%nat)
      (Some Sample.vaultAbi) Sample.vaultFileState
      (MFunctionDefinition Sample.withdrawTo)
    = Some st'
    ∧ fd_implemented Sample.withdrawTo ≠ Some false
    ∧ st' = addFunction "Vault.sol" func
              (addLocalFunction ("Vault.sol", 1%nat) func
                 Sample.vaultFileState)
    ∧ (cf_selector func = None → cf_paramTypes func = None)
    ∧ ∀ paramTypes,
        cf_paramTypes func = Some paramTypes →
        cf_selector func
        = Some (Sample.methodID (cf_name func) paramTypes).
Proof.
  destruct
    (processContractMember Sample.astVisibilityToVisibility
       Sample.isContractType Sample.isEnumType Sample.toCanonicalAbiType
       Sample.methodID Sample.Buffer_from_hex Sample.modifierFunction
       Sample.getterFunction "Vault.sol" ("Vault.sol", 1%nat)
       (Some Sample.vaultAbi) Sample.vaultFileState
       (MFunctionDefinition Sample.withdrawTo))
    as [st'|] eqn:E; [|vm_compute in E; discriminate].
  assert (fd_implemented Sample.withdrawTo ≠ Some false) as Himpl
    by (vm_compute; discriminate).
  destruct (paramTypes_hash_to_selector _ _ _ _ _ _ _ _ _ _ _ _ _ _ E Himpl)
    as (func & Hst & Hnone & _ & Hsel).
  exists st', func. split; [done|]. split; [done|]. split; [done|].
  split; [exact Hnone|exact Hsel].
Defined.

Lemma one_diagnostic_per_failing_error_witness :
  sampleDecodeBytecodes Sample.compilerOutput sampleModel
  = Some (sampleDecoded.1, sampleDecoded.2)
  ∧ diagnostics sampleModel = []
  ∧ diagnostics sampleDecoded.2
    = ["Couldn't build CustomError for error 'Broken'"]
  ∧ ∃ outputs,
      Forall2
        (λ contract output,
           contractOutput Sample.compilerOutput contract sampleModel
           = Some output)
        (JsMap.values (contractIdToContract sampleModel)) outputs
      ∧ diagnostics sampleDecoded.2
        = diagnostics sampleModel
          ++ concat
               ((λ output,
                   abiDiagnostics Sample.CustomError_fromABI (co_abi output))
                  <$> outputs).
Proof.
  split; [exact sampleDecoded_eq|]. split; [reflexivity|].
  split; [reflexivity|].
  exact (one_diagnostic_per_failing_error Sample.CustomError_fromABI
           Sample.getLibraryAddressPositions
           Sample.normalizeCompilerOutputBytecode Sample.decodeInstructions
           "0.8.20" Sample.compilerOutput _ _ _ sampleDecoded_eq).
Defined.

Lemma abi_of_contract_definition_witness :
  JsObject.wf (out_contracts Sample.compilerOutput)
  ∧ Forall (λ e, JsObject.wf e.2) (out_contracts Sample.compilerOutput)
  ∧ mapOfEntries (mapOfEntries co_abi) (out_contracts Sample.compilerOutput)
      !! "Base.sol" ≫= (.!! "Guard")
    = Some Sample.guardAbi.
Proof.
  assert (JsObject.wf (out_contracts Sample.compilerOutput)) as H1
    by decide_goal.
  assert (Forall (λ e, JsObject.wf e.2)
            (out_contracts Sample.compilerOutput)) as H2
    by (repeat constructor; decide_goal).
  split; [exact H1|]. split; [exact H2|].
  by rewrite (abi_of_contract_definition Sample.compilerOutput "Base.sol"
                "Guard" H1 H2).
Defined.

Lemma decoding_only_adds_custom_errors_witness :
  sampleDecodeBytecodes Sample.compilerOutput sampleModel
  = Some (sampleDecoded.1, sampleDecoded.2)
  ∧ files sampleDecoded.2 = files sampleModel
  ∧ fileIdToSourceFile sampleDecoded.2 = fileIdToSourceFile sampleModel
  ∧ contractIdToContract sampleDecoded.2 = contractIdToContract sampleModel
  ∧ contractIdToLinearizedBaseContractIds sampleDecoded.2
    = contractIdToLinearizedBaseContractIds sampleModel
  ∧ diagnostics sampleModel `prefix_of` diagnostics sampleDecoded.2
  ∧ ∀ contract,
      match contracts sampleModel !! contract,
            contracts sampleDecoded.2 !! contract with
      | Some c, Some c' =>
          ∃ errors,
            c' = mkContract (c_name c) (c_type c) (c_location c)
                   (c_localFunctions c) (c_linearizedBaseContracts c)
                   (c_customErrors c ++ errors)
      | None, None => True
      | _, _ => False
      end.
Proof.
  split; [exact sampleDecoded_eq|].
  exact (decoding_only_adds_custom_errors Sample.CustomError_fromABI
           Sample.getLibraryAddressPositions
           Sample.normalizeCompilerOutputBytecode Sample.decodeInstructions
           "0.8.20" Sample.compilerOutput _ _ _ sampleDecoded_eq).
Defined.

Lemma ancestors_are_modeled_contracts_witness :
  sampleFirstPasses Sample.compilerOutput Sample.compilerInput
  = Some sampleModel
  ∧ JsObject.wf (out_sources Sample.compilerOutput)
  ∧ (7, ("Vault.sol", 1%nat))
    ∈ JsMap.entries (contractIdToContract sampleModel)
  ∧ ∃ node c,
      siteNode (out_sources Sample.compilerOutput) ("Vault.sol", 1%nat)
      = Some node
      ∧ contracts sampleModel !! ("Vault.sol", 1%nat) = Some c
      ∧ (∀ base,
           base ∈ c_linearizedBaseContracts c →
           ∃ baseId baseNode,
             baseId ∈ cd_linearizedBaseContracts node
             ∧ (baseId, base)
               ∈ JsMap.entries (contractIdToContract sampleModel)
             ∧ siteNode (out_sources Sample.compilerOutput) base
               = Some baseNode
             ∧ cd_id baseNode = baseId
             ∧ is_Some
                 (contractKindToContractType (cd_contractKind baseNode))
             ∧ is_Some (contracts sampleModel !! base))
      ∧ (head (cd_linearizedBaseContracts node) = Some 7 →
         head (c_linearizedBaseContracts c) = Some ("Vault.sol", 1%nat)).
Proof.
  assert ((7, ("Vault.sol", 1%nat))
          ∈ JsMap.entries (contractIdToContract sampleModel)) as H3
    by decide_goal.
  split; [exact sampleModel_eq|]. split; [exact sample_wf|].
  split; [exact H3|].
  exact (ancestors_are_modeled_contracts _ _ _ _ _ _ _ _ _ _ _ _ _
           sampleModel_eq sample_wf H3).
Defined.

Lemma source_files_registered_witness :
  sampleFirstPasses Sample.compilerOutput Sample.compilerInput
  = Some sampleModel
  ∧ JsObject.wf (out_sources Sample.compilerOutput)
  ∧ NoDup ((λ entry, so_id entry.2) <$> out_sources Sample.compilerOutput)
  ∧ ∃ content file,
      JsObject.get Sample.compilerInput "Base.sol" = Some content
      ∧ files sampleModel !! "Base.sol" = Some file
      ∧ sf_sourceName file = "Base.sol"
      ∧ sf_content file = content
      ∧ fileIdToSourceFile sampleModel !! 1 = Some "Base.sol".
Proof.
  assert (NoDup
            ((λ entry, so_id entry.2) <$> out_sources Sample.compilerOutput))
    as H3 by decide_goal.
  destruct (source_files_registered _ _ _ _ _ _ _ _ _ _ _ "Base.sol"
              (mkCompilerOutputSource 1
                 [NContractDefinition Sample.base;
                  NContractDefinition Sample.receiver;
                  NContractDefinition Sample.guard])
              sampleModel_eq sample_wf)
    as (content & file & Hc & Hf & Hn & Hcontent & Hid); [right; left|].
  split; [exact sampleModel_eq|]. split; [exact sample_wf|].
  split; [exact H3|].
  exists content, file. split; [exact Hc|]. split; [exact Hf|].
  split; [exact Hn|]. split; [exact Hcontent|exact (Hid H3)].
Defined.

(** ** Properties of the tasks *)

Import Tasks.

Section TaskProperties.

Context {Value ParameterType HardhatRuntimeEnvironment Task : Type}.
Context `{!Imports Value ParameterType HardhatRuntimeEnvironment}.

Implicit Types this : @ResolvedTask Value ParameterType
                         HardhatRuntimeEnvironment Task.
Implicit Types taskArguments : @TaskArguments Value.

(** *** Arguments *)

Lemma JsObject_set_middle {V} (l1 l2 : list (string * V)) k v v' :
  k ∉ l1.*1 →
  JsObject.set (l1 ++ (k, v) :: l2) k v' = l1 ++ (k, v') :: l2.
Proof.
  induction l1 as [|[k1 v1] l1 IH]; simpl; intros Hk.
  - by rewrite decide_True.
  - apply not_elem_of_cons in Hk as [Hne Hk].
    rewrite decide_False by done. by rewrite IH.
Qed.

Lemma getParameter_Throw this name e :
  getParameter this name = Throw e →
  rt_namedParameters this !! name = None
  ∧ Forall (λ p, ptp_name p ≠ name) (rt_positionalParameters this)
  ∧ e = UNRECOGNIZED_NAMED_PARAM name.
Proof.
  unfold getParameter.
  destruct (rt_namedParameters this !! name); [done|].
  destruct (List.find _ _) as [p|] eqn:E; [done|]. intros [= <-].
  split; [done|]. split; [|done]. apply Forall_forall. intros p Hp Heq.
  apply list_elem_of_In in Hp.
  apply (find_none _ _ E) in Hp. by rewrite bool_decide_eq_true_2 in Hp.
Qed.

Lemma getParameter_unrecognized this name :
  rt_namedParameters this !! name = None →
  Forall (λ p, ptp_name p ≠ name) (rt_positionalParameters this) →
  getParameter this name = Throw (UNRECOGNIZED_NAMED_PARAM name).
Proof.
  intros Hn Hp. unfold getParameter. rewrite Hn.
  destruct (List.find _ _) as [p|] eqn:E; [|done].
  apply find_some in E as [Hin Hname].
  apply bool_decide_eq_true in Hname.
  by apply (proj1 (Forall_forall _ _) Hp) in Hname; [|apply list_elem_of_In].
Qed.

Lemma resolveArgument_accepted this taskArguments name value :
  accepted this (name, value) →
  resolveArgument this taskArguments name value
  = Return
      match value with
      | Some _ => taskArguments
      | None =>
          JsObject.set taskArguments name
            (resolvedArgument this (name, value)).2
      end.
Proof.
  intros (parameter & Hp & Hv). simpl in *.
  unfold resolveArgument, resolvedArgument. simpl. rewrite Hp. simpl.
  unfold validateRequiredParameter, validateParameterType.
  destruct value as [value|].
  - destruct (tp_defaultValue parameter); simpl; by rewrite Hv.
  - by destruct Hv as [defaultValue ->].
Qed.

Lemma resolveArgument_rejected this taskArguments name value e :
  rejected this (name, value) e →
  resolveArgument this taskArguments name value = Throw e.
Proof.
  inversion 1 as [?? Hn Hp|? parameter Hg Hd|? parameter ? Hg Hv]; subst;
    unfold resolveArgument.
  - by rewrite getParameter_unrecognized.
  - rewrite Hg. simpl. unfold validateRequiredParameter. by rewrite Hd.
  - rewrite Hg. simpl. unfold validateRequiredParameter, validateParameterType.
    destruct (tp_defaultValue parameter); simpl; by rewrite Hv.
Qed.

Lemma accepted_or_rejected this entry :
  accepted this entry ∨ ∃ e, rejected this entry e.
Proof.
  destruct entry as [name value].
  destruct (getParameter this name) as [parameter|e] eqn:Hg.
  - destruct value as [value|].
    + destruct (isParameterValueValid (tp_parameterType parameter)
                  (Some value) (tp_isVariadic parameter)) eqn:Hv.
      * left. by exists parameter.
      * right. eexists. by eapply rejected_invalid.
    + destruct (tp_defaultValue parameter) as [defaultValue|] eqn:Hd.
      * left. exists parameter. split; [done|]. simpl. rewrite Hd.
        by eexists.
      * right. eexists. by eapply rejected_missing.
  - apply getParameter_Throw in Hg as (Hn & Hp & ->).
    right. eexists. by apply rejected_unrecognized.
Qed.

Lemma accepted_not_rejected this entry e :
  accepted this entry → ¬ rejected this entry e.
Proof.
  intros (parameter & Hg & Hv).
  inversion 1 as [?? Hn Hp|? parameter' Hg' Hd|? parameter' ? Hg' Hv'];
    subst; simpl in *.
  - by rewrite getParameter_unrecognized in Hg.
  - rewrite Hg in Hg'. injection Hg' as <-. rewrite Hd in Hv.
    by destruct Hv.
  - rewrite Hg in Hg'. injection Hg' as <-. congruence.
Qed.

Lemma resolveArguments_accepted this : ∀ todo seen,
  NoDup (seen ++ todo).*1 →
  Forall (accepted this) todo →
  resolveArguments this todo (seen ++ todo)
  = (seen ++ (resolvedArgument this <$> todo), Return ()).
Proof.
  induction todo as [|[name value] todo IH]; intros seen Hnd Hall; [done|].
  apply Forall_cons in Hall as [Hacc Hall]. cbn [resolveArguments].
  rewrite (resolveArgument_accepted _ _ _ _ Hacc).
  assert (name ∉ seen.*1) as Hname.
  { rewrite fmap_app in Hnd. apply NoDup_app in Hnd as (_ & Hnd & _).
    intros Hin. apply (Hnd _ Hin). left. }
  assert (NoDup ((seen ++ [resolvedArgument this (name, value)]) ++ todo).*1)
    as Hnd' by (by rewrite <- app_assoc, !fmap_app in *).
  destruct value as [value|]; [|rewrite JsObject_set_middle by done];
    rewrite cons_middle, app_assoc, IH by done;
    by rewrite <- app_assoc.
Qed.

Lemma resolveArguments_rejected this entry after e : ∀ before seen,
  NoDup (seen ++ before ++ entry :: after).*1 →
  Forall (accepted this) before →
  rejected this entry e →
  resolveArguments this (before ++ entry :: after)
    (seen ++ before ++ entry :: after)
  = (seen ++ (resolvedArgument this <$> before) ++ entry :: after, Throw e).
Proof.
  induction before as [|[name value] before IH]; intros seen Hnd Hall Hrej.
  - destruct entry as [name value]. simpl.
    by rewrite (resolveArgument_rejected _ _ _ _ _ Hrej).
  - apply Forall_cons in Hall as [Hacc Hall].
    change ((?x :: ?l) ++ ?l') with (x :: l ++ l').
    cbn [resolveArguments].
    rewrite (resolveArgument_accepted _ _ _ _ Hacc).
    assert (name ∉ seen.*1) as Hname.
    { rewrite fmap_app in Hnd. apply NoDup_app in Hnd as (_ & Hnd & _).
      intros Hin. apply (Hnd _ Hin). left. }
    assert (NoDup
              ((seen ++ [resolvedArgument this (name, value)])
               ++ before ++ entry :: after).*1)
      as Hnd' by (by rewrite <- app_assoc, !fmap_app in *).
    destruct value as [value|]; [|rewrite JsObject_set_middle by done];
      rewrite (cons_middle _ seen), (app_assoc seen [_]), IH by done;
      by rewrite <- app_assoc.
Qed.

(** X12: [run] checks the arguments in the order of [Object.entries] and
    throws for the first one that is not accepted: an unrecognized name,
    a missing value for a parameter without default value, or a value of
    an invalid type.  The arguments before it have their default values
    by then, the ones after it have not been looked at, and no action has
    been imported or called.  Every argument is accepted or rejected. *)
Theorem run_reports_first_rejected_argument this before entry after e :
  isEmpty this = false →
  JsObject.wf (before ++ entry :: after) →
  Forall (accepted this) before →
  rejected this entry e →
  run this (before ++ entry :: after)
  = (rt_actions this,
     (resolvedArgument this <$> before) ++ entry :: after, Throw e)
    ∧ ∀ argument,
        accepted this argument ∨ ∃ e', rejected this argument e'.
Proof.
  intros Hempty Hwf Hall Hrej. split; [|apply accepted_or_rejected].
  unfold run. rewrite Hempty.
  pose proof (resolveArguments_rejected this entry after e before [] Hwf
                Hall Hrej) as Hr.
  simpl in Hr. by rewrite Hr.
Qed.

(** *** File actions *)

Lemma resolveFileActions_importable actions :
  Forall importable actions →
  resolveFileActions actions = (resolvedAction <$> actions, Return ()).
Proof.
  induction 1 as [|action actions Himp _ IH]; [done|]. simpl.
  unfold resolvedAction at 1. rewrite IH.
  destruct (ta_action action) as [actionFn|path|] eqn:Ha; [done| |done].
  by destruct (Himp path Ha) as [default ->].
Qed.

Lemma resolveFileActions_Return actions actions' :
  resolveFileActions actions = (actions', Return ()) →
  Forall importable actions.
Proof.
  revert actions'.
  induction actions as [|action actions IH]; intros actions' H;
    [constructor|].
  simpl in H.
  destruct (resolveFileActions actions) as [actions0 r] eqn:E.
  assert (r = Return () → Forall importable actions) as Hr.
  { intros ->. by eapply IH. }
  destruct (ta_action action) as [actionFn|path|] eqn:Ha.
  - injection H as _ ->. constructor; [|by apply Hr].
    intros path Hp. congruence.
  - destruct (import path) as [[default|]|] eqn:Hi; [|done..].
    injection H as _ ->. constructor; [|by apply Hr].
    intros path' Hp. rewrite Ha in Hp. injection Hp as <-. by eexists.
  - injection H as _ ->. constructor; [|by apply Hr].
    intros path Hp. congruence.
Qed.

Lemma resolvedAction_function action :
  (∀ path, ta_action action ≠ AFile path) →
  resolvedAction action = action.
Proof.
  intros Hn. unfold resolvedAction.
  destruct (ta_action action) as [actionFn|path|] eqn:Ha; [done| |done].
  by destruct (Hn path).
Qed.

(** X15: [#resolveFileActions] returns exactly when the module of every
    file action can be imported and exports a function by default.  The
    actions are then the same in number and order and keep their plugin
    ids, the file actions have the function of their module in the place
    of the path and the others are as they were; no file action is left,
    so that resolving again imports nothing and changes nothing. *)
Theorem file_actions_resolved_in_place actions :
  ((resolveFileActions actions).2 = Return ()
   ↔ Forall importable actions)
  ∧ (Forall importable actions →
     let actions' := resolvedAction <$> actions in
     resolveFileActions actions = (actions', Return ())
     ∧ ta_pluginId <$> actions' = ta_pluginId <$> actions
     ∧ Forall (λ action, ∀ path, ta_action action ≠ AFile path) actions'
     ∧ resolveFileActions actions' = (actions', Return ())).
Proof.
  split.
  - split.
    + destruct (resolveFileActions actions) as [actions' r] eqn:E.
      simpl. intros ->. by eapply resolveFileActions_Return.
    + intros Hall. by rewrite resolveFileActions_importable.
  - intros Hall actions'.
    assert (Forall (λ action, ∀ path, ta_action action ≠ AFile path)
              actions') as Hnone.
    { apply Forall_fmap. eapply Forall_impl; [done|].
      intros action Himp path. simpl. unfold resolvedAction.
      destruct (ta_action action) as [actionFn|path'|] eqn:Ha;
        [by rewrite Ha| |by rewrite Ha].
      by destruct (Himp path' Ha) as [default ->]. }
    split; [by apply resolveFileActions_importable|].
    split; [|split; [done|]].
    + unfold actions'. rewrite <- list_fmap_compose.
      apply list_fmap_ext. intros i action _. simpl. unfold resolvedAction.
      destruct (ta_action action) as [|path|]; [done| |done].
      by destruct (import path) as [[default|]|].
    + rewrite resolveFileActions_importable.
      * f_equal. rewrite <- (list_fmap_id actions') at 2.
        apply Forall_fmap_ext. eapply Forall_impl; [exact Hnone|].
        intros action Hn. by apply resolvedAction_function.
      * eapply Forall_impl; [exact Hnone|]. intros action Hn path Hp.
        by apply Hn in Hp.
Qed.

Lemma resolveFileActions_stops before action after path :
  Forall importable before →
  ta_action action = AFile path →
  import path = None ∨ import path = Some None →
  resolveFileActions (before ++ action :: after)
  = ((resolvedAction <$> before) ++ action :: after,
     Throw (importError path)).
Proof.
  intros Hall Ha Hi.
  induction Hall as [|action0 before Himp _ IH]; simpl.
  - rewrite Ha. unfold importError. by destruct Hi as [->| ->].
  - rewrite IH.
    destruct (ta_action action0) as [actionFn|path0|] eqn:Ha0.
    + rewrite (resolvedAction_function action0); [done|congruence].
    + destruct (Himp path0 Ha0) as [default Hd]. rewrite Hd.
      unfold resolvedAction at 2. by rewrite Ha0, Hd.
    + rewrite (resolvedAction_function action0); [done|congruence].
Qed.

(** *** The run of a task *)

(** X13: when every argument is accepted and every file action can be
    resolved, [run] hands on to the last action the arguments it was
    given, in their order, with the default value of its parameter for
    each argument that is [undefined]; no argument is [undefined] then.
    The parameters of the task that are not among the arguments play no
    part: a parameter without default value that has no argument is not
    reported.  [taskArguments] and [this.actions] keep what was resolved. *)
Theorem run_hands_on_resolved_arguments this taskArguments :
  isEmpty this = false →
  JsObject.wf taskArguments →
  Forall (accepted this) taskArguments →
  Forall importable (rt_actions this) →
  let actions := resolvedAction <$> rt_actions this in
  let arguments := resolvedArgument this <$> taskArguments in
  run this taskArguments
  = (actions, arguments,
     next (rt_hre this) actions (length actions - 1) arguments)
  ∧ arguments.*1 = taskArguments.*1
  ∧ Forall (λ argument, is_Some argument.2) arguments.
Proof.
  intros Hempty Hwf Hall Himp actions arguments. split; [|split].
  - unfold run. rewrite Hempty.
    pose proof (resolveArguments_accepted this taskArguments [] Hwf Hall)
      as Hr.
    simpl in Hr. by rewrite Hr, resolveFileActions_importable.
  - unfold arguments. rewrite <- list_fmap_compose.
    by apply list_fmap_ext.
  - apply Forall_fmap. eapply Forall_impl; [done|].
    intros [name value] (parameter & Hg & Hv). simpl in *.
    unfold resolvedArgument. simpl. rewrite Hg.
    by destruct value; [eexists|].
Qed.

(** X14: [run] resolves all the file actions before it calls an action:
    with accepted arguments, it throws for the first file action whose
    module cannot be imported or has no function as its default export,
    wherever the action is in the list, and no action is called; the file
    actions before it stay resolved. *)
Theorem run_stops_at_unresolved_file_action this taskArguments before action
  after path :
  isEmpty this = false →
  JsObject.wf taskArguments →
  Forall (accepted this) taskArguments →
  rt_actions this = before ++ action :: after →
  Forall importable before →
  ta_action action = AFile path →
  import path = None ∨ import path = Some None →
  run this taskArguments
  = ((resolvedAction <$> before) ++ action :: after,
     resolvedArgument this <$> taskArguments, Throw (importError path)).
Proof.
  intros Hempty Hwf Hall Hactions Himp Ha Hi.
  unfold run. rewrite Hempty.
  pose proof (resolveArguments_accepted this taskArguments [] Hwf Hall)
    as Hr.
  simpl in Hr.
  by rewrite Hr, Hactions, (resolveFileActions_stops _ _ _ _ Himp Ha Hi).
Qed.

(** *** Overrides *)

(** The actions after the one called play no part in its run. *)
Lemma next_prefix (hre : HardhatRuntimeEnvironment)
  (actions rest : list (@TaskAction Value HardhatRuntimeEnvironment)) :
  ∀ index,
    (index < length actions)%nat →
    next hre (actions ++ rest) index = next hre actions index.
Proof.
  induction index as [|index IH]; intros Hlt; extensionality taskArguments;
    cbn [next]; rewrite lookup_app_l by done.
  - done.
  - rewrite IH by lia. done.
Qed.

(** X16: the last action of a task is the one that [run] calls.  When it
    is alone, it is called without [runSuper]; when it overrides other
    actions, the [runSuper] it is called with runs the actions before it,
    the last of them first, on the arguments it is given, which are not
    checked again, and returns what they return. *)
Theorem override_runs_over_the_overridden_actions
  (hre : HardhatRuntimeEnvironment)
  (actions : list (@TaskAction Value HardhatRuntimeEnvironment)) pluginId
  actionFn taskArguments :
  let overriding := actions ++ [mkTaskAction pluginId (AFunction actionFn)] in
  next hre overriding (length overriding - 1) taskArguments
  = match actions with
    | [] => actionFn taskArguments hre None
    | _ =>
        actionFn taskArguments hre
          (Some (next hre actions (length actions - 1)))
    end.
Proof.
  intros overriding. unfold overriding.
  rewrite length_app, Nat.add_sub.
  destruct actions as [|action actions]; [done|].
  remember (action :: actions) as overridden eqn:Ho.
  assert (length overridden = S (length actions)) as Hlen by (by subst).
  rewrite Hlen. cbn [next]. rewrite <- Hlen.
  rewrite list_lookup_middle by done. cbn [ta_action].
  rewrite next_prefix by lia.
  subst overridden. cbn [length]. by rewrite Nat.sub_succ, Nat.sub_0_r.
Qed.

(** *** The parameters of a new task *)

Lemma mapOfObject_lookup_gen {V} (o : list (string * V)) :
  JsObject.wf o →
  ∀ (m : gmap string V) k,
    foldl (λ m e, <[e.1 := e.2]> m) m o !! k
    = match JsObject.get o k with
      | Some v => Some v
      | None => m !! k
      end.
Proof.
  unfold JsObject.wf.
  induction o as [|[k0 v0] o IH]; simpl; intros Hnd m k; [done|].
  apply NoDup_cons in Hnd as [Hk0 Hnd]. rewrite IH by done.
  destruct (decide (k0 = k)) as [->|Hne].
  - destruct (JsObject.get o k) as [v|] eqn:E.
    + exfalso. apply Hk0. clear -E.
      induction o as [|[k1 v1] o IH]; simpl in *; [done|].
      destruct (decide (k1 = k)) as [->|Hne]; [left|right; by apply IH].
    + apply lookup_insert_eq.
  - destruct (JsObject.get o k); [done|]. by apply lookup_insert_ne.
Qed.

(** X17: a task made by [createNewTask] finds the parameter of an argument
    among the named parameters under the key it has in the object given
    to [createNewTask], whatever the name of the parameter is, and only
    then among the positional parameters, by their names, the first one
    with the name; [UNRECOGNIZED_NAMED_PARAM] is thrown when both fail. *)
Theorem new_task_finds_its_parameters (hre : HardhatRuntimeEnvironment) id
  description action
  (namedParameters :
     list (string * @NamedTaskParameter Value ParameterType))
  (positionalParameters : list (@PositionalTaskParameter Value ParameterType))
  pluginId name :
  JsObject.wf namedParameters →
  getParameter
    (createNewTask (Task:=Task) hre id description action namedParameters
       positionalParameters pluginId)
    name
  = match JsObject.get namedParameters name with
    | Some parameter => Return (Named parameter)
    | None =>
        match
          List.find (λ p, bool_decide (ptp_name p = name))
            positionalParameters
        with
        | Some parameter => Return (Positional parameter)
        | None => Throw (UNRECOGNIZED_NAMED_PARAM name)
        end
    end.
Proof.
  intros Hwf. unfold getParameter, createNewTask, mapOfObject. simpl.
  rewrite mapOfObject_lookup_gen by done.
  by destruct (JsObject.get namedParameters name).
Qed.

End TaskProperties.

(** *** The properties on the sample tasks *)

Lemma run_reports_first_rejected_argument_witness :
  isEmpty TaskSample.compileTask = false
  ∧ run TaskSample.compileTask
      [("profile", None); ("speed", Some (TaskSample.VInt 3));
       ("jobs", None)]
    = (rt_actions TaskSample.compileTask,
       [("profile", Some (TaskSample.VString "default"));
        ("speed", Some (TaskSample.VInt 3)); ("jobs", None)],
       Throw (UNRECOGNIZED_NAMED_PARAM "speed")).
Proof.
  assert (isEmpty TaskSample.compileTask = false) as H1 by reflexivity.
  split; [exact H1|].
  refine (proj1
            (run_reports_first_rejected_argument TaskSample.compileTask
               [("profile", None)] ("speed", Some (TaskSample.VInt 3))
               [("jobs", None)] (UNRECOGNIZED_NAMED_PARAM "speed") H1 _ _ _)).
  - decide_goal.
  - repeat constructor. exists (Named TaskSample.profile).
    split; [compute_goal|]. by eexists.
  - apply rejected_unrecognized; [compute_goal|].
    repeat constructor. discriminate.
Defined.

Lemma run_hands_on_resolved_arguments_witness :
  let taskArguments :=
    [("profile", None); ("jobs", Some (TaskSample.VInt 4))] in
  isEmpty TaskSample.compileTask = false
  ∧ JsObject.wf taskArguments
  ∧ Forall (accepted TaskSample.compileTask) taskArguments
  ∧ Forall importable (rt_actions TaskSample.compileTask)
  ∧ run TaskSample.compileTask taskArguments
    = ([mkTaskAction None (AFunction TaskSample.compile)],
       [("profile", Some (TaskSample.VString "default"));
        ("jobs", Some (TaskSample.VInt 4))],
       Return (Some (TaskSample.VInt 4))).
Proof.
  intros taskArguments.
  assert (isEmpty TaskSample.compileTask = false) as H1 by reflexivity.
  assert (JsObject.wf taskArguments) as H2 by decide_goal.
  assert (Forall (accepted TaskSample.compileTask) taskArguments) as H3.
  { repeat constructor.
    - exists (Named TaskSample.profile). split; [compute_goal|]. by eexists.
    - exists (Named TaskSample.jobs). split; [compute_goal|]. reflexivity. }
  assert (Forall importable (rt_actions TaskSample.compileTask)) as H4.
  { repeat constructor. intros path [= <-]. by eexists. }
  split; [exact H1|]. split; [exact H2|]. split; [exact H3|].
  split; [exact H4|].
  rewrite (proj1
             (run_hands_on_resolved_arguments TaskSample.compileTask
                taskArguments H1 H2 H3 H4)).
  compute_goal.
Defined.

Lemma run_stops_at_unresolved_file_action_witness :
  let taskArguments := [("jobs", Some (TaskSample.VInt 4))] in
  isEmpty TaskSample.overriddenTask = false
  ∧ JsObject.wf taskArguments
  ∧ Forall (accepted TaskSample.overriddenTask) taskArguments
  ∧ run TaskSample.overriddenTask taskArguments
    = ([mkTaskAction None (AFunction TaskSample.compile);
        mkTaskAction (Some "plugin") (AFile "./missing.js")],
       taskArguments, Throw (Error "Error importing the module")).
Proof.
  intros taskArguments.
  assert (isEmpty TaskSample.overriddenTask = false) as H1 by reflexivity.
  assert (JsObject.wf taskArguments) as H2 by decide_goal.
  assert (Forall (accepted TaskSample.overriddenTask) taskArguments) as H3.
  { repeat constructor. exists (Named TaskSample.jobs).
    split; [compute_goal|]. reflexivity. }
  split; [exact H1|]. split; [exact H2|]. split; [exact H3|].
  rewrite (run_stops_at_unresolved_file_action TaskSample.overriddenTask
             taskArguments (rt_actions TaskSample.compileTask)
             (mkTaskAction (Some "plugin") (AFile "./missing.js")) []
             "./missing.js" H1 H2 H3 eq_refl).
  - compute_goal.
  - repeat constructor. intros path [= <-]. by eexists.
  - reflexivity.
  - by left.
Defined.

Lemma new_task_finds_its_parameters_witness :
  JsObject.wf TaskSample.namedParameters
  ∧ getParameter TaskSample.compileTask "jobs"
    = Return (Named TaskSample.jobs)
  ∧ getParameter TaskSample.compileTask "paths"
    = Return (Positional TaskSample.paths).
Proof.
  assert (JsObject.wf TaskSample.namedParameters) as H1 by decide_goal.
  split; [exact H1|].
  split;
    unfold TaskSample.compileTask;
    by rewrite (new_task_finds_its_parameters tt ["compile"]
                  "Compiles the project" (inr "./compile.js")
                  TaskSample.namedParameters [TaskSample.paths] None _ H1).
Defined.

Lemma file_actions_resolved_in_place_witness :
  let actions :=
    [mkTaskAction None (AFile "./compile.js");
     mkTaskAction (Some "plugin") (AFunction TaskSample.sequential)] in
  Forall importable actions
  ∧ resolveFileActions actions
    = ([mkTaskAction None (AFunction TaskSample.compile);
        mkTaskAction (Some "plugin") (AFunction TaskSample.sequential)],
       Return ()).
Proof.
  intros actions.
  assert (Forall importable actions) as H1.
  { repeat constructor; intros path [= <-]. by eexists. }
  split; [exact H1|].
  exact (proj1 (proj2 (file_actions_resolved_in_place actions) H1)).
Defined.
